(** * The quiz session engine of the marketing quiz application

    A shallow embedding of the quiz logic of the two pages of the
    application, [src/app/page.tsx] (the main page, called [Home] in the
    source) and [src/app/notes-quiz/page.tsx] ([NotesQuizPage]), and the
    properties of the engine that its specification states.  The two pages
    share their handlers almost word for word; where they differ, the
    definitions below branch on the [Page].  (The sources also hold an
    earlier copy of the main page, without analytics, which draws its
    questions with [sort] instead of [shuffleArray]; of it, the start of
    a round is modelled, as [Legacy_startNewQuizRound].)

    Conventions of the embedding.
    - A React state cell is a field of the record [State]; an event handler
      is a function from the state (and the outside [World]) to the next
      state.  Each handler runs in the closure of the latest render, and
      the setters of one handler are applied together, as React batches
      them.
    - [Math.random()], [Date.now()], [uuidv4()] and [setTimeout] read the
      [World], which is threaded through the code.  Numbers are the
      non-negative integers that the sliders and counters of the pages
      produce.
    - The order in which [Array.prototype.sort] leaves an array under a
      comparator that answers at random is left to the JavaScript engine;
      it is a parameter ([ArraySort]) of which only "the result is a
      rearrangement of the array" is assumed.
    - [getSampledQuestions] groups the questions in a plain object, which
      inherits the members of [Object.prototype]: for a topic named like
      one of them ("constructor", "toString", ...) the source finds the
      inherited value, stores no array and throws at [.push].  The
      embedding of the grouping is that of the source on the other topics
      ([ownTopics]); the properties that rest on the value it returns carry
      that hypothesis. *)

From Stdlib Require Import Ascii String Arith Lia.
From stdpp Require Import base list gmap strings sorting.

(** ** JavaScript primitives *)

(** A value of [Math.random()]: the real [numer / (numer + slack + 1)],
    which ranges over the rationals of [[0, 1)]. *)
Record Unit01 := { numer : nat; slack : nat }.

(** [Math.floor(x * k)] *)
Definition floor_mul (x : Unit01) (k : nat) : nat :=
  (numer x * k) / (numer x + slack x + 1).

(** [x < 0.5], the sign test of the comparator [() => 0.5 - Math.random()] *)
Definition below_half (x : Unit01) : bool := numer x <=? slack x.

(** What the handlers read from outside the component. *)
Record World := {
  random_source : nat -> Unit01;  (* the successive values of Math.random() *)
  random_calls : nat;             (* how many of them were consumed *)
  clock : nat;                    (* Date.now() *)
  uuid_calls : nat;               (* uuidv4() hands out fresh identifiers *)
  timer_calls : nat               (* setTimeout hands out fresh handles *)
}.

Definition Math_random (w : World) : Unit01 * World :=
  (random_source w (random_calls w),
   {| random_source := random_source w; random_calls := S (random_calls w);
      clock := clock w; uuid_calls := uuid_calls w;
      timer_calls := timer_calls w |}).

Definition Date_now (w : World) : nat := clock w.

Definition uuidv4 (w : World) : nat * World :=
  (uuid_calls w,
   {| random_source := random_source w; random_calls := random_calls w;
      clock := clock w; uuid_calls := S (uuid_calls w);
      timer_calls := timer_calls w |}).

Definition setTimeout (w : World) : nat * World :=
  (timer_calls w,
   {| random_source := random_source w; random_calls := random_calls w;
      clock := clock w; uuid_calls := uuid_calls w;
      timer_calls := S (timer_calls w) |}).

(** [String.prototype.toUpperCase] on the ASCII letters, which is what the
    answer labels are made of. *)
Definition upper_ascii (c : ascii) : ascii :=
  let n := nat_of_ascii c in
  if (97 <=? n) && (n <=? 122) then ascii_of_nat (n - 32) else c.

Fixpoint toUpperCase (s : string) : string :=
  match s with
  | EmptyString => EmptyString
  | String c s' => String (upper_ascii c) (toUpperCase s')
  end.

(** [Math.ceil(n / g)] on non-negative integers, [g > 0]. *)
Definition ceil_div (n g : nat) : nat := (n + g - 1) / g.

(** [array.slice(0, n)] *)
Definition slice0 {A} (n : nat) (array : list A) : list A := take n array.

(** [[a[i], a[j]] = [a[j], a[i]]]: both reads happen before both writes. *)
Definition swap {A} (i j : nat) (a : list A) : list A :=
  match a !! i, a !! j with
  | Some x, Some y => <[j:=x]> (<[i:=y]> a)
  | _, _ => a  (* an index outside the array: not reached by the callers *)
  end.

(** The implementation-defined part of the JavaScript engine:
    [array.sort(() => 0.5 - Math.random())], which sorts a copy in place
    with a comparator that consumes random numbers. *)
Class ArraySort := {
  sort_random : ∀ {A : Type}, list A → World → list A * World;
  sort_random_perm : ∀ (A : Type) (l : list A) (w : World),
    (sort_random l w).1 ≡ₚ l
}.

(** ** Fisher-Yates shuffle *)

(** The loop of [shuffleArray]:
    [for (let i = newArray.length - 1; i > 0; i--)] *)
Fixpoint shuffle_loop {A} (i : nat) (newArray : list A) (w : World)
  : list A * World :=
  match i with
  | 0 => (newArray, w)
  | S i' =>
      let '(x, w1) := Math_random w in
      let j := floor_mul x (i + 1) in
      shuffle_loop i' (swap i j newArray) w1
  end.

(** [shuffleArray], on array values. *)
Definition shuffleArray {A} (array : list A) (w : World) : list A * World :=
  let newArray := array in
  shuffle_loop (length newArray - 1) newArray w.

(** The same function on array objects: a heap maps references to array
    contents, [[...array]] allocates, and the swaps update the new array in
    place. *)
Section ArrayObjects.
Context {A : Type}.

Definition alloc (h : gmap nat (list A)) (l : list A)
  : nat * gmap nat (list A) :=
  let r := fresh (dom h) in (r, <[r:=l]> h).

Definition swap_ref (a i j : nat) (h : gmap nat (list A))
  : gmap nat (list A) :=
  match h !! a with
  | Some l => <[a:=swap i j l]> h
  | None => h
  end.

Fixpoint shuffle_loop_ref (i a : nat) (h : gmap nat (list A)) (w : World)
  : gmap nat (list A) * World :=
  match i with
  | 0 => (h, w)
  | S i' =>
      let '(x, w1) := Math_random w in
      let j := floor_mul x (i + 1) in
      shuffle_loop_ref i' a (swap_ref a i j h) w1
  end.

(** [None]: the argument is not an array of the heap. *)
Definition shuffleArray_ref (array : nat) (h : gmap nat (list A)) (w : World)
  : option (nat * gmap nat (list A) * World) :=
  match h !! array with
  | None => None
  | Some l =>
      let '(newArray, h1) := alloc h l in
      let '(h2, w2) := shuffle_loop_ref (length l - 1) newArray h1 w in
      Some (newArray, h2, w2)
  end.
End ArrayObjects.

(** ** Data model ([src/types.ts]) *)

Record Alternative := { label : string; text : string }.

(** The [alternatives] field as it arrives from the JSON file. *)
Inductive Alternatives :=
| AltsArray (alts : list Alternative)  (* an array *)
| AltsMissing                          (* undefined, null or another falsy value *)
| AltsNotArray (raw : string).         (* a truthy value that is not an array *)

Record Question := {
  number : string;
  question_text : string;
  alternatives : Alternatives;
  pdf_filename : option string;  (* [None]: the field is absent *)
  correct_answer : string
}.

#[global] Instance Alternative_eq_dec : EqDecision Alternative.
Proof. solve_decision. Defined.
#[global] Instance Alternatives_eq_dec : EqDecision Alternatives.
Proof. solve_decision. Defined.
#[global] Instance Question_eq_dec : EqDecision Question.
Proof. solve_decision. Defined.

(** [q.pdf_filename || fallback]: the empty string is falsy too. *)
Definition pdf_filename_or (fallback : string) (q : Question) : string :=
  match pdf_filename q with
  | Some f => if decide (f = ""%string) then fallback else f
  | None => fallback
  end.

(** ** Plain objects used as dictionaries

    The own properties of an object in creation order.  The keys used
    below are the names of source documents and the numbers of questions.
    A lookup [o[k]] is modelled for the keys [k] that are not names of
    members inherited from [Object.prototype] ([Object_prototype_members]
    below), for which it reads the own properties only. *)
Abbreviation JsObject V := (list (string * V)).

Fixpoint obj_get {V} (k : string) (o : JsObject V) : option V :=
  match o with
  | [] => None
  | (k', v) :: o' => if decide (k = k') then Some v else obj_get k o'
  end.

(** [o[k] = v]: an existing property keeps its place. *)
Fixpoint obj_set {V} (k : string) (v : V) (o : JsObject V) : JsObject V :=
  match o with
  | [] => [(k, v)]
  | (k', v') :: o' =>
      if decide (k = k') then (k, v) :: o' else (k', v') :: obj_set k v o'
  end.

(** The value of a decimal numeral. *)
Definition digit_value (c : ascii) : option N :=
  let n := N_of_ascii c in
  if ((48 <=? n) && (n <=? 57))%N then Some (n - 48)%N else None.

Fixpoint digits_value (acc : N) (s : string) : option N :=
  match s with
  | EmptyString => Some acc
  | String c s' =>
      match digit_value c with
      | Some d => digits_value (10 * acc + d)%N s'
      | None => None
      end
  end.

(** A key is an array index when it is the decimal numeral, without
    leading zero, of an integer below [2^32 - 1]. *)
Definition array_index (k : string) : option N :=
  match k with
  | EmptyString => None
  | String c s' =>
      if decide (c = "0"%char) then
        (if decide (s' = EmptyString) then Some 0%N else None)
      else
        match digits_value 0 k with
        | Some n => if (n <? 4294967295)%N then Some n else None
        | None => None
        end
  end.

(** Ascending insertion of an index property. *)
Fixpoint insert_index {V} (n : N) (kv : string * V)
  (l : list (N * (string * V))) : list (N * (string * V)) :=
  match l with
  | [] => [(n, kv)]
  | (m, kv') :: l' =>
      if (n <=? m)%N then (n, kv) :: l else (m, kv') :: insert_index n kv l'
  end.

(** The properties of an object in the order of [Object.keys],
    [Object.values] and [for-in]: array indices first, ascending, then the
    other keys in creation order. *)
Fixpoint index_properties {V} (o : JsObject V) : list (N * (string * V)) :=
  match o with
  | [] => []
  | (k, v) :: o' =>
      match array_index k with
      | Some n => insert_index n (k, v) (index_properties o')
      | None => index_properties o'
      end
  end.

Definition name_properties {V} (o : JsObject V) : JsObject V :=
  filter (λ kv, array_index kv.1 = None) o.

Definition own_properties {V} (o : JsObject V) : JsObject V :=
  (index_properties o).*2 ++ name_properties o.

Definition Object_values {V} (o : JsObject V) : list V := (own_properties o).*2.

(** [new Set(array).size] *)
Definition Set_size (keys : list string) : nat := length (remove_dups keys).

(** ** The state cells of the component

    The cells that the quiz logic reads or writes.  Loading ([isLoading],
    [error], [sessions]), routing and the PIN dialog of the main page, and
    the analytics client ([supabase], [userId]) are left out: no handler
    below touches them.  Sending an analytics event changes no cell. *)

Inductive AnswerStatus := Correct | Incorrect | Skipped.

#[global] Instance AnswerStatus_eq_dec : EqDecision AnswerStatus.
Proof. solve_decision. Defined.

Record State := {
  allQuestions : list Question;  (* the pool, loaded once *)
  activeQuestions : list Question;  (* the questions of the round, in order *)
  currentQuestionIndex : nat;
  currentQuestion : option Question;  (* the question on display, [None] when there is none *)
  selectedSession : string;
  streak : nat;
  answerStatus : option AnswerStatus;  (* the outcome on display *)
  selectedAlternativeLabel : option string;
  showQuizSetup : bool;  (* showSessionSelector on the main page *)
  incorrectlyAnsweredQuestions : list Question;  (* the mistakes of the round *)
  questionToReview : option Question;
  numQuestions : nat;
  answerHistory : JsObject (string * bool);  (* keyed by question number *)
  feedbackTimeoutId : option nat;  (* the handle of the deferred advance *)
  currentQuizRoundId : option nat;  (* main page only (analytics) *)
  questionStartTime : option nat  (* main page only (analytics) *)
}.

(** The setters [setX(v)] of the cells. *)
Definition setAllQuestions (v : list Question) (s : State) : State :=
  {| allQuestions := v; activeQuestions := activeQuestions s;
     currentQuestionIndex := currentQuestionIndex s;
     currentQuestion := currentQuestion s;
     selectedSession := selectedSession s; streak := streak s;
     answerStatus := answerStatus s;
     selectedAlternativeLabel := selectedAlternativeLabel s;
     showQuizSetup := showQuizSetup s;
     incorrectlyAnsweredQuestions := incorrectlyAnsweredQuestions s;
     questionToReview := questionToReview s; numQuestions := numQuestions s;
     answerHistory := answerHistory s;
     feedbackTimeoutId := feedbackTimeoutId s;
     currentQuizRoundId := currentQuizRoundId s;
     questionStartTime := questionStartTime s |}.

Definition setActiveQuestions (v : list Question) (s : State) : State :=
  {| allQuestions := allQuestions s; activeQuestions := v;
     currentQuestionIndex := currentQuestionIndex s;
     currentQuestion := currentQuestion s;
     selectedSession := selectedSession s; streak := streak s;
     answerStatus := answerStatus s;
     selectedAlternativeLabel := selectedAlternativeLabel s;
     showQuizSetup := showQuizSetup s;
     incorrectlyAnsweredQuestions := incorrectlyAnsweredQuestions s;
     questionToReview := questionToReview s; numQuestions := numQuestions s;
     answerHistory := answerHistory s;
     feedbackTimeoutId := feedbackTimeoutId s;
     currentQuizRoundId := currentQuizRoundId s;
     questionStartTime := questionStartTime s |}.

Definition setCurrentQuestionIndex (v : nat) (s : State) : State :=
  {| allQuestions := allQuestions s; activeQuestions := activeQuestions s;
     currentQuestionIndex := v; currentQuestion := currentQuestion s;
     selectedSession := selectedSession s; streak := streak s;
     answerStatus := answerStatus s;
     selectedAlternativeLabel := selectedAlternativeLabel s;
     showQuizSetup := showQuizSetup s;
     incorrectlyAnsweredQuestions := incorrectlyAnsweredQuestions s;
     questionToReview := questionToReview s; numQuestions := numQuestions s;
     answerHistory := answerHistory s;
     feedbackTimeoutId := feedbackTimeoutId s;
     currentQuizRoundId := currentQuizRoundId s;
     questionStartTime := questionStartTime s |}.

Definition setCurrentQuestion (v : option Question) (s : State) : State :=
  {| allQuestions := allQuestions s; activeQuestions := activeQuestions s;
     currentQuestionIndex := currentQuestionIndex s; currentQuestion := v;
     selectedSession := selectedSession s; streak := streak s;
     answerStatus := answerStatus s;
     selectedAlternativeLabel := selectedAlternativeLabel s;
     showQuizSetup := showQuizSetup s;
     incorrectlyAnsweredQuestions := incorrectlyAnsweredQuestions s;
     questionToReview := questionToReview s; numQuestions := numQuestions s;
     answerHistory := answerHistory s;
     feedbackTimeoutId := feedbackTimeoutId s;
     currentQuizRoundId := currentQuizRoundId s;
     questionStartTime := questionStartTime s |}.

Definition setSelectedSession (v : string) (s : State) : State :=
  {| allQuestions := allQuestions s; activeQuestions := activeQuestions s;
     currentQuestionIndex := currentQuestionIndex s;
     currentQuestion := currentQuestion s; selectedSession := v;
     streak := streak s; answerStatus := answerStatus s;
     selectedAlternativeLabel := selectedAlternativeLabel s;
     showQuizSetup := showQuizSetup s;
     incorrectlyAnsweredQuestions := incorrectlyAnsweredQuestions s;
     questionToReview := questionToReview s; numQuestions := numQuestions s;
     answerHistory := answerHistory s;
     feedbackTimeoutId := feedbackTimeoutId s;
     currentQuizRoundId := currentQuizRoundId s;
     questionStartTime := questionStartTime s |}.

Definition setStreak (v : nat) (s : State) : State :=
  {| allQuestions := allQuestions s; activeQuestions := activeQuestions s;
     currentQuestionIndex := currentQuestionIndex s;
     currentQuestion := currentQuestion s;
     selectedSession := selectedSession s; streak := v;
     answerStatus := answerStatus s;
     selectedAlternativeLabel := selectedAlternativeLabel s;
     showQuizSetup := showQuizSetup s;
     incorrectlyAnsweredQuestions := incorrectlyAnsweredQuestions s;
     questionToReview := questionToReview s; numQuestions := numQuestions s;
     answerHistory := answerHistory s;
     feedbackTimeoutId := feedbackTimeoutId s;
     currentQuizRoundId := currentQuizRoundId s;
     questionStartTime := questionStartTime s |}.

Definition setAnswerStatus (v : option AnswerStatus) (s : State) : State :=
  {| allQuestions := allQuestions s; activeQuestions := activeQuestions s;
     currentQuestionIndex := currentQuestionIndex s;
     currentQuestion := currentQuestion s;
     selectedSession := selectedSession s; streak := streak s;
     answerStatus := v;
     selectedAlternativeLabel := selectedAlternativeLabel s;
     showQuizSetup := showQuizSetup s;
     incorrectlyAnsweredQuestions := incorrectlyAnsweredQuestions s;
     questionToReview := questionToReview s; numQuestions := numQuestions s;
     answerHistory := answerHistory s;
     feedbackTimeoutId := feedbackTimeoutId s;
     currentQuizRoundId := currentQuizRoundId s;
     questionStartTime := questionStartTime s |}.

Definition setSelectedAlternativeLabel (v : option string) (s : State) : State :=
  {| allQuestions := allQuestions s; activeQuestions := activeQuestions s;
     currentQuestionIndex := currentQuestionIndex s;
     currentQuestion := currentQuestion s;
     selectedSession := selectedSession s; streak := streak s;
     answerStatus := answerStatus s; selectedAlternativeLabel := v;
     showQuizSetup := showQuizSetup s;
     incorrectlyAnsweredQuestions := incorrectlyAnsweredQuestions s;
     questionToReview := questionToReview s; numQuestions := numQuestions s;
     answerHistory := answerHistory s;
     feedbackTimeoutId := feedbackTimeoutId s;
     currentQuizRoundId := currentQuizRoundId s;
     questionStartTime := questionStartTime s |}.

Definition setShowQuizSetup (v : bool) (s : State) : State :=
  {| allQuestions := allQuestions s; activeQuestions := activeQuestions s;
     currentQuestionIndex := currentQuestionIndex s;
     currentQuestion := currentQuestion s;
     selectedSession := selectedSession s; streak := streak s;
     answerStatus := answerStatus s;
     selectedAlternativeLabel := selectedAlternativeLabel s;
     showQuizSetup := v;
     incorrectlyAnsweredQuestions := incorrectlyAnsweredQuestions s;
     questionToReview := questionToReview s; numQuestions := numQuestions s;
     answerHistory := answerHistory s;
     feedbackTimeoutId := feedbackTimeoutId s;
     currentQuizRoundId := currentQuizRoundId s;
     questionStartTime := questionStartTime s |}.

Definition setIncorrectlyAnsweredQuestions (v : list Question) (s : State) : State :=
  {| allQuestions := allQuestions s; activeQuestions := activeQuestions s;
     currentQuestionIndex := currentQuestionIndex s;
     currentQuestion := currentQuestion s;
     selectedSession := selectedSession s; streak := streak s;
     answerStatus := answerStatus s;
     selectedAlternativeLabel := selectedAlternativeLabel s;
     showQuizSetup := showQuizSetup s; incorrectlyAnsweredQuestions := v;
     questionToReview := questionToReview s; numQuestions := numQuestions s;
     answerHistory := answerHistory s;
     feedbackTimeoutId := feedbackTimeoutId s;
     currentQuizRoundId := currentQuizRoundId s;
     questionStartTime := questionStartTime s |}.

Definition setQuestionToReview (v : option Question) (s : State) : State :=
  {| allQuestions := allQuestions s; activeQuestions := activeQuestions s;
     currentQuestionIndex := currentQuestionIndex s;
     currentQuestion := currentQuestion s;
     selectedSession := selectedSession s; streak := streak s;
     answerStatus := answerStatus s;
     selectedAlternativeLabel := selectedAlternativeLabel s;
     showQuizSetup := showQuizSetup s;
     incorrectlyAnsweredQuestions := incorrectlyAnsweredQuestions s;
     questionToReview := v; numQuestions := numQuestions s;
     answerHistory := answerHistory s;
     feedbackTimeoutId := feedbackTimeoutId s;
     currentQuizRoundId := currentQuizRoundId s;
     questionStartTime := questionStartTime s |}.

Definition setNumQuestions (v : nat) (s : State) : State :=
  {| allQuestions := allQuestions s; activeQuestions := activeQuestions s;
     currentQuestionIndex := currentQuestionIndex s;
     currentQuestion := currentQuestion s;
     selectedSession := selectedSession s; streak := streak s;
     answerStatus := answerStatus s;
     selectedAlternativeLabel := selectedAlternativeLabel s;
     showQuizSetup := showQuizSetup s;
     incorrectlyAnsweredQuestions := incorrectlyAnsweredQuestions s;
     questionToReview := questionToReview s; numQuestions := v;
     answerHistory := answerHistory s;
     feedbackTimeoutId := feedbackTimeoutId s;
     currentQuizRoundId := currentQuizRoundId s;
     questionStartTime := questionStartTime s |}.

Definition setAnswerHistory (v : JsObject (string * bool)) (s : State) : State :=
  {| allQuestions := allQuestions s; activeQuestions := activeQuestions s;
     currentQuestionIndex := currentQuestionIndex s;
     currentQuestion := currentQuestion s;
     selectedSession := selectedSession s; streak := streak s;
     answerStatus := answerStatus s;
     selectedAlternativeLabel := selectedAlternativeLabel s;
     showQuizSetup := showQuizSetup s;
     incorrectlyAnsweredQuestions := incorrectlyAnsweredQuestions s;
     questionToReview := questionToReview s; numQuestions := numQuestions s;
     answerHistory := v; feedbackTimeoutId := feedbackTimeoutId s;
     currentQuizRoundId := currentQuizRoundId s;
     questionStartTime := questionStartTime s |}.

Definition setFeedbackTimeoutId (v : option nat) (s : State) : State :=
  {| allQuestions := allQuestions s; activeQuestions := activeQuestions s;
     currentQuestionIndex := currentQuestionIndex s;
     currentQuestion := currentQuestion s;
     selectedSession := selectedSession s; streak := streak s;
     answerStatus := answerStatus s;
     selectedAlternativeLabel := selectedAlternativeLabel s;
     showQuizSetup := showQuizSetup s;
     incorrectlyAnsweredQuestions := incorrectlyAnsweredQuestions s;
     questionToReview := questionToReview s; numQuestions := numQuestions s;
     answerHistory := answerHistory s; feedbackTimeoutId := v;
     currentQuizRoundId := currentQuizRoundId s;
     questionStartTime := questionStartTime s |}.

Definition setCurrentQuizRoundId (v : option nat) (s : State) : State :=
  {| allQuestions := allQuestions s; activeQuestions := activeQuestions s;
     currentQuestionIndex := currentQuestionIndex s;
     currentQuestion := currentQuestion s;
     selectedSession := selectedSession s; streak := streak s;
     answerStatus := answerStatus s;
     selectedAlternativeLabel := selectedAlternativeLabel s;
     showQuizSetup := showQuizSetup s;
     incorrectlyAnsweredQuestions := incorrectlyAnsweredQuestions s;
     questionToReview := questionToReview s; numQuestions := numQuestions s;
     answerHistory := answerHistory s;
     feedbackTimeoutId := feedbackTimeoutId s; currentQuizRoundId := v;
     questionStartTime := questionStartTime s |}.

Definition setQuestionStartTime (v : option nat) (s : State) : State :=
  {| allQuestions := allQuestions s; activeQuestions := activeQuestions s;
     currentQuestionIndex := currentQuestionIndex s;
     currentQuestion := currentQuestion s;
     selectedSession := selectedSession s; streak := streak s;
     answerStatus := answerStatus s;
     selectedAlternativeLabel := selectedAlternativeLabel s;
     showQuizSetup := showQuizSetup s;
     incorrectlyAnsweredQuestions := incorrectlyAnsweredQuestions s;
     questionToReview := questionToReview s; numQuestions := numQuestions s;
     answerHistory := answerHistory s;
     feedbackTimeoutId := feedbackTimeoutId s;
     currentQuizRoundId := currentQuizRoundId s; questionStartTime := v |}.
(** The state of the component once the pool is loaded. *)
Definition initialState (pool : list Question) : State :=
  {| allQuestions := pool; activeQuestions := []; currentQuestionIndex := 0;
     currentQuestion := None; selectedSession := "all"; streak := 0;
     answerStatus := None; selectedAlternativeLabel := None;
     showQuizSetup := true; incorrectlyAnsweredQuestions := [];
     questionToReview := None; numQuestions := 10; answerHistory := [];
     feedbackTimeoutId := None; currentQuizRoundId := None;
     questionStartTime := None |}.

(** ** Helpers of the pages *)

(** [getRandomQuestions] (main page) *)
Definition getRandomQuestions (questions : list Question) (count : nat)
  (w : World) : list Question * World :=
  let '(shuffled, w1) := shuffleArray questions w in
  (slice0 count shuffled, w1).

Definition withAlternatives (q : Question) (alts : Alternatives) : Question :=
  {| number := number q; question_text := question_text q;
     alternatives := alts; pdf_filename := pdf_filename q;
     correct_answer := correct_answer q |}.

(** [shuffleAlternatives] (both pages); [None] is [null]. *)
Definition shuffleAlternatives (question : option Question) (w : World)
  : option Question * World :=
  match question with
  | None => (None, w)
  | Some q =>
      match alternatives q with
      | AltsArray alts =>
          let '(shuffledAlts, w1) := shuffleArray alts w in
          (Some (withAlternatives q (AltsArray shuffledAlts)), w1)
      | AltsMissing | AltsNotArray _ => (Some q, w)  (* console.warn *)
      end
  end.

(** The first loop of [getSampledQuestions] (notes-quiz page): the
    questions of each source, under the key [q.pdf_filename || "notes_quiz"].
    This is the loop on keys that are not names of members of
    [Object.prototype]: for such a name
    [!questionsBySession[key]] is false although the object has no such
    own property, no array is stored, and [questionsBySession[key].push(q)]
    throws a TypeError, so that [getSampledQuestions] returns nothing.  The
    pools without such a topic are those with [ownTopics pool = true]. *)
Definition add_to_session (questionsBySession : JsObject (list Question))
  (q : Question) : JsObject (list Question) :=
  let key := pdf_filename_or "notes_quiz" q in
  let o1 :=
    match obj_get key questionsBySession with
    | None => obj_set key [] questionsBySession
    | Some _ => questionsBySession
    end in
  match obj_get key o1 with
  | Some sessionQuestions => obj_set key (sessionQuestions ++ [q]) o1
  | None => o1
  end.

Definition group_by_session (allQuestions : list Question)
  : JsObject (list Question) :=
  fold_left add_to_session allQuestions [].

(** The second loop: a shuffled copy of each group, cut to
    [questionsPerSession], is pushed onto [sampledQuestions]. *)
Fixpoint sample_sessions `{ArraySort} (groups : list (list Question))
  (questionsPerSession : nat) (sampledQuestions : list Question) (w : World)
  : list Question * World :=
  match groups with
  | [] => (sampledQuestions, w)
  | sessionQuestions :: groups' =>
      let '(shuffled, w1) := sort_random sessionQuestions w in
      sample_sessions groups' questionsPerSession
        (sampledQuestions ++ slice0 questionsPerSession shuffled) w1
  end.

(** [getSampledQuestions] (notes-quiz page) *)
Definition getSampledQuestions `{ArraySort} (allQuestions : list Question)
  (questionsPerSession : nat) (w : World) : list Question * World :=
  let questionsBySession := group_by_session allQuestions in
  let '(sampledQuestions, w1) :=
    sample_sessions (Object_values questionsBySession) questionsPerSession [] w in
  sort_random sampledQuestions w1.

(** ** The handlers *)

Inductive Page := Home | NotesQuizPage.

(** How a page turns a question of the round into the question on
    display: the notes-quiz page shuffles its alternatives, the main page
    shows it as it is. *)
Definition present (p : Page) (q : option Question) (w : World)
  : option Question * World :=
  match p with
  | NotesQuizPage => shuffleAlternatives q w
  | Home => (q, w)
  end.

(** [setQuestionStartTime(Date.now())], on the main page only. *)
Definition restartQuestionClock (p : Page) (w : World) (s : State) : State :=
  match p with
  | Home => setQuestionStartTime (Some (Date_now w)) s
  | NotesQuizPage => s
  end.

Definition clearFeedbackAndTimeout (s : State) : State :=
  let s1 :=
    match feedbackTimeoutId s with
    | Some _ => setFeedbackTimeoutId None s  (* after clearTimeout *)
    | None => s
    end in
  setSelectedAlternativeLabel None (setAnswerStatus None s1).

(** The setters that end [startNewQuizRound] on both pages, from
    [setActiveQuestions(questionsForRound)] on. *)
Definition installRound (p : Page) (questionsForRound : list Question)
  (s : State) (w : World) : State * World :=
  let s1 := setCurrentQuestionIndex 0 (setActiveQuestions questionsForRound s) in
  let '(s2, w1) :=
    if 0 <? length questionsForRound then
      let '(q, w') := present p (questionsForRound !! 0) w in
      (setShowQuizSetup false (setCurrentQuestion q s1), w')
    else (setShowQuizSetup true (setCurrentQuestion None s1), w) in
  let s3 :=
    setAnswerHistory []
      (setQuestionToReview None
         (setIncorrectlyAnsweredQuestions []
            (setSelectedAlternativeLabel None
               (setAnswerStatus None (setStreak 0 s2))))) in
  (match feedbackTimeoutId s3 with
   | Some _ => setFeedbackTimeoutId None s3
   | None => s3
   end, w1).

(** The first selection of [startNewQuizRound] on the notes-quiz page
    (the [if (session === "all") ... else ...] before the fallback). *)
Definition NotesQuizPage_selectQuestions `{ArraySort} (session : string)
  (s : State) (w : World) : list Question * World :=
  if decide (session = "all") then
    let sourceKeys := pdf_filename_or "notes_quiz" <$> allQuestions s in
    let numUniqueSources :=
      if 0 <? Set_size sourceKeys then Set_size sourceKeys else 1 in
    let questionsToSamplePerSource :=
      ceil_div (numQuestions s) numUniqueSources in
    let '(preliminaryQuestions, w') :=
      getSampledQuestions (allQuestions s) questionsToSamplePerSource w in
    (slice0 (numQuestions s) preliminaryQuestions, w')
  else
    let sessionQuestions :=
      filter (λ q, pdf_filename_or "Unknown Source" q = session)
        (allQuestions s) in
    let '(sorted, w') := sort_random sessionQuestions w in
    (slice0 (numQuestions s) sorted, w').

(** [startNewQuizRound] of the notes-quiz page *)
Definition NotesQuizPage_startNewQuizRound `{ArraySort} (session : string)
  (s : State) (w : World) : State * World :=
  if decide (allQuestions s = []) then
    (setShowQuizSetup true (setCurrentQuestion None (setActiveQuestions [] s)), w)
  else
    let '(questionsForRound, w1) := NotesQuizPage_selectQuestions session s w in
    let '(questionsForRound, w2) :=
      if (length questionsForRound =? 0) && (0 <? length (allQuestions s))
         && (0 <? numQuestions s) then
        let '(sorted, w') := sort_random (allQuestions s) w1 in
        (slice0 (numQuestions s `min` (5 `min` length (allQuestions s))) sorted,
         w')
      else (questionsForRound, w1) in
    installRound NotesQuizPage questionsForRound s w2.

(** The first selection of [startNewQuizRound] on the main page. *)
Definition Home_selectQuestions (session : string) (s : State) (w : World)
  : list Question * World :=
  if decide (session = "all") then
    getRandomQuestions (allQuestions s) (numQuestions s) w
  else
    let sessionQuestions :=
      filter (λ q, pdf_filename q = Some session) (allQuestions s) in
    getRandomQuestions sessionQuestions (numQuestions s) w.

(** [startNewQuizRound] of the main page *)
Definition Home_startNewQuizRound (session : string) (s : State) (w : World)
  : State * World :=
  let '(newQuizRoundId, w0) := uuidv4 w in
  let s0 :=
    setQuestionStartTime (Some (Date_now w0))
      (setCurrentQuizRoundId (Some newQuizRoundId) s) in
  let '(questionsForRound, w1) := Home_selectQuestions session s w0 in
  let '(questionsForRound, w2) :=
    if (length questionsForRound =? 0) && (0 <? length (allQuestions s))
       && (0 <? numQuestions s) then
      getRandomQuestions (allQuestions s) (numQuestions s `min` 5) w1
    else (questionsForRound, w1) in
  installRound Home questionsForRound s0 w2.

(** What the first selection draws from: the pool, or its questions of the
    chosen session. *)
Definition filteredPool (p : Page) (session : string) (pool : list Question)
  : list Question :=
  if decide (session = "all") then pool
  else
    match p with
    | NotesQuizPage =>
        filter (λ q, pdf_filename_or "Unknown Source" q = session) pool
    | Home => filter (λ q, pdf_filename q = Some session) pool
    end.

Definition selectQuestions `{ArraySort} (p : Page) (session : string)
  (s : State) (w : World) : list Question * World :=
  match p with
  | Home => Home_selectQuestions session s (uuidv4 w).2
  | NotesQuizPage => NotesQuizPage_selectQuestions session s w
  end.

Definition startNewQuizRound `{ArraySort} (p : Page) (session : string)
  (s : State) (w : World) : State * World :=
  match p with
  | Home => Home_startNewQuizRound session s w
  | NotesQuizPage => NotesQuizPage_startNewQuizRound session s w
  end.

(** [loadNextQuestion] (the advance of the round) *)
Definition loadNextQuestion (p : Page) (skipped : bool) (s : State) (w : World)
  : State * World :=
  let s1 := clearFeedbackAndTimeout s in
  if (0 <? length (activeQuestions s))
     && (currentQuestionIndex s <? length (activeQuestions s) - 1) then
    let nextIndex := currentQuestionIndex s + 1 in
    let '(q, w1) := present p (activeQuestions s !! nextIndex) w in
    let s2 := setCurrentQuestion q (setCurrentQuestionIndex nextIndex s1) in
    let s3 := if skipped then setAnswerStatus None s2 else s2 in
    (restartQuestionClock p w1 s3, w1)
  else (setCurrentQuestion None s1, w).

(** The test of [handleAnswer]: the labels are compared in upper case. *)
Definition isCorrectAnswer (alternative : Alternative) (q : Question) : bool :=
  bool_decide (toUpperCase (label alternative) = toUpperCase (correct_answer q)).

(** [incorrectlyAnsweredQuestions] after a wrong answer to
    [currentQuestion]: [prev.find(q => q.number === currentQuestion.number)]. *)
Definition recordMistake (currentQuestion : Question) (prev : list Question)
  : list Question :=
  match find (λ q, bool_decide (number q = number currentQuestion)) prev with
  | None => prev ++ [currentQuestion]
  | Some _ => prev
  end.

(** [handleAnswer] (the submission of an answer) *)
Definition handleAnswer (alternative : Alternative) (s : State) (w : World)
  : State * World :=
  match currentQuestion s, answerStatus s with
  | Some cq, None =>
      let isCorrect := isCorrectAnswer alternative cq in
      let s1 := setSelectedAlternativeLabel (Some (label alternative)) s in
      let s2 :=
        setAnswerHistory
          (obj_set (number cq) (label alternative, isCorrect) (answerHistory s1))
          s1 in
      let s3 :=
        if isCorrect then setAnswerStatus (Some Correct) (setStreak (streak s2 + 1) s2)
        else
          setIncorrectlyAnsweredQuestions
            (recordMistake cq (incorrectlyAnsweredQuestions s2))
            (setAnswerStatus (Some Incorrect) (setStreak 0 s2)) in
      let '(newTimeoutId, w1) := setTimeout w in
      (setFeedbackTimeoutId (Some newTimeoutId) s3, w1)
  | _, _ => (s, w)
  end.

(** [handleSkip] *)
Definition handleSkip (s : State) (w : World) : State * World :=
  match currentQuestion s, answerStatus s with
  | Some _, None =>
      let s1 := setAnswerStatus (Some Skipped) (clearFeedbackAndTimeout s) in
      let '(newTimeoutId, w1) := setTimeout w in
      (setFeedbackTimeoutId (Some newTimeoutId) s1, w1)
  | _, _ => (s, w)
  end.

(** [handleGoBack] *)
Definition handleGoBack (p : Page) (s : State) (w : World) : State * World :=
  if 0 <? currentQuestionIndex s then
    let s1 := clearFeedbackAndTimeout s in
    let prevIndex := currentQuestionIndex s - 1 in
    let '(q, w1) := present p (activeQuestions s !! prevIndex) w in
    (restartQuestionClock p w1
       (setCurrentQuestion q (setCurrentQuestionIndex prevIndex s1)), w1)
  else (s, w).

(** The callback of the timer that [handleAnswer] and [handleSkip] set. *)
Definition feedbackTimeout (p : Page) (skipped : bool) (s : State) (w : World)
  : State * World :=
  let '(s1, w1) := loadNextQuestion p skipped s w in
  (setFeedbackTimeoutId None s1, w1).

(** [goToSessionSelector] (main page) *)
Definition goToSessionSelector (s : State) : State :=
  setAnswerStatus None
    (setActiveQuestions [] (setCurrentQuestion None (setShowQuizSetup true s))).

(** The [disabled] attribute of the Back button. *)
Definition backDisabled (s : State) : bool :=
  (currentQuestionIndex s =? 0) || bool_decide (answerStatus s ≠ None).

(** The "Quiz Finished" test of the render. *)
Definition quizFinished (s : State) : bool :=
  bool_decide (currentQuestion s = None)
  && (0 <? length (activeQuestions s))
  && (length (activeQuestions s) - 1 <=? currentQuestionIndex s)
  && negb (showQuizSetup s).

(** ** The events of a page *)

Inductive Event :=
| EvStart (session : string)          (* startNewQuizRound(session) *)
| EvAnswer (alternative : Alternative)  (* handleAnswer(alternative) *)
| EvSkip                              (* handleSkip() *)
| EvGoBack                            (* handleGoBack() *)
| EvTimeout (skipped : bool)          (* the deferred advance fires *)
| EvReview (i : nat)                  (* the i-th button of the mistakes grid *)
| EvCloseReview                       (* setQuestionToReview(null) *)
| EvSelectSession (session : string)  (* setSelectedSession *)
| EvNumQuestions (n : nat)            (* setNumQuestions *)
| EvSessionSelector.                  (* goToSessionSelector(), main page *)

Definition step `{ArraySort} (p : Page) (e : Event) (s : State) (w : World)
  : State * World :=
  match e with
  | EvStart session => startNewQuizRound p session s w
  | EvAnswer alternative => handleAnswer alternative s w
  | EvSkip => handleSkip s w
  | EvGoBack => handleGoBack p s w
  | EvTimeout skipped => feedbackTimeout p skipped s w
  | EvReview i =>
      match incorrectlyAnsweredQuestions s !! i with
      | Some q =>
          let '(r, w1) := shuffleAlternatives (Some q) w in
          (setQuestionToReview r s, w1)
      | None => (s, w)
      end
  | EvCloseReview => (setQuestionToReview None s, w)
  | EvSelectSession session => (setSelectedSession session s, w)
  | EvNumQuestions n => (setNumQuestions n s, w)
  | EvSessionSelector =>
      match p with
      | Home => (goToSessionSelector s, w)
      | NotesQuizPage => (s, w)  (* the page has no such control *)
      end
  end.

Fixpoint run `{ArraySort} (p : Page) (events : list Event) (s : State)
  (w : World) : State * World :=
  match events with
  | [] => (s, w)
  | e :: events' => let '(s1, w1) := step p e s w in run p events' s1 w1
  end.

(** The events that stay within the round in progress. *)
Definition in_round (e : Event) : bool :=
  match e with
  | EvStart _ => false
  | _ => true
  end.

(** The states a page can be in: from the loaded pool, by any events, in
    any world. *)
Inductive reachable `{ArraySort} (p : Page) : State → Prop :=
| reachable_init (pool : list Question) : reachable p (initialState pool)
| reachable_step (s : State) (w : World) (e : Event) :
    reachable p s → reachable p (step p e s w).1.

(** A round is in progress: the cursor is inside the round and the
    question on display is the question of the round at the cursor, its
    alternatives possibly rearranged. *)
Definition same_choices (q q' : Question) : Prop :=
  number q' = number q ∧ question_text q' = question_text q ∧
  pdf_filename q' = pdf_filename q ∧ correct_answer q' = correct_answer q ∧
  match alternatives q, alternatives q' with
  | AltsArray alts, AltsArray alts' => alts' ≡ₚ alts
  | a, a' => a' = a
  end.

Definition activeRound (s : State) : Prop :=
  ∃ q cq, activeQuestions s !! currentQuestionIndex s = Some q ∧
          currentQuestion s = Some cq ∧ same_choices q cq.

(** ** Stratified sampling, as the specification words it *)

(** The topic of a question, an absent one normalized to a sentinel. *)
Definition topic (q : Question) : string := pdf_filename_or "notes_quiz" q.

(** From the specification: the pool is partitioned by topic;
    [perGroup = ceil(size / numGroups)]; from each group up to [perGroup]
    questions are drawn without replacement (a rearrangement of the group,
    cut); the samples are concatenated, the concatenation is rearranged and
    cut to [size]. *)
Definition spec_stratified_sample (pool : list Question) (size : nat)
  (ordered : list Question) : Prop :=
  ∃ (topics : list string) (samples : list (list Question))
    (combined : list Question),
    NoDup topics ∧
    (∀ t, t ∈ topics ↔ ∃ q, q ∈ pool ∧ topic q = t) ∧
    Forall2
      (λ t sample, ∃ shuffled,
          shuffled ≡ₚ filter (λ q, topic q = t) pool ∧
          sample = take (ceil_div size (length topics)) shuffled)
      topics samples ∧
    combined ≡ₚ concat samples ∧
    ordered = take size combined.

(** How many questions of a topic a list holds. *)
Definition topic_count (t : string) (l : list Question) : nat :=
  length (filter (λ q, topic q = t) l).

(** The names of the members that a plain object ([{}]) inherits from
    [Object.prototype]. *)
Definition Object_prototype_members : list string :=
  [ "constructor"; "hasOwnProperty"; "isPrototypeOf"; "propertyIsEnumerable";
    "toLocaleString"; "toString"; "valueOf"; "__proto__";
    "__defineGetter__"; "__defineSetter__"; "__lookupGetter__";
    "__lookupSetter__" ]%string.

(** No topic of the pool is the name of an inherited member: the grouping
    of [getSampledQuestions] meets own properties only, and does not
    throw. *)
Definition ownTopics (pool : list Question) : bool :=
  forallb (λ q, bool_decide (topic q ∉ Object_prototype_members)) pool.

(** [startNewQuizRound] reaches its setters: the one call in it that can
    throw is [getSampledQuestions], which only the notes-quiz page makes,
    and only for "all". *)
Definition startCompletes (p : Page) (session : string)
  (pool : list Question) : bool :=
  match p with
  | Home => true
  | NotesQuizPage => if decide (session = "all"%string) then ownTopics pool else true
  end.

(** ** A JavaScript engine

    An insertion sort under the comparator [() => 0.5 - Math.random()]: one
    instance of [ArraySort], used to run the pages on concrete inputs. *)
Fixpoint insert_random {A} (x : A) (sorted : list A) (w : World)
  : list A * World :=
  match sorted with
  | [] => ([x], w)
  | y :: rest =>
      let '(r, w1) := Math_random w in
      if below_half r then
        let '(rest', w2) := insert_random x rest w1 in (y :: rest', w2)
      else (x :: sorted, w1)
  end.

Fixpoint insertion_sort_random {A} (l : list A) (w : World) : list A * World :=
  match l with
  | [] => ([], w)
  | x :: l' =>
      let '(sorted, w1) := insertion_sort_random l' w in
      insert_random x sorted w1
  end.

Definition insertion_ArraySort : ArraySort.
Proof.
  refine {| sort_random := @insertion_sort_random |}.
  assert (Hins : ∀ A (x : A) l w, (insert_random x l w).1 ≡ₚ x :: l).
  { intros A x l. induction l as [|y l IH]; intros w; simpl; [done|].
    destruct (below_half _); simpl; [|done].
    specialize (IH (Math_random w).2).
    destruct (insert_random x l _) as [rest' w2]; simpl in *.
    rewrite IH. apply Permutation_swap. }
  intros A l. induction l as [|x l IH]; intros w; simpl; [done|].
  specialize (IH w). destruct (insertion_sort_random l w) as [sorted w1].
  simpl in *. rewrite Hins. by rewrite IH.
Defined.

(** A source of random numbers that always answers [k/100]. *)
Definition constant_world (k : nat) : World :=
  {| random_source := λ _, {| numer := k; slack := 99 - k |};
     random_calls := 0; clock := 0; uuid_calls := 0; timer_calls := 0 |}.

(** ** Predicates on records and states *)

(** The [alternatives] of the record are missing or not an array. *)
Definition malformedAlternatives (q : Question) : bool :=
  match alternatives q with
  | AltsArray _ => false
  | AltsMissing | AltsNotArray _ => true
  end.

(** No feedback is left behind once a round has no question on display. *)
Definition feedbackCleared (s : State) : Prop :=
  0 < length (activeQuestions s) → currentQuestion s = None →
  answerStatus s = None ∧ selectedAlternativeLabel s = None ∧
  feedbackTimeoutId s = None.

(** Sample questions and answers for running the pages. *)
Definition sampleAlternatives : list Alternative :=
  [ {| label := "A"; text := "first" |}; {| label := "B"; text := "second" |};
    {| label := "C"; text := "third" |} ].

Definition sampleQuestion (n : string) (file : string) : Question :=
  {| number := n; question_text := "?"; alternatives := AltsArray sampleAlternatives;
     pdf_filename := Some file; correct_answer := "b" |}.

Definition answerA : Alternative := {| label := "A"; text := "first" |}.
Definition answerB : Alternative := {| label := "B"; text := "second" |}.

Definition samplePool : list Question :=
  [ sampleQuestion "1" "A.pdf"; sampleQuestion "2" "A.pdf";
    sampleQuestion "3" "A.pdf"; sampleQuestion "4" "A.pdf";
    sampleQuestion "5" "A.pdf"; sampleQuestion "6" "A.pdf";
    sampleQuestion "7" "A.pdf"; sampleQuestion "8" "B.pdf" ].

(** A state with an outcome on display at the second question of a round:
    a correct answer, the deferred advance, then a wrong answer. *)
Definition stateWithPendingOutcome : State * World :=
  @run insertion_ArraySort NotesQuizPage
    [EvNumQuestions 5; EvStart "all"; EvAnswer answerB; EvTimeout false;
     EvAnswer answerA]
    (initialState samplePool) (constant_world 50).

(** A finished round of one question. *)
Definition finishedState : State * World :=
  @run insertion_ArraySort NotesQuizPage
    [EvStart "A.pdf"; EvAnswer answerA; EvTimeout false]
    (initialState [sampleQuestion "1" "A.pdf"]) (constant_world 50).

(** A round in which the first question is answered wrongly twice, with a
    step back in between. *)
Definition revisitEvents : list Event :=
  [EvAnswer answerA; EvTimeout false; EvGoBack; EvAnswer answerA;
   EvTimeout false; EvAnswer answerA].

Definition startedState : State * World :=
  @run insertion_ArraySort NotesQuizPage [EvNumQuestions 5; EvStart "all"]
    (initialState samplePool) (constant_world 50).

Definition secondQuestionState : State * World :=
  @run insertion_ArraySort NotesQuizPage [EvSkip; EvTimeout true]
    startedState.1 startedState.2.

(** The test that guards the fallback of [startNewQuizRound]. *)
Definition fallbackApplies `{ArraySort} (p : Page) (session : string)
  (s : State) (w : World) : bool :=
  (length (selectQuestions p session s w).1 =? 0)
  && (0 <? length (allQuestions s)) && (0 <? numQuestions s).

(** The main page asked for five questions of all topics. *)
Definition homeAllTopics : State * World :=
  @startNewQuizRound insertion_ArraySort Home "all"
    (setNumQuestions 5 (initialState samplePool)) (constant_world 99).

(** The notes-quiz page asked for a topic that the pool does not have. *)
Definition absentTopicState : State := setNumQuestions 7 (initialState samplePool).

(** The object [questionsBySession] after the questions [qs]: one
    property for each topic among [qs], holding the questions of that topic
    in their order. *)
Definition grouped (qs : list Question) (o : JsObject (list Question)) : Prop :=
  NoDup o.*1 ∧
  ∀ k, obj_get k o =
       if decide (k ∈ topic <$> qs) then Some (filter (λ q, topic q = k) qs)
       else None.


(** The topics of the pool in the order in which [Object.values] visits
    their groups. *)
Definition topics_of (pool : list Question) : list string :=
  (own_properties (group_by_session pool)).*1.

(** The scenarios of the specification: three topics with 4, 4 and 2
    questions; a topic with three questions. *)
Definition threeTopicsPool : list Question :=
  [ sampleQuestion "1" "A.pdf"; sampleQuestion "2" "A.pdf";
    sampleQuestion "3" "A.pdf"; sampleQuestion "4" "A.pdf";
    sampleQuestion "5" "B.pdf"; sampleQuestion "6" "B.pdf";
    sampleQuestion "7" "B.pdf"; sampleQuestion "8" "B.pdf";
    sampleQuestion "9" "C.pdf"; sampleQuestion "10" "C.pdf" ].

Definition smallTopicPool : list Question :=
  [ sampleQuestion "1" "A.pdf"; sampleQuestion "2" "B.pdf";
    sampleQuestion "3" "A.pdf"; sampleQuestion "4" "B.pdf";
    sampleQuestion "5" "A.pdf" ].

(** ** The rest of the pages *)

(** [Array.from(new Set(keys))]: the distinct keys in the order of their
    first occurrence. *)
Definition Set_values {A} `{EqDecision A} (keys : list A) : list A :=
  fold_left (λ seen k, if decide (k ∈ seen) then seen else seen ++ [k]) keys [].

(** [array.sort()] on strings: ascending in the order of their code units
    (of their bytes, for the ASCII names of the source documents). *)
Fixpoint insert_sorted (k : string) (sorted : list string) : list string :=
  match sorted with
  | [] => [k]
  | k' :: rest =>
      if String.leb k k' then k :: sorted else k' :: insert_sorted k rest
  end.

Definition sort_strings (l : list string) : list string :=
  foldr insert_sorted [] l.

(** The [sessions] cell that [loadInitialData] fills on the notes-quiz
    page: the options of the topic selector, besides "all". *)
Definition NotesQuizPage_sessions (data : list Question) : list string :=
  if 0 <? length data then
    sort_strings (Set_values (pdf_filename_or "Unknown Source" <$> data))
  else [].

(** The [sessions] cell on the main page; [None] is [undefined]. *)
Definition Home_sessions (data : list Question) : list (option string) :=
  Set_values (pdf_filename <$> data).

(** The [disabled] attributes of the Skip button and of the answer
    buttons. *)
Definition skipDisabled (s : State) : bool :=
  bool_decide (answerStatus s ≠ None) || bool_decide (currentQuestion s = None).

Definition answerDisabled (s : State) : bool :=
  bool_decide (answerStatus s ≠ None).

(** [startNewQuizRound] of the earlier copy of the main page, which has no
    analytics and draws with [sort]. *)
Definition Legacy_selectQuestions `{ArraySort} (session : string) (s : State)
  (w : World) : list Question * World :=
  if decide (session = "all") then
    let '(sorted, w') := sort_random (allQuestions s) w in
    (slice0 (numQuestions s) sorted, w')
  else
    let sessionQuestions :=
      filter (λ q, pdf_filename q = Some session) (allQuestions s) in
    let '(sorted, w') := sort_random sessionQuestions w in
    (slice0 (numQuestions s) sorted, w').

Definition Legacy_startNewQuizRound `{ArraySort} (session : string)
  (s : State) (w : World) : State * World :=
  let '(questionsForRound, w1) := Legacy_selectQuestions session s w in
  let '(questionsForRound, w2) :=
    if (length questionsForRound =? 0) && (0 <? length (allQuestions s))
       && (0 <? numQuestions s) then
      let '(sorted, w') := sort_random (allQuestions s) w1 in
      (slice0 (numQuestions s `min` 5) sorted, w')
    else (questionsForRound, w1) in
  installRound Home questionsForRound s w2.

(** What holds of the cells in every state a page can reach: the round is
    drawn from the pool, the cursor is inside the round, the question on
    display is the question of the round at the cursor (up to the order of
    its alternatives), an outcome is on display only over a question and
    with a deferred advance scheduled, and every mistake is a question of
    the round. *)
Definition roundInvariant (s : State) : Prop :=
  activeQuestions s ⊆+ allQuestions s ∧
  (activeQuestions s = [] ∨
   currentQuestionIndex s < length (activeQuestions s)) ∧
  (∀ cq, currentQuestion s = Some cq →
         ∃ q, activeQuestions s !! currentQuestionIndex s = Some q ∧
              same_choices q cq) ∧
  (answerStatus s ≠ None →
   currentQuestion s ≠ None ∧ feedbackTimeoutId s ≠ None) ∧
  (activeQuestions s ≠ [] →
   ∀ m, m ∈ incorrectlyAnsweredQuestions s →
        ∃ q, q ∈ activeQuestions s ∧ same_choices q m).

(** The questions that the groups of the pool can supply when each gives
    at most [perGroup]. *)
Definition stratifiedSupply (pool : list Question) (perGroup : nat) : nat :=
  sum_list ((λ t, perGroup `min` topic_count t pool) <$> topics_of pool).

(** The session is an option of the page's topic selector. *)
Definition offered (p : Page) (session : string) (pool : list Question)
  : Prop :=
  match p with
  | NotesQuizPage => session ∈ NotesQuizPage_sessions pool
  | Home => Some session ∈ Home_sessions pool
  end.

(** [question.alternatives.map(f)] in the render: one element for each
    alternative; [None] is the TypeError that is thrown when [alternatives]
    is [undefined] or [null] (no property can be read) or another value
    that is not an array (it has no [map] to call). *)
Definition alternatives_map {B} (f : Alternative → B) (q : Question)
  : option (list B) :=
  match alternatives q with
  | AltsArray alts => Some (f <$> alts)
  | AltsMissing | AltsNotArray _ => None
  end.

(** What a page renders once loading is over: the error screen (the
    [error] cell is set exactly when no question was loaded), the setup
    screen, the "finished" screen, or the quiz with one answer button for
    each alternative of the question on display and, in the review modal,
    one row for each alternative of the question on review. *)
Inductive Screen :=
| ErrorScreen
| SetupScreen
| FinishedScreen
| QuizScreen (answerButtons : list Alternative) (reviewRows : list Alternative).

(** The render of both pages; [None]: it throws. *)
Definition render (s : State) : option Screen :=
  if bool_decide (allQuestions s = []) then Some ErrorScreen
  else if showQuizSetup s
          || ((0 <? length (allQuestions s))
              && (length (activeQuestions s) =? 0)
              && bool_decide (currentQuestion s = None))
  then Some SetupScreen
  else if quizFinished s then Some FinishedScreen
  else
    match
      match currentQuestion s with
      | Some q => alternatives_map id q
      | None => Some []
      end,
      match questionToReview s with
      | Some q => alternatives_map id q
      | None => Some []
      end
    with
    | Some answerButtons, Some reviewRows =>
        Some (QuizScreen answerButtons reviewRows)
    | _, _ => None
    end.

(** A record without alternatives, as the JSON file can hold one. *)
Definition recordWithoutAlternatives : Question :=
  {| number := "9"; question_text := "?"; alternatives := AltsMissing;
     pdf_filename := Some "A.pdf"%string; correct_answer := "A" |}.

(** A player who answers the questions one after the other: each answer
    is followed by its deferred advance. *)
Definition answerInTurn (answers : list Alternative) : list Event :=
  answers ≫= λ alternative, [EvAnswer alternative; EvTimeout false].

(** * Properties *)

(** ** The shuffle *)

Lemma floor_mul_lt (x : Unit01) (k : nat) : 0 < k → floor_mul x k < k.
Proof.
  intros Hk. unfold floor_mul.
  apply Nat.Div0.div_lt_upper_bound. nia.
Qed.

Lemma swap_length {A} (i j : nat) (a : list A) : length (swap i j a) = length a.
Proof.
  unfold swap. destruct (a !! i), (a !! j); try done.
  by rewrite !length_insert.
Qed.

Lemma swap_perm {A} (i j : nat) (a : list A) : swap i j a ≡ₚ a.
Proof.
  unfold swap.
  destruct (a !! i) as [x|] eqn:Hi; [|done].
  destruct (a !! j) as [y|] eqn:Hj; [|done].
  apply Permutation_inj. split; [by rewrite !length_insert|].
  exists (λ k, if decide (k = i) then j else if decide (k = j) then i else k).
  split.
  - intros k1 k2. repeat case_decide; lia.
  - intros k. pose proof (lookup_lt_Some _ _ _ Hi). pose proof (lookup_lt_Some _ _ _ Hj).
    rewrite !list_lookup_insert, !length_insert.
    repeat case_decide; destruct_and?; subst; try done; lia.
Qed.

Lemma shuffle_loop_perm {A} (i : nat) (a : list A) (w : World) :
  (shuffle_loop i a w).1 ≡ₚ a.
Proof.
  revert a w. induction i as [|i IH]; intros a w; simpl; [done|].
  rewrite IH. apply swap_perm.
Qed.

Lemma shuffleArray_perm {A} (array : list A) (w : World) :
  (shuffleArray array w).1 ≡ₚ array.
Proof. apply shuffle_loop_perm. Qed.

Lemma shuffleArray_length {A} (array : list A) (w : World) :
  length (shuffleArray array w).1 = length array.
Proof. apply Permutation_length, shuffleArray_perm. Qed.

(** The loop on the array object does to the heap cell what the loop on
    values does to the value. *)
Lemma shuffle_loop_ref_value {A} (i a : nat) (h : gmap nat (list A))
  (l : list A) (w : World) :
  h !! a = Some l →
  shuffle_loop_ref i a h w =
    (<[a:=(shuffle_loop i l w).1]> h, (shuffle_loop i l w).2).
Proof.
  revert h l w. induction i as [|i IH]; intros h l w Hl; simpl.
  - by rewrite insert_id.
  - unfold swap_ref. rewrite Hl.
    erewrite IH by apply lookup_insert_eq.
    by rewrite insert_insert_eq.
Qed.

(** C10: [shuffleArray] returns a new array that is a permutation of its
    argument (same length, same elements with the same multiplicities), and
    leaves its argument, like every other array of the heap, as it was. *)
Theorem shuffleArray_permutes_a_copy {A} (h : gmap nat (list A))
  (array : nat) (l : list A) (w : World) :
  h !! array = Some l →
  ∃ newArray h' w',
    shuffleArray_ref array h w = Some (newArray, h', w') ∧
    h' !! newArray = Some (shuffleArray l w).1 ∧
    (shuffleArray l w).1 ≡ₚ l ∧
    length (shuffleArray l w).1 = length l ∧
    newArray ≠ array ∧
    h' !! array = Some l ∧
    ∀ r, r ≠ newArray → h' !! r = h !! r.
Proof.
  intros Hl. unfold shuffleArray_ref, alloc. rewrite Hl.
  set (r := fresh (dom h)).
  assert (Hr : h !! r = None).
  { apply not_elem_of_dom. apply is_fresh. }
  rewrite (shuffle_loop_ref_value _ _ _ l) by apply lookup_insert_eq.
  rewrite insert_insert_eq.
  assert (r ≠ array) by congruence.
  eexists _, _, _. split; [reflexivity|].
  split; [by rewrite lookup_insert_eq|].
  split; [apply shuffleArray_perm|].
  split; [apply shuffleArray_length|].
  split; [done|].
  split; [by rewrite lookup_insert_ne|].
  intros r' Hr'. by rewrite lookup_insert_ne.
Qed.

Lemma shuffleArray_permutes_a_copy_witness :
  ∃ newArray h' w',
    shuffleArray_ref 0 {[ 0 := [1; 2; 3; 4] ]} (constant_world 50)
      = Some (newArray, h', w') ∧
    h' !! newArray = Some (shuffleArray [1; 2; 3; 4] (constant_world 50)).1 ∧
    (shuffleArray [1; 2; 3; 4] (constant_world 50)).1 ≡ₚ [1; 2; 3; 4] ∧
    length (shuffleArray [1; 2; 3; 4] (constant_world 50)).1 = 4 ∧
    newArray ≠ 0 ∧
    h' !! 0 = Some [1; 2; 3; 4] ∧
    ∀ r, r ≠ newArray → h' !! r = ({[ 0 := [1; 2; 3; 4] ]} : gmap nat (list nat)) !! r.
Proof.
  apply (shuffleArray_permutes_a_copy {[ 0 := [1; 2; 3; 4] ]} 0 [1; 2; 3; 4]).
  reflexivity.
Defined.

Example shuffleArray_example :
  (shuffleArray [1; 2; 3; 4] (constant_world 50)).1 = [1; 4; 2; 3].
Proof. reflexivity. Qed.

(** ** Records with malformed alternatives *)

Lemma present_malformed (p : Page) (q : Question) (w : World) :
  malformedAlternatives q = true → present p (Some q) w = (Some q, w).
Proof.
  unfold malformedAlternatives. intros Hq.
  destruct p; [done|]. simpl. by destruct (alternatives q).
Qed.

(** The handlers tolerate such a record: [shuffleAlternatives] returns a
    record whose alternatives are missing or not an array as it is,
    consuming no random number; so every
    transition that puts such a record on display (the start of a round,
    the advance, the step back) completes with that record on display. *)
Theorem shuffleAlternatives_passes_malformed (q : Question) (w : World) :
  malformedAlternatives q = true →
  shuffleAlternatives (Some q) w = (Some q, w) ∧
  (∀ p rest s, currentQuestion (installRound p (q :: rest) s w).1 = Some q) ∧
  (∀ p skipped s,
      activeQuestions s !! (currentQuestionIndex s + 1) = Some q →
      currentQuestion (loadNextQuestion p skipped s w).1 = Some q) ∧
  (∀ p s,
      0 < currentQuestionIndex s →
      activeQuestions s !! (currentQuestionIndex s - 1) = Some q →
      currentQuestion (handleGoBack p s w).1 = Some q).
Proof.
  intros Hq. split; [exact (present_malformed NotesQuizPage q w Hq)|].
  split; [|split].
  - intros p rest s. unfold installRound. simpl.
    rewrite (present_malformed p q w Hq). simpl.
    by destruct (feedbackTimeoutId s).
  - intros p skipped s Hnext. unfold loadNextQuestion.
    pose proof (lookup_lt_Some _ _ _ Hnext) as Hlt.
    assert (((0 <? length (activeQuestions s))
         && (currentQuestionIndex s <? length (activeQuestions s) - 1)) = true)
      as ->.
    { apply andb_true_iff. split; apply Nat.ltb_lt; lia. }
    rewrite Hnext, (present_malformed p q w Hq).
    by destruct p, skipped.
  - intros p s Hpos Hprev. unfold handleGoBack.
    apply Nat.ltb_lt in Hpos. rewrite Hpos.
    rewrite Hprev, (present_malformed p q w Hq).
    by destruct p.
Qed.

Lemma shuffleAlternatives_passes_malformed_witness :
  let q := {| number := "9"; question_text := "?"; alternatives := AltsMissing;
              pdf_filename := None; correct_answer := "A" |} in
  let w := constant_world 50 in
  shuffleAlternatives (Some q) w = (Some q, w) ∧
  (∀ p rest s, currentQuestion (installRound p (q :: rest) s w).1 = Some q) ∧
  (∀ p skipped s,
      activeQuestions s !! (currentQuestionIndex s + 1) = Some q →
      currentQuestion (loadNextQuestion p skipped s w).1 = Some q) ∧
  (∀ p s,
      0 < currentQuestionIndex s →
      activeQuestions s !! (currentQuestionIndex s - 1) = Some q →
      currentQuestion (handleGoBack p s w).1 = Some q).
Proof.
  intros q w. apply (shuffleAlternatives_passes_malformed q w). reflexivity.
Defined.

(** The render does not: with such a record on display (or on review) the
    quiz screen maps over [alternatives] and throws. *)
Lemma render_malformed (s : State) (q : Question) :
  allQuestions s ≠ [] → showQuizSetup s = false →
  malformedAlternatives q = true →
  currentQuestion s = Some q ∨
  (questionToReview s = Some q ∧ quizFinished s = false ∧
   activeQuestions s ≠ []) →
  render s = None.
Proof.
  unfold render, malformedAlternatives, alternatives_map.
  intros Hpool Hsetup Hq Hshown.
  rewrite (bool_decide_eq_false_2 _ Hpool), Hsetup.
  destruct Hshown as [Hcq|(Hrev & Hfin & Hround)].
  - unfold quizFinished. rewrite Hcq.
    rewrite (bool_decide_eq_false_2 (Some q = None)) by done.
    rewrite andb_false_r. simpl.
    by destruct (alternatives q), (questionToReview s).
  - rewrite Hfin, Hrev.
    assert ((length (activeQuestions s) =? 0) = false) as ->.
    { apply Nat.eqb_neq. by destruct (activeQuestions s). }
    rewrite andb_false_r. simpl.
    destruct (alternatives q); [done|..];
      by destruct (currentQuestion s) as [cq|]; [destruct (alternatives cq)|].
Qed.

(** With well-formed records on display and on review the render returns. *)
Lemma render_well_formed (s : State) :
  (∀ q, currentQuestion s = Some q → malformedAlternatives q = false) →
  (∀ q, questionToReview s = Some q → malformedAlternatives q = false) →
  render s ≠ None.
Proof.
  unfold render, malformedAlternatives, alternatives_map. intros Hcq Hrev.
  case_bool_decide; [done|]. destruct (_ || _); [done|].
  destruct (quizFinished s); [done|].
  destruct (currentQuestion s) as [cq|];
    [specialize (Hcq cq eq_refl); destruct (alternatives cq); try done|];
    (destruct (questionToReview s) as [r|];
     [specialize (Hrev r eq_refl); by destruct (alternatives r)|done]).
Qed.

(** C9 (a defect of the code): [shuffleAlternatives] passes a record
    without alternatives through as it is, rather than failing, and a
    round over such a record starts with the record on display on both
    pages; but the render of that state throws, where the claim has it
    that presenting such a record never crashes the round. *)
Theorem malformed_record_crashes_render :
  let q := recordWithoutAlternatives in
  let w := constant_world 50 in
  let started p :=
    (@startNewQuizRound insertion_ArraySort p "all" (initialState [q]) w).1 in
  shuffleAlternatives (Some q) w = (Some q, w) ∧
  ∀ p, showQuizSetup (started p) = false ∧
       currentQuestion (started p) = Some q ∧
       render (started p) = None.
Proof.
  intros q w started. split.
  - by apply shuffleAlternatives_passes_malformed.
  - intros p.
    assert (showQuizSetup (started p) = false ∧
            currentQuestion (started p) = Some q) as [Hsetup Hcq]
      by (by destruct p; vm_compute).
    split; [done|]. split; [done|].
    apply (render_malformed _ q); [by destruct p; vm_compute|done|done|by left].
Qed.

(** On a well-formed record the alternatives are rearranged and nothing
    else changes. *)
Lemma shuffleAlternatives_same_choices (q : Question) (w : World) :
  ∃ q', (shuffleAlternatives (Some q) w).1 = Some q' ∧ same_choices q q'.
Proof.
  unfold shuffleAlternatives, same_choices.
  destruct (alternatives q) as [alts| |raw] eqn:Halts.
  - pose proof (shuffleArray_perm alts w) as Hperm.
    destruct (shuffleArray alts w) as [shuffledAlts w1]. simpl in *.
    eexists. split; [done|]. by simpl.
  - by exists q.
  - by exists q.
Qed.

(** ** Scoring *)

(** C5: with a question on display and no outcome yet, an answer whose
    label equals the correct label up to case raises the streak by one, any
    other answer resets it to zero, and a skip leaves it as it is. *)
Theorem streak_after_answer_and_skip (alternative : Alternative) (cq : Question)
  (s : State) (w : World) :
  currentQuestion s = Some cq → answerStatus s = None →
  (isCorrectAnswer alternative cq = true ↔
     toUpperCase (label alternative) = toUpperCase (correct_answer cq)) ∧
  (isCorrectAnswer alternative cq = true →
     streak (handleAnswer alternative s w).1 = streak s + 1 ∧
     answerStatus (handleAnswer alternative s w).1 = Some Correct) ∧
  (isCorrectAnswer alternative cq = false →
     streak (handleAnswer alternative s w).1 = 0 ∧
     answerStatus (handleAnswer alternative s w).1 = Some Incorrect) ∧
  streak (handleSkip s w).1 = streak s ∧
  answerStatus (handleSkip s w).1 = Some Skipped.
Proof.
  intros Hcq Hstatus.
  split; [unfold isCorrectAnswer; apply bool_decide_eq_true|].
  unfold handleAnswer, handleSkip. rewrite Hcq, Hstatus.
  split; [by intros ->|]. split; [by intros ->|].
  unfold clearFeedbackAndTimeout. by destruct (feedbackTimeoutId s).
Qed.

Lemma streak_after_answer_and_skip_witness :
  let cq := sampleQuestion "1" "A.pdf" in
  let s := setStreak 4 (setCurrentQuestion (Some cq) (initialState [cq])) in
  let w := constant_world 50 in
  (isCorrectAnswer answerB cq = true ↔
     toUpperCase (label answerB) = toUpperCase (correct_answer cq)) ∧
  (isCorrectAnswer answerB cq = true →
     streak (handleAnswer answerB s w).1 = streak s + 1 ∧
     answerStatus (handleAnswer answerB s w).1 = Some Correct) ∧
  (isCorrectAnswer answerB cq = false →
     streak (handleAnswer answerB s w).1 = 0 ∧
     answerStatus (handleAnswer answerB s w).1 = Some Incorrect) ∧
  streak (handleSkip s w).1 = streak s ∧
  answerStatus (handleSkip s w).1 = Some Skipped.
Proof.
  intros cq s w.
  apply (streak_after_answer_and_skip answerB cq s w); reflexivity.
Defined.

Example streak_examples :
  let cq := sampleQuestion "1" "A.pdf" in
  let s := setStreak 4 (setCurrentQuestion (Some cq) (initialState [cq])) in
  let w := constant_world 50 in
  streak (handleAnswer answerB s w).1 = 5 ∧
  streak (handleAnswer answerA s w).1 = 0 ∧
  streak (handleSkip s w).1 = 4.
Proof. by vm_compute. Qed.

(** ** Going back *)

Lemma clearFeedbackAndTimeout_fields (s : State) :
  clearFeedbackAndTimeout s =
    setSelectedAlternativeLabel None
      (setAnswerStatus None (setFeedbackTimeoutId None s)).
Proof.
  unfold clearFeedbackAndTimeout.
  destruct (feedbackTimeoutId s) eqn:Ht; [done|].
  destruct s; simpl in *; by subst.
Qed.

Lemma handleGoBack_at_zero (p : Page) (s : State) (w : World) :
  currentQuestionIndex s = 0 → handleGoBack p s w = (s, w).
Proof. intros H0. unfold handleGoBack. by rewrite H0. Qed.

Lemma handleGoBack_fields (p : Page) (s : State) (w : World) :
  0 < currentQuestionIndex s →
  currentQuestionIndex (handleGoBack p s w).1 = currentQuestionIndex s - 1 ∧
  answerStatus (handleGoBack p s w).1 = None ∧
  selectedAlternativeLabel (handleGoBack p s w).1 = None ∧
  feedbackTimeoutId (handleGoBack p s w).1 = None ∧
  streak (handleGoBack p s w).1 = streak s ∧
  incorrectlyAnsweredQuestions (handleGoBack p s w).1
    = incorrectlyAnsweredQuestions s ∧
  answerHistory (handleGoBack p s w).1 = answerHistory s ∧
  activeQuestions (handleGoBack p s w).1 = activeQuestions s ∧
  allQuestions (handleGoBack p s w).1 = allQuestions s.
Proof.
  intros Hpos. unfold handleGoBack. apply Nat.ltb_lt in Hpos. rewrite Hpos.
  rewrite clearFeedbackAndTimeout_fields.
  destruct (present p _ w) as [q w1]. by destruct p.
Qed.

(** C2, as the code has it: [handleGoBack] is accepted whenever the cursor
    is positive; that no outcome be on display is required by the Back
    button, which is disabled otherwise, not by the handler.  When accepted
    it takes exactly one from the cursor, clears the outcome on display, and
    leaves the streak, the mistakes, the answer history and the questions of
    the round as they were; at cursor zero it changes nothing. *)
Theorem handleGoBack_effect (p : Page) (s : State) (w : World) :
  (backDisabled s = false ↔
     0 < currentQuestionIndex s ∧ answerStatus s = None) ∧
  (currentQuestionIndex s = 0 → handleGoBack p s w = (s, w)) ∧
  (0 < currentQuestionIndex s →
     currentQuestionIndex (handleGoBack p s w).1 = currentQuestionIndex s - 1 ∧
     answerStatus (handleGoBack p s w).1 = None ∧
     selectedAlternativeLabel (handleGoBack p s w).1 = None ∧
     feedbackTimeoutId (handleGoBack p s w).1 = None ∧
     streak (handleGoBack p s w).1 = streak s ∧
     incorrectlyAnsweredQuestions (handleGoBack p s w).1
       = incorrectlyAnsweredQuestions s ∧
     answerHistory (handleGoBack p s w).1 = answerHistory s ∧
     activeQuestions (handleGoBack p s w).1 = activeQuestions s ∧
     allQuestions (handleGoBack p s w).1 = allQuestions s).
Proof.
  split; [|split].
  - unfold backDisabled. rewrite orb_false_iff, Nat.eqb_neq.
    rewrite bool_decide_eq_false. split.
    + intros [? Hst]. split; [lia|]. by destruct (answerStatus s); [destruct Hst|].
    + intros [? ->]. split; [lia|]. by intros [].
  - apply handleGoBack_at_zero.
  - apply handleGoBack_fields.
Qed.

(** The handler goes back while an outcome is on display: after a wrong
    answer to the second question of a round, and before the deferred
    advance, [handleGoBack] moves the cursor from 1 to 0. *)
Lemma handleGoBack_accepted_with_pending_outcome :
  let s := stateWithPendingOutcome.1 in
  let w := stateWithPendingOutcome.2 in
  ¬ (handleGoBack NotesQuizPage s w ≠ (s, w) →
     0 < currentQuestionIndex s ∧ answerStatus s = None).
Proof.
  intros s w Hguard.
  assert (Hpending : answerStatus s = Some Incorrect) by (by vm_compute).
  destruct Hguard as [_ Hnone].
  - intros Heq. apply (f_equal (λ x, currentQuestionIndex x.1)) in Heq.
    by vm_compute in Heq.
  - by rewrite Hpending in Hnone.
Qed.

Example handleGoBack_with_pending_outcome_example :
  let s := stateWithPendingOutcome.1 in
  let w := stateWithPendingOutcome.2 in
  currentQuestionIndex s = 1 ∧ answerStatus s = Some Incorrect ∧
  backDisabled s = true ∧
  currentQuestionIndex (handleGoBack NotesQuizPage s w).1 = 0 ∧
  answerStatus (handleGoBack NotesQuizPage s w).1 = None.
Proof. by vm_compute. Qed.

(** ** Calls out of turn *)

Lemma installRound_cleared (p : Page) (qs : list Question) (s : State)
  (w : World) :
  answerStatus (installRound p qs s w).1 = None ∧
  selectedAlternativeLabel (installRound p qs s w).1 = None ∧
  feedbackTimeoutId (installRound p qs s w).1 = None ∧
  incorrectlyAnsweredQuestions (installRound p qs s w).1 = [] ∧
  streak (installRound p qs s w).1 = 0 ∧
  currentQuestionIndex (installRound p qs s w).1 = 0 ∧
  activeQuestions (installRound p qs s w).1 = qs ∧
  allQuestions (installRound p qs s w).1 = allQuestions s ∧
  numQuestions (installRound p qs s w).1 = numQuestions s.
Proof.
  unfold installRound.
  destruct (0 <? length qs); [destruct (present p _ w) as [q w']|];
    simpl; by destruct (feedbackTimeoutId s) eqn:Ht.
Qed.

(** [startNewQuizRound] ends in [installRound], except on the notes-quiz
    page when the pool is empty. *)
Lemma startNewQuizRound_cases `{ArraySort} (p : Page) (session : string)
  (s : State) (w : World) :
  (∃ qs s0 w0, startNewQuizRound p session s w = installRound p qs s0 w0 ∧
               allQuestions s0 = allQuestions s ∧
               numQuestions s0 = numQuestions s) ∨
  (p = NotesQuizPage ∧ allQuestions s = [] ∧
   startNewQuizRound p session s w =
     (setShowQuizSetup true (setCurrentQuestion None (setActiveQuestions [] s)),
      w)).
Proof.
  destruct p; simpl.
  - left. unfold Home_startNewQuizRound. simpl.
    destruct (Home_selectQuestions _ _ _) as [qs w1].
    destruct (_ && _); [destruct (getRandomQuestions _ _ _)|]; by eexists _, _, _.
  - unfold NotesQuizPage_startNewQuizRound. case_decide as Hpool; [by right|].
    left. destruct (NotesQuizPage_selectQuestions _ _ _) as [qs w1].
    destruct (_ && _); [destruct (sort_random _ _)|]; by eexists _, _, _.
Qed.

Lemma loadNextQuestion_cleared (p : Page) (skipped : bool) (s : State)
  (w : World) :
  answerStatus (loadNextQuestion p skipped s w).1 = None ∧
  selectedAlternativeLabel (loadNextQuestion p skipped s w).1 = None ∧
  feedbackTimeoutId (loadNextQuestion p skipped s w).1 = None ∧
  incorrectlyAnsweredQuestions (loadNextQuestion p skipped s w).1
    = incorrectlyAnsweredQuestions s.
Proof.
  unfold loadNextQuestion. rewrite clearFeedbackAndTimeout_fields.
  destruct (_ && _); [|done].
  destruct (present p _ w) as [q w1]. by destruct p, skipped.
Qed.

Lemma step_feedbackCleared `{ArraySort} (p : Page) (e : Event) (s : State)
  (w : World) :
  feedbackCleared s → feedbackCleared (step p e s w).1.
Proof.
  intros Hs. destruct e; simpl.
  - destruct (startNewQuizRound_cases p session s w)
      as [(qs & s0 & w0 & -> & _)|(_ & _ & ->)].
    + intros _ _.
      by pose proof (installRound_cleared p qs s0 w0) as (? & ? & ? & _).
    + intros Hlen. simpl in Hlen. lia.
  - unfold handleAnswer.
    destruct (currentQuestion s) as [cq|] eqn:Hcq; [|done].
    destruct (answerStatus s) eqn:Hst; [done|].
    intros _ Hnone. exfalso. revert Hnone.
    by destruct (isCorrectAnswer _ _); simpl; rewrite Hcq.
  - unfold handleSkip.
    destruct (currentQuestion s) as [cq|] eqn:Hcq; [|done].
    destruct (answerStatus s) eqn:Hst; [done|].
    intros _ Hnone. exfalso. revert Hnone.
    rewrite clearFeedbackAndTimeout_fields. simpl. by rewrite Hcq.
  - destruct (decide (currentQuestionIndex s = 0)) as [H0|Hpos].
    + by rewrite (handleGoBack_at_zero p s w H0).
    + destruct (handleGoBack_fields p s w) as (_ & ? & ? & ? & _); [lia|]. done.
  - intros _ _. unfold feedbackTimeout.
    pose proof (loadNextQuestion_cleared p skipped s w) as (? & ? & _).
    by destruct (loadNextQuestion p skipped s w).
  - destruct (incorrectlyAnsweredQuestions s !! i) as [q|]; [|done].
    destruct (alternatives q) as [alts| |raw];
      [destruct (shuffleArray alts w)|..]; exact Hs.
  - done.
  - done.
  - done.
  - destruct p; [|done]. intros Hlen. simpl in Hlen. lia.
Qed.

Lemma reachable_feedbackCleared `{ArraySort} (p : Page) (s : State) :
  reachable p s → feedbackCleared s.
Proof.
  induction 1 as [pool|s w e _ IH].
  - intros Hlen. simpl in Hlen. lia.
  - by apply step_feedbackCleared.
Qed.

Lemma reachable_run `{ArraySort} (p : Page) (events : list Event) (s : State)
  (w : World) :
  reachable p s → reachable p (run p events s w).1.
Proof.
  revert s w. induction events as [|e events IH]; intros s w Hs; simpl; [done|].
  pose proof (reachable_step p s w e Hs) as Hstep.
  destruct (step p e s w) as [s1 w1]. by apply IH.
Qed.

(** C3: in every state that the page can reach, a call out of turn changes
    nothing, neither in the state nor in the world, and is a plain return:
    an answer or a skip when no question is on display or an outcome is
    already on display, a step back at cursor zero, and an advance (called
    directly or by the timer) when the round is finished. *)
Theorem invalid_calls_change_nothing `{ArraySort} (p : Page) (s : State)
  (w : World) :
  reachable p s →
  (currentQuestion s = None ∨ answerStatus s ≠ None →
     (∀ alternative, handleAnswer alternative s w = (s, w)) ∧
     handleSkip s w = (s, w)) ∧
  (currentQuestionIndex s = 0 → handleGoBack p s w = (s, w)) ∧
  (quizFinished s = true →
     ∀ skipped, loadNextQuestion p skipped s w = (s, w) ∧
                feedbackTimeout p skipped s w = (s, w)).
Proof.
  intros Hreach. split; [|split].
  - unfold handleAnswer, handleSkip. intros [->|Hst]; [done|].
    destruct (answerStatus s); [|done]. by destruct (currentQuestion s).
  - apply handleGoBack_at_zero.
  - unfold quizFinished. rewrite !andb_true_iff, bool_decide_eq_true.
    rewrite Nat.ltb_lt, Nat.leb_le. intros [[[Hcq Hlen] Hidx] _] skipped.
    destruct (reachable_feedbackCleared p s Hreach Hlen Hcq)
      as (Hst & Hsel & Htime).
    assert (loadNextQuestion p skipped s w = (s, w)) as Hload.
    { unfold loadNextQuestion.
      assert ((currentQuestionIndex s <? length (activeQuestions s) - 1) = false)
        as -> by (apply Nat.ltb_ge; lia).
      rewrite andb_false_r, clearFeedbackAndTimeout_fields.
      destruct s; simpl in *; by subst. }
    split; [done|]. unfold feedbackTimeout. rewrite Hload.
    destruct s; simpl in *; by subst.
Qed.

Lemma invalid_calls_change_nothing_witness :
  let s := finishedState.1 in
  let w := finishedState.2 in
  (currentQuestion s = None ∨ answerStatus s ≠ None →
     (∀ alternative, handleAnswer alternative s w = (s, w)) ∧
     handleSkip s w = (s, w)) ∧
  (currentQuestionIndex s = 0 → handleGoBack NotesQuizPage s w = (s, w)) ∧
  (quizFinished s = true →
     ∀ skipped, loadNextQuestion NotesQuizPage skipped s w = (s, w) ∧
                feedbackTimeout NotesQuizPage skipped s w = (s, w)).
Proof.
  intros s w.
  apply (@invalid_calls_change_nothing insertion_ArraySort NotesQuizPage s w).
  apply reachable_run, reachable_init.
Defined.

Example finishedState_example :
  quizFinished finishedState.1 = true ∧
  currentQuestionIndex finishedState.1 = 0 ∧
  streak finishedState.1 = 0 ∧
  number <$> incorrectlyAnsweredQuestions finishedState.1 = ["1"%string].
Proof. by vm_compute. Qed.

(** ** Mistakes *)

Lemma recordMistake_cases (cq : Question) (prev : list Question) :
  ((number cq ∈ (number <$> prev)) ∧ (recordMistake cq prev = prev)) ∨
  ((number cq ∉ (number <$> prev)) ∧ (recordMistake cq prev = prev ++ [cq])).
Proof.
  unfold recordMistake.
  destruct (find _ prev) as [q|] eqn:Hfind.
  - left. split; [|done]. apply find_some in Hfind as [Hin Heq].
    apply bool_decide_eq_true in Heq. rewrite <-Heq.
    apply list_elem_of_fmap_2. by apply list_elem_of_In.
  - right. split; [|done]. intros (q & Hq & Hin)%list_elem_of_fmap.
    apply list_elem_of_In in Hin.
    pose proof (find_none _ _ Hfind q Hin) as Hne. simpl in Hne.
    apply bool_decide_eq_false in Hne. congruence.
Qed.

Lemma recordMistake_NoDup (cq : Question) (prev : list Question) :
  NoDup (number <$> prev) → NoDup (number <$> recordMistake cq prev).
Proof.
  intros Hnd. destruct (recordMistake_cases cq prev) as [[_ ->]|[Hnot ->]];
    [done|].
  rewrite fmap_app. apply NoDup_app. split; [done|].
  split; [|apply NoDup_singleton].
  intros x Hx ->%list_elem_of_singleton. done.
Qed.

Lemma recordMistake_prefix (cq : Question) (prev : list Question) :
  prev `prefix_of` recordMistake cq prev.
Proof.
  destruct (recordMistake_cases cq prev) as [[_ ->]|[_ ->]]; [done|].
  by apply prefix_app_r.
Qed.

(** What one event within the round does to the mistakes. *)
Lemma step_mistakes `{ArraySort} (p : Page) (e : Event) (s : State) (w : World) :
  in_round e = true →
  incorrectlyAnsweredQuestions (step p e s w).1
    = incorrectlyAnsweredQuestions s ∨
  ∃ cq, incorrectlyAnsweredQuestions (step p e s w).1
          = recordMistake cq (incorrectlyAnsweredQuestions s).
Proof.
  intros He. destruct e; try done; simpl.
  - unfold handleAnswer. destruct (currentQuestion s) as [cq|]; [|by left].
    destruct (answerStatus s); [by left|].
    destruct (isCorrectAnswer alternative cq); [by left|].
    right. by exists cq.
  - left. unfold handleSkip. destruct (currentQuestion s); [|done].
    destruct (answerStatus s); [done|].
    by rewrite clearFeedbackAndTimeout_fields.
  - left. destruct (decide (currentQuestionIndex s = 0)) as [H0|Hpos].
    + by rewrite (handleGoBack_at_zero p s w H0).
    + destruct (handleGoBack_fields p s w) as (_ & _ & _ & _ & _ & ? & _);
        [lia|done].
  - left. unfold feedbackTimeout.
    pose proof (loadNextQuestion_cleared p skipped s w) as (_ & _ & _ & ?).
    by destruct (loadNextQuestion p skipped s w).
  - left. destruct (incorrectlyAnsweredQuestions s !! i) as [q|] eqn:Hq; [|done].
    by destruct (alternatives q) as [alts| |raw];
      [destruct (shuffleArray alts w)|..].
  - by left.
  - by left.
  - by left.
  - left. by destruct p.
Qed.

(** A new round starts without mistakes, so the mistakes of every
    reachable state carry distinct numbers. *)
Lemma reachable_mistakes_NoDup `{ArraySort} (p : Page) (s : State) :
  reachable p s → NoDup (number <$> incorrectlyAnsweredQuestions s).
Proof.
  induction 1 as [pool|s w e _ IH]; [constructor|].
  destruct (in_round e) eqn:He.
  - destruct (step_mistakes p e s w He) as [->|[cq ->]]; [done|].
    by apply recordMistake_NoDup.
  - destruct e; try done. simpl.
    destruct (startNewQuizRound_cases p session s w)
      as [(qs & s0 & w0 & -> & _)|(_ & _ & ->)]; [|done].
    destruct (installRound_cleared p qs s0 w0) as (_ & _ & _ & -> & _).
    constructor.
Qed.

(** C6: during a round (any answers, skips, advances, steps back and
    reviews, in any order) no two mistakes carry the same question number,
    and the mistakes recorded so far stay, in their order, at the front of
    the list: a wrong answer adds the question at the end when its number is
    not listed yet, and otherwise changes nothing. *)
Theorem mistakes_listed_once `{ArraySort} (p : Page) (events : list Event)
  (s : State) (w : World) :
  forallb in_round events = true →
  NoDup (number <$> incorrectlyAnsweredQuestions s) →
  NoDup (number <$> incorrectlyAnsweredQuestions (run p events s w).1) ∧
  incorrectlyAnsweredQuestions s
    `prefix_of` incorrectlyAnsweredQuestions (run p events s w).1 ∧
  (∀ alternative cq,
      currentQuestion s = Some cq → answerStatus s = None →
      isCorrectAnswer alternative cq = false →
      incorrectlyAnsweredQuestions (handleAnswer alternative s w).1
        = if decide (number cq ∈ number <$> incorrectlyAnsweredQuestions s)
          then incorrectlyAnsweredQuestions s
          else incorrectlyAnsweredQuestions s ++ [cq]).
Proof.
  intros Hev Hnd. split; [|split].
  - revert s w Hnd. induction events as [|e events IH]; intros s w Hnd; [done|].
    simpl in *. apply andb_true_iff in Hev as [He Hev].
    pose proof (step_mistakes p e s w He) as Hstep.
    destruct (step p e s w) as [s1 w1]. apply (IH Hev). simpl in Hstep.
    destruct Hstep as [->|[cq ->]]; [done|]. by apply recordMistake_NoDup.
  - clear Hnd. revert s w. induction events as [|e events IH]; intros s w; [done|].
    simpl in *. apply andb_true_iff in Hev as [He Hev].
    pose proof (step_mistakes p e s w He) as Hstep.
    destruct (step p e s w) as [s1 w1]. simpl in Hstep.
    etrans; [|apply (IH Hev)].
    destruct Hstep as [->|[cq ->]]; [done|]. apply recordMistake_prefix.
  - intros alternative cq Hcq Hst Hwrong. unfold handleAnswer.
    rewrite Hcq, Hst, Hwrong. simpl.
    destruct (recordMistake_cases cq (incorrectlyAnsweredQuestions s))
      as [[Hin ->]|[Hnot ->]]; by case_decide.
Qed.

Lemma mistakes_listed_once_witness :
  let s := startedState.1 in
  let w := startedState.2 in
  NoDup (number <$> incorrectlyAnsweredQuestions
                      (@run insertion_ArraySort NotesQuizPage revisitEvents s w).1) ∧
  incorrectlyAnsweredQuestions s
    `prefix_of` incorrectlyAnsweredQuestions
                  (@run insertion_ArraySort NotesQuizPage revisitEvents s w).1 ∧
  (∀ alternative cq,
      currentQuestion s = Some cq → answerStatus s = None →
      isCorrectAnswer alternative cq = false →
      incorrectlyAnsweredQuestions (handleAnswer alternative s w).1
        = if decide (number cq ∈ number <$> incorrectlyAnsweredQuestions s)
          then incorrectlyAnsweredQuestions s
          else incorrectlyAnsweredQuestions s ++ [cq]).
Proof.
  intros s w.
  apply (@mistakes_listed_once insertion_ArraySort NotesQuizPage revisitEvents s w).
  - reflexivity.
  - vm_compute. constructor.
Defined.

Example revisit_example :
  let s := (@run insertion_ArraySort NotesQuizPage revisitEvents
              startedState.1 startedState.2).1 in
  number <$> activeQuestions s = ["1"; "2"; "3"; "8"]%string ∧
  currentQuestionIndex s = 1 ∧
  number <$> incorrectlyAnsweredQuestions s = ["1"; "2"]%string.
Proof. by vm_compute. Qed.

(** ** Going back and advancing again *)

Lemma same_choices_refl (q : Question) : same_choices q q.
Proof. unfold same_choices. by destruct (alternatives q). Qed.

Lemma same_choices_common (q a b : Question) :
  same_choices q a → same_choices q b → same_choices a b.
Proof.
  unfold same_choices.
  intros (-> & -> & -> & -> & Ha) (-> & -> & -> & -> & Hb).
  repeat split; try done.
  destruct (alternatives q), (alternatives a), (alternatives b);
    try done; try congruence.
  by rewrite Ha, Hb.
Qed.

Lemma present_same_choices (p : Page) (q : Question) (w : World) :
  ∃ q', (present p (Some q) w).1 = Some q' ∧ same_choices q q'.
Proof.
  destruct p; simpl.
  - exists q. split; [done|apply same_choices_refl].
  - apply shuffleAlternatives_same_choices.
Qed.

Lemma loadNextQuestion_next (p : Page) (skipped : bool) (s : State) (w : World)
  (q : Question) :
  activeQuestions s !! (currentQuestionIndex s + 1) = Some q →
  currentQuestionIndex (loadNextQuestion p skipped s w).1
    = currentQuestionIndex s + 1 ∧
  currentQuestion (loadNextQuestion p skipped s w).1
    = (present p (Some q) w).1 ∧
  activeQuestions (loadNextQuestion p skipped s w).1 = activeQuestions s.
Proof.
  intros Hnext. unfold loadNextQuestion.
  pose proof (lookup_lt_Some _ _ _ Hnext) as Hlt.
  assert (((0 <? length (activeQuestions s))
       && (currentQuestionIndex s <? length (activeQuestions s) - 1)) = true)
    as ->.
  { apply andb_true_iff. split; apply Nat.ltb_lt; lia. }
  rewrite Hnext, clearFeedbackAndTimeout_fields.
  destruct (present p (Some q) w) as [q' w1]. by destruct p, skipped.
Qed.

Lemma handleGoBack_previous (p : Page) (s : State) (w : World) (q : Question) :
  0 < currentQuestionIndex s →
  activeQuestions s !! (currentQuestionIndex s - 1) = Some q →
  currentQuestion (handleGoBack p s w).1 = (present p (Some q) w).1.
Proof.
  intros Hpos Hprev. unfold handleGoBack.
  apply Nat.ltb_lt in Hpos. rewrite Hpos, Hprev.
  destruct (present p (Some q) w) as [q' w1]. by destruct p.
Qed.

(** C8: in a round in progress, at a positive cursor with no outcome on
    display, a step back followed at once by an advance leads to the same
    cursor, and the question then on display is the one that was on display
    before, with the same alternatives up to their order. *)
Theorem goBack_then_advance (p : Page) (s : State) (w : World) :
  activeRound s → 0 < currentQuestionIndex s → answerStatus s = None →
  let back := handleGoBack p s w in
  let again := loadNextQuestion p false back.1 back.2 in
  currentQuestionIndex again.1 = currentQuestionIndex s ∧
  activeQuestions again.1 = activeQuestions s ∧
  ∃ cq cq', currentQuestion s = Some cq ∧
            currentQuestion again.1 = Some cq' ∧
            same_choices cq cq'.
Proof.
  intros (q & cq & Hq & Hcq & Hsame) Hpos _. simpl.
  destruct (handleGoBack_fields p s w Hpos)
    as (Hidx & _ & _ & _ & _ & _ & _ & Hactive & _).
  destruct (handleGoBack p s w) as [s1 w1]. simpl in *.
  assert (Hnext : activeQuestions s1 !! (currentQuestionIndex s1 + 1) = Some q).
  { rewrite Hactive, Hidx. by replace (currentQuestionIndex s - 1 + 1)
      with (currentQuestionIndex s) by lia. }
  destruct (loadNextQuestion_next p false s1 w1 q Hnext) as (-> & -> & ->).
  split; [lia|]. split; [done|].
  destruct (present_same_choices p q w1) as (cq' & -> & Hsame').
  exists cq, cq'. split; [done|]. split; [done|].
  by apply (same_choices_common q).
Qed.

Lemma goBack_then_advance_witness :
  let s := secondQuestionState.1 in
  let w := secondQuestionState.2 in
  let back := handleGoBack NotesQuizPage s w in
  let again := loadNextQuestion NotesQuizPage false back.1 back.2 in
  currentQuestionIndex again.1 = currentQuestionIndex s ∧
  activeQuestions again.1 = activeQuestions s ∧
  ∃ cq cq', currentQuestion s = Some cq ∧
            currentQuestion again.1 = Some cq' ∧
            same_choices cq cq'.
Proof.
  intros s w.
  apply (goBack_then_advance NotesQuizPage s w).
  - eexists _, _. split; [by vm_compute|]. split; [by vm_compute|].
    repeat split. apply (bool_decide_unpack _). by vm_compute.
  - vm_compute. lia.
  - reflexivity.
Defined.

(** A round in progress stays in progress, or ends, under the events
    within the round. *)
Lemma installRound_activeRound (p : Page) (qs : list Question) (s : State)
  (w : World) :
  qs ≠ [] → activeRound (installRound p qs s w).1.
Proof.
  intros Hqs. destruct qs as [|q qs]; [done|].
  unfold installRound, activeRound. simpl.
  destruct (present_same_choices p q w) as (q' & Hq' & Hsame).
  destruct (present p (Some q) w) as [r w1]. simpl in *. subst r.
  exists q, q'. by destruct (feedbackTimeoutId s) eqn:Ht.
Qed.

Lemma step_activeRound `{ArraySort} (p : Page) (e : Event) (s : State)
  (w : World) :
  in_round e = true → e ≠ EvSessionSelector → activeRound s →
  activeRound (step p e s w).1 ∨ quizFinished (step p e s w).1 = true
  ∨ showQuizSetup s = true.
Proof.
  intros He Hsel (q & cq & Hq & Hcq & Hsame).
  pose proof (lookup_lt_Some _ _ _ Hq) as Hlt.
  destruct e; try done; simpl.
  - left. unfold handleAnswer. rewrite Hcq.
    destruct (answerStatus s); [by exists q, cq|].
    exists q, cq. by destruct (isCorrectAnswer alternative cq).
  - left. unfold handleSkip. rewrite Hcq.
    destruct (answerStatus s); [by exists q, cq|].
    rewrite clearFeedbackAndTimeout_fields. by exists q, cq.
  - left. destruct (decide (currentQuestionIndex s = 0)) as [H0|Hpos].
    + rewrite (handleGoBack_at_zero p s w H0). by exists q, cq.
    + destruct (lookup_lt_is_Some_2 (activeQuestions s)
                  (currentQuestionIndex s - 1)) as [q0 Hq0]; [lia|].
      destruct (handleGoBack_fields p s w)
        as (Hidx & _ & _ & _ & _ & _ & _ & Hactive & _); [lia|].
      pose proof (handleGoBack_previous p s w q0) as Hprev.
      destruct (present_same_choices p q0 w) as (q0' & Hq0' & Hsame0).
      exists q0, q0'. rewrite Hactive, Hidx, Hprev, Hq0' by (done || lia). done.
  - unfold feedbackTimeout.
    destruct (decide (currentQuestionIndex s + 1 < length (activeQuestions s)))
      as [Hin|Hout].
    + left. destruct (lookup_lt_is_Some_2 (activeQuestions s)
                        (currentQuestionIndex s + 1)) as [q1 Hq1]; [lia|].
      destruct (loadNextQuestion_next p skipped s w q1 Hq1) as (Hi & Hc & Ha).
      destruct (present_same_choices p q1 w) as (q1' & Hq1' & Hsame1).
      destruct (loadNextQuestion p skipped s w) as [s1 w1]. simpl in *.
      exists q1, q1'. simpl. by rewrite Ha, Hi, Hc, Hq1'.
    + destruct (showQuizSetup s) eqn:Hshow; [by right; right|].
      right. left. unfold loadNextQuestion.
      assert ((currentQuestionIndex s <? length (activeQuestions s) - 1) = false)
        as -> by (apply Nat.ltb_ge; lia).
      rewrite andb_false_r, clearFeedbackAndTimeout_fields.
      unfold quizFinished. simpl. rewrite Hshow.
      rewrite !andb_true_iff, Nat.ltb_lt, Nat.leb_le.
      repeat split; try done; lia.
  - left. destruct (incorrectlyAnsweredQuestions s !! i) as [r|]; [|by exists q, cq].
    destruct (alternatives r) as [alts| |raw];
      [destruct (shuffleArray alts w)|..]; by exists q, cq.
  - left. by exists q, cq.
  - left. by exists q, cq.
  - left. by exists q, cq.
Qed.

(** ** Objects as dictionaries *)

Lemma obj_get_set_eq {V} (k : string) (v : V) (o : JsObject V) :
  obj_get k (obj_set k v o) = Some v.
Proof.
  induction o as [|[k' v'] o IH]; simpl.
  - by rewrite decide_True.
  - case_decide; simpl; [by rewrite decide_True|by rewrite decide_False].
Qed.

Lemma obj_get_set_ne {V} (k k' : string) (v : V) (o : JsObject V) :
  k ≠ k' → obj_get k' (obj_set k v o) = obj_get k' o.
Proof.
  intros Hne. induction o as [|[k0 v0] o IH]; simpl.
  - by rewrite decide_False.
  - case_decide; simpl; [subst; by rewrite !decide_False|].
    by rewrite IH.
Qed.

Lemma obj_get_None {V} (k : string) (o : JsObject V) :
  obj_get k o = None ↔ k ∉ o.*1.
Proof.
  induction o as [|[k' v'] o IH]; simpl.
  - split; [intros _; apply not_elem_of_nil|done].
  - rewrite not_elem_of_cons. case_decide as Hk.
    + split; [done|]. by intros [? _].
    + rewrite IH. split; [by intros ?|by intros [_ ?]].
Qed.

Lemma obj_get_elem {V} (k : string) (v : V) (o : JsObject V) :
  NoDup o.*1 → (k, v) ∈ o ↔ obj_get k o = Some v.
Proof.
  induction o as [|[k' v'] o IH]; simpl; intros Hnd.
  - split; [by intros ?%not_elem_of_nil|done].
  - apply NoDup_cons in Hnd as [Hk' Hnd]. rewrite elem_of_cons.
    case_decide as Hk; [subst k'|].
    + split.
      * intros [[= ->]|Hin]; [done|].
        destruct Hk'. apply list_elem_of_fmap. by exists (k, v).
      * intros [= ->]. by left.
    + rewrite <-(IH Hnd). split; [|by right].
      intros [[= -> ->]|Hin]; done.
Qed.

Lemma obj_set_keys {V} (k : string) (v : V) (o : JsObject V) :
  (obj_set k v o).*1 = if obj_get k o is Some _ then o.*1 else o.*1 ++ [k].
Proof.
  induction o as [|[k' v'] o IH]; [done|].
  simpl obj_set. simpl obj_get.
  case_decide; [by subst|].
  rewrite !fmap_cons, IH. by destruct (obj_get k o).
Qed.

Lemma obj_set_NoDup {V} (k : string) (v : V) (o : JsObject V) :
  NoDup o.*1 → NoDup (obj_set k v o).*1.
Proof.
  intros Hnd. rewrite obj_set_keys.
  destruct (obj_get k o) eqn:Hk; [done|].
  apply obj_get_None in Hk. apply NoDup_app. split; [done|].
  split; [|apply NoDup_singleton].
  by intros x Hx ->%list_elem_of_singleton.
Qed.

Lemma insert_index_perm {V} (n : N) (kv : string * V)
  (l : list (N * (string * V))) :
  insert_index n kv l ≡ₚ (n, kv) :: l.
Proof.
  induction l as [|[m kv'] l IH]; simpl; [done|].
  destruct (n <=? m)%N; [done|]. rewrite IH. apply Permutation_swap.
Qed.

Lemma index_properties_perm {V} (o : JsObject V) :
  (index_properties o).*2 ≡ₚ filter (λ kv, ¬ array_index kv.1 = None) o.
Proof.
  induction o as [|[k v] o IH]; [done|].
  rewrite filter_cons. simpl.
  destruct (array_index k) as [n|] eqn:Hk.
  - rewrite decide_True by done.
    rewrite insert_index_perm, fmap_cons. simpl. by rewrite IH.
  - rewrite decide_False; [done|]. by intros [].
Qed.

(** [Object.values] and [Object.keys] list every own property once. *)
Lemma own_properties_perm {V} (o : JsObject V) : own_properties o ≡ₚ o.
Proof.
  unfold own_properties, name_properties.
  rewrite index_properties_perm, Permutation_app_comm.
  apply filter_app_complement.
Qed.

Example Object_values_order :
  Object_values [("b", 1); ("10", 2); ("a", 3); ("9", 4); ("07", 5)]%string
    = [4; 2; 1; 3; 5].
Proof. reflexivity. Qed.

(** ** The groups of [getSampledQuestions] *)

Lemma filter_topic_absent (k : string) (qs : list Question) :
  k ∉ topic <$> qs → filter (λ q, topic q = k) qs = [].
Proof.
  intros Hk. induction qs as [|q qs IH]; [done|].
  rewrite fmap_cons, not_elem_of_cons in Hk. destruct Hk as [Hne Hk].
  rewrite filter_cons_False by done. by apply IH.
Qed.

Lemma add_to_session_grouped (qs : list Question) (q : Question)
  (o : JsObject (list Question)) :
  grouped qs o → grouped (qs ++ [q]) (add_to_session o q).
Proof.
  intros [Hnd Hget]. unfold add_to_session. fold (topic q).
  set (key := topic q).
  assert (Hnew : ∃ o1, NoDup o1.*1 ∧
            obj_get key o1 = Some (filter (λ q, topic q = key) qs) ∧
            (∀ k, k ≠ key → obj_get k o1 = obj_get k o) ∧
            o1 = match obj_get key o with
                 | None => obj_set key [] o
                 | Some _ => o
                 end).
  { pose proof (Hget key) as Hkey.
    destruct (obj_get key o) as [l|] eqn:Hl.
    - exists o. case_decide; [|done]. rewrite Hl. by repeat split.
    - exists (obj_set key [] o). case_decide; [done|].
      rewrite filter_topic_absent by done.
      repeat split; [by apply obj_set_NoDup|apply obj_get_set_eq|].
      intros k Hk. by apply obj_get_set_ne. }
  destruct Hnew as (o1 & Hnd1 & Hkey1 & Hother1 & <-).
  rewrite Hkey1. split; [by apply obj_set_NoDup|].
  intros k. rewrite fmap_app, filter_app. simpl.
  destruct (decide (k = key)) as [->|Hk].
  - rewrite obj_get_set_eq, decide_True by set_solver.
    by rewrite filter_cons_True, filter_nil.
  - rewrite obj_get_set_ne, Hother1, Hget by done.
    rewrite filter_cons_False, filter_nil, app_nil_r by done.
    apply decide_ext. rewrite elem_of_app, list_elem_of_singleton. tauto.
Qed.

Lemma group_by_session_grouped (pool : list Question) :
  grouped pool (group_by_session pool).
Proof.
  unfold group_by_session.
  assert (Hgen : ∀ rest qs o, grouped qs o →
            grouped (qs ++ rest) (fold_left add_to_session rest o)).
  { induction rest as [|q rest IH]; intros qs o Ho; simpl.
    - by rewrite app_nil_r.
    - rewrite (assoc_L (++) qs [q] rest : qs ++ q :: rest = (qs ++ [q]) ++ rest).
      by apply IH, add_to_session_grouped. }
  apply (Hgen pool [] []). split; [constructor|]. intros k.
  by rewrite decide_False by set_solver.
Qed.

Lemma topics_of_NoDup (pool : list Question) : NoDup (topics_of pool).
Proof.
  unfold topics_of. rewrite own_properties_perm.
  apply group_by_session_grouped.
Qed.

Lemma elem_of_topics_of (pool : list Question) (t : string) :
  t ∈ topics_of pool ↔ ∃ q, q ∈ pool ∧ topic q = t.
Proof.
  unfold topics_of. rewrite own_properties_perm.
  destruct (group_by_session_grouped pool) as [_ Hget].
  specialize (Hget t).
  destruct (decide (t ∈ (group_by_session pool).*1)) as [Hin|Hnot].
  - assert (obj_get t (group_by_session pool) ≠ None) as Hsome
      by (by rewrite obj_get_None; intros []).
    case_decide as Ht; [|done]. split; [intros _|done].
    apply list_elem_of_fmap in Ht as (q & -> & Hq). by exists q.
  - assert (obj_get t (group_by_session pool) = None) as Hnone
      by (by apply obj_get_None).
    case_decide as Ht; [congruence|]. split; [done|].
    intros (q & Hq & <-). destruct Ht. by apply list_elem_of_fmap_2.
Qed.

Lemma Object_values_groups (pool : list Question) :
  Object_values (group_by_session pool)
    = (λ t, filter (λ q, topic q = t) pool) <$> topics_of pool.
Proof.
  unfold Object_values, topics_of. rewrite <-list_fmap_compose.
  apply list_fmap_ext. intros i [k v] Hi. simpl.
  destruct (group_by_session_grouped pool) as [Hnd Hget].
  assert ((k, v) ∈ group_by_session pool) as Hin.
  { rewrite <-own_properties_perm. by eapply list_elem_of_lookup_2. }
  apply (obj_get_elem _ _ _ Hnd) in Hin. rewrite Hget in Hin.
  case_decide; congruence.
Qed.

Lemma Set_size_topics (pool : list Question) :
  Set_size (topic <$> pool) = length (topics_of pool).
Proof.
  unfold Set_size. apply Permutation_length.
  apply NoDup_Permutation; [apply NoDup_remove_dups|apply topics_of_NoDup|].
  intros t. rewrite elem_of_remove_dups, elem_of_topics_of, list_elem_of_fmap.
  split; intros (q & ? & ?); by exists q.
Qed.

(** ** Stratified sampling *)

Lemma ceil_div_spec (n g : nat) :
  0 < g → n ≤ ceil_div n g * g ∧ ∀ c, n ≤ c * g → ceil_div n g ≤ c.
Proof.
  intros Hg. unfold ceil_div. split.
  - pose proof (Nat.div_mod_eq (n + g - 1) g) as Hdm.
    pose proof (Nat.mod_upper_bound (n + g - 1) g) as Hmod.
    revert Hdm Hmod.
    generalize ((n + g - 1) / g), ((n + g - 1) `mod` g). intros q r ? ?. nia.
  - intros c Hc. apply Nat.lt_succ_r, Nat.Div0.div_lt_upper_bound. nia.
Qed.

Lemma ceil_div_pos (n g : nat) : 0 < n → 0 < g → 0 < ceil_div n g.
Proof.
  intros Hn Hg. destruct (ceil_div_spec n g Hg) as [Hle _]. nia.
Qed.

(** The second loop of [getSampledQuestions] appends, group by group, a
    rearrangement of the group cut to [questionsPerSession]. *)
Lemma sample_sessions_samples `{ArraySort} (groups : list (list Question))
  (n : nat) (sampled : list Question) (w : World) :
  ∃ samples,
    (sample_sessions groups n sampled w).1 = sampled ++ concat samples ∧
    Forall2 (λ g sample, ∃ shuffled, shuffled ≡ₚ g ∧ sample = take n shuffled)
      groups samples.
Proof.
  revert sampled w. induction groups as [|g groups IH]; intros sampled w; simpl.
  - exists []. by rewrite app_nil_r.
  - pose proof (sort_random_perm _ g w) as Hperm.
    destruct (sort_random g w) as [shuffled w1]. simpl in Hperm.
    destruct (IH (sampled ++ slice0 n shuffled) w1) as (samples & -> & Hall).
    exists (take n shuffled :: samples). split.
    + by rewrite <-(assoc_L (++)).
    + constructor; [by exists shuffled|done].
Qed.

(** [getSampledQuestions] meets the specification's wording for every
    [questionsPerSession]. *)
Lemma getSampledQuestions_samples `{ArraySort} (pool : list Question)
  (n : nat) (w : World) :
  ∃ samples,
    Forall2
      (λ t sample, ∃ shuffled,
          shuffled ≡ₚ filter (λ q, topic q = t) pool ∧
          sample = take n shuffled)
      (topics_of pool) samples ∧
    (getSampledQuestions pool n w).1 ≡ₚ concat samples.
Proof.
  unfold getSampledQuestions. rewrite Object_values_groups.
  destruct (sample_sessions_samples
              ((λ t, filter (λ q, topic q = t) pool) <$> topics_of pool) n [] w)
    as (samples & Hsampled & Hall).
  destruct (sample_sessions _ n [] w) as [sampled w1]. simpl in Hsampled.
  subst sampled. exists samples. split.
  - by apply Forall2_fmap_l in Hall.
  - apply sort_random_perm.
Qed.

Lemma NotesQuizPage_select_all_stratified `{ArraySort} (s : State) (w : World) :
  spec_stratified_sample (allQuestions s) (numQuestions s)
    (NotesQuizPage_selectQuestions "all" s w).1.
Proof.
  unfold NotesQuizPage_selectQuestions. rewrite decide_True by done.
  fold topic. rewrite Set_size_topics.
  set (per := ceil_div _ _).
  destruct (getSampledQuestions_samples (allQuestions s) per w)
    as (samples & Hall & Hperm).
  destruct (getSampledQuestions (allQuestions s) per w) as [preliminary w1].
  simpl in *.
  exists (topics_of (allQuestions s)), samples, preliminary.
  split; [apply topics_of_NoDup|]. split; [apply elem_of_topics_of|].
  split; [|done].
  destruct (topics_of (allQuestions s)) as [|t ts] eqn:Hts.
  - inversion Hall. constructor.
  - subst per. simpl in *. done.
Qed.

(** The groups of a duplicate-free list of topics that covers the pool
    make up the pool. *)
Lemma concat_groups_perm (ts : list string) (pool : list Question) :
  NoDup ts → (∀ q, q ∈ pool → topic q ∈ ts) →
  concat ((λ t, filter (λ q, topic q = t) pool) <$> ts) ≡ₚ pool.
Proof.
  revert pool. induction ts as [|t ts IH]; intros pool Hnd Hcover.
  - destruct pool as [|q pool]; [done|].
    by destruct (not_elem_of_nil (topic q)); apply Hcover; left.
  - apply NoDup_cons in Hnd as [Ht Hnd]. rewrite fmap_cons. simpl.
    etrans; [|apply (filter_app_complement (λ q, topic q = t) pool)].
    apply Permutation_app_head.
    assert ((λ k, filter (λ q, topic q = k) pool) <$> ts
            = (λ k, filter (λ q, topic q = k)
                      (filter (λ q, ¬ topic q = t) pool)) <$> ts) as ->.
    { apply Forall_fmap_ext_1, Forall_forall.
      intros k Hk. rewrite list_filter_filter. apply list_filter_iff.
      intros q. split; [|by intros [? _]].
      intros Hqk. split; [done|]. intros Hqt. apply Ht. congruence. }
    apply (IH _ Hnd).
    intros q [Hq Hin]%list_elem_of_filter.
    specialize (Hcover q Hin). apply elem_of_cons in Hcover as [?|?]; done.
Qed.

Lemma samples_length (f : string → list Question) (n : nat) (ts : list string)
  (samples : list (list Question)) :
  Forall2 (λ t sample, ∃ shuffled, shuffled ≡ₚ f t ∧ sample = take n shuffled)
    ts samples →
  length (concat samples) ≤ length (concat (f <$> ts)).
Proof.
  induction 1 as [|t sample ts samples (shuffled & Hperm & ->) _ IH]; [done|].
  rewrite fmap_cons. simpl. rewrite !length_app, length_take, <-Hperm. lia.
Qed.

Lemma stratified_length (pool : list Question) (size : nat)
  (ordered : list Question) :
  spec_stratified_sample pool size ordered →
  length ordered ≤ size ∧ length ordered ≤ length pool.
Proof.
  intros (ts & samples & combined & Hnd & Hts & Hall & Hperm & ->).
  rewrite length_take. split; [lia|].
  rewrite Hperm. apply samples_length in Hall.
  rewrite concat_groups_perm in Hall; [lia|done|].
  intros q Hq. apply Hts. by exists q.
Qed.

Lemma stratified_nonempty (pool : list Question) (size : nat)
  (ordered : list Question) :
  0 < size → pool ≠ [] → spec_stratified_sample pool size ordered →
  ordered ≠ [].
Proof.
  intros Hsize Hpool (ts0 & samples0 & combined & Hnd & Hts & Hall & Hperm & ->).
  destruct pool as [|q0 pool]; [done|].
  assert (topic q0 ∈ ts0) as Hq0 by (apply Hts; exists q0; split; [left|done]).
  destruct ts0 as [|t ts]; [by apply not_elem_of_nil in Hq0|].
  apply Forall2_cons_inv_l in Hall
    as (sample & samples & (shuffled & Hsh & ->) & _ & ->).
  assert (0 < length (filter (λ q, topic q = t) (q0 :: pool))) as Hgroup.
  { destruct (proj1 (Hts t)) as (q & Hq & Hqt); [left|].
    assert (q ∈ filter (λ q, topic q = t) (q0 :: pool)) as Hin
      by (by apply list_elem_of_filter).
    destruct (filter _ (q0 :: pool)); [by apply not_elem_of_nil in Hin|].
    simpl. lia. }
  pose proof (ceil_div_pos size (length (t :: ts)) Hsize) as Hper.
  intros Hnil. apply (f_equal length) in Hnil.
  rewrite length_take, Hperm in Hnil. simpl in Hnil.
  rewrite length_app, length_take, Hsh in Hnil. simpl in Hper. lia.
Qed.

Lemma topic_count_take (t : string) (n : nat) (l : list Question) :
  topic_count t (take n l) ≤ topic_count t l.
Proof.
  unfold topic_count. revert n. induction l as [|q l IH]; intros [|n]; simpl;
    try done; try lia.
  rewrite !filter_cons. destruct (decide (topic q = t)); simpl;
    specialize (IH n); lia.
Qed.

Lemma filter_other_topic (k t : string) (pool : list Question) :
  k ≠ t →
  filter (λ q, topic q = t) (filter (λ q, topic q = k) pool) = [].
Proof.
  intros Hne. induction pool as [|q pool IH]; [done|].
  rewrite (filter_cons (λ q, topic q = k)).
  destruct (decide (topic q = k)) as [Hk|Hk]; [|done].
  rewrite filter_cons_False; [done|]. congruence.
Qed.

Lemma samples_topic_count (pool : list Question) (n : nat) (t : string)
  (ts : list string) (samples : list (list Question)) :
  NoDup ts →
  Forall2
    (λ t sample, ∃ shuffled,
        shuffled ≡ₚ filter (λ q, topic q = t) pool ∧ sample = take n shuffled)
    ts samples →
  topic_count t (concat samples) ≤ (if decide (t ∈ ts) then n else 0).
Proof.
  intros Hnd Hall. revert Hnd.
  induction Hall as [|k sample ts samples (shuffled & Hsh & ->) _ IH];
    intros Hnd.
  - by rewrite decide_False by apply not_elem_of_nil.
  - apply NoDup_cons in Hnd as [Hk Hnd]. specialize (IH Hnd).
    unfold topic_count in *. simpl. rewrite filter_app, length_app.
    destruct (decide (k = t)) as [->|Hne].
    + rewrite decide_True by left. rewrite decide_False in IH by done.
      pose proof (length_filter (λ q, topic q = t) (take n shuffled)).
      rewrite length_take in *. lia.
    + pose proof (topic_count_take t n shuffled) as Htake.
      unfold topic_count in Htake.
      assert (length (filter (λ q, topic q = t) shuffled) = 0) as Hzero
        by (by rewrite Hsh, filter_other_topic).
      destruct (decide (t ∈ ts)) as [Hin|Hnot].
      * rewrite decide_True by (by right). lia.
      * rewrite decide_False by (by intros [?|?]%elem_of_cons). lia.
Qed.

(** Property 2 of the specification: a stratified sample holds at most
    [ceil(size / numTopics)] questions of any one topic. *)
Lemma stratified_topic_bound (pool : list Question) (size : nat)
  (ordered : list Question) (t : string) :
  spec_stratified_sample pool size ordered →
  topic_count t ordered ≤ ceil_div size (Set_size (topic <$> pool)).
Proof.
  intros (ts & samples & combined & Hnd & Hts & Hall & Hperm & ->).
  assert (Set_size (topic <$> pool) = length ts) as ->.
  { unfold Set_size. apply Permutation_length.
    apply NoDup_Permutation; [apply NoDup_remove_dups|done|].
    intros k. rewrite elem_of_remove_dups, Hts, list_elem_of_fmap.
    split; intros (q & ? & ?); by exists q. }
  etrans; [apply topic_count_take|].
  unfold topic_count. rewrite Hperm.
  etrans; [apply (samples_topic_count pool _ t ts samples Hnd Hall)|].
  case_decide; lia.
Qed.

(** ** The start of a round *)

Lemma take_nil_iff {A} (n : nat) (l : list A) : take n l = [] ↔ n = 0 ∨ l = [].
Proof.
  destruct n, l; simpl; split; try done; try (by left); try (by right).
  by intros [?|?].
Qed.

Lemma perm_nil_iff {A} (l k : list A) : l ≡ₚ k → l = [] ↔ k = [].
Proof.
  intros Hperm. split; intros ->.
  - by apply Permutation_nil_l in Hperm.
  - by apply Permutation_nil_r in Hperm.
Qed.

(** The first selection: a stratified sample of the pool on the notes-quiz
    page for "all", and otherwise the first [numQuestions] of a
    rearrangement of the filtered pool. *)
Lemma selectQuestions_cases `{ArraySort} (p : Page) (session : string)
  (s : State) (w : World) :
  (p = NotesQuizPage ∧ session = "all"%string ∧
   spec_stratified_sample (allQuestions s) (numQuestions s)
     (selectQuestions p session s w).1) ∨
  (∃ shuffled, shuffled ≡ₚ filteredPool p session (allQuestions s) ∧
               (selectQuestions p session s w).1
                 = take (numQuestions s) shuffled).
Proof.
  destruct p; simpl.
  - right. unfold Home_selectQuestions, filteredPool, getRandomQuestions.
    case_decide.
    + pose proof (shuffleArray_perm (allQuestions s) (uuidv4 w).2) as Hperm.
      destruct (shuffleArray (allQuestions s) _) as [shuffled w1].
      by exists shuffled.
    + set (F := filter _ _).
      pose proof (shuffleArray_perm F (uuidv4 w).2) as Hperm.
      destruct (shuffleArray F _) as [shuffled w1]. by exists shuffled.
  - destruct (decide (session = "all"%string)) as [->|Hne].
    + left. repeat split. apply NotesQuizPage_select_all_stratified.
    + right. unfold NotesQuizPage_selectQuestions, filteredPool.
      rewrite !decide_False by done. set (F := filter _ _).
      pose proof (sort_random_perm _ F w) as Hperm.
      destruct (sort_random F w) as [shuffled w1]. by exists shuffled.
Qed.

Lemma selectQuestions_length `{ArraySort} (p : Page) (session : string)
  (s : State) (w : World) :
  length (selectQuestions p session s w).1 ≤ numQuestions s ∧
  length (selectQuestions p session s w).1
    ≤ length (filteredPool p session (allQuestions s)).
Proof.
  destruct (selectQuestions_cases p session s w)
    as [(-> & -> & Hspec)|(shuffled & Hperm & ->)].
  - by apply stratified_length in Hspec.
  - rewrite length_take, Hperm. lia.
Qed.

Lemma selectQuestions_nil `{ArraySort} (p : Page) (session : string)
  (s : State) (w : World) :
  0 < numQuestions s →
  (selectQuestions p session s w).1 = []
  ↔ filteredPool p session (allQuestions s) = [].
Proof.
  intros Hsize.
  destruct (selectQuestions_cases p session s w)
    as [(-> & -> & Hspec)|(shuffled & Hperm & ->)].
  - unfold filteredPool. rewrite decide_True by done. split.
    + intros Hnil. destruct (decide (allQuestions s = [])) as [|Hpool]; [done|].
      by destruct (stratified_nonempty _ _ _ Hsize Hpool Hspec).
    + intros Hpool. apply stratified_length in Hspec as [_ Hlen].
      rewrite Hpool in Hlen. apply length_zero_iff_nil. simpl in *. lia.
  - rewrite take_nil_iff, (perm_nil_iff _ _ Hperm). split; [|by right].
    intros [?|?]; [lia|done].
Qed.

Lemma installRound_active (p : Page) (qs : list Question) (s : State)
  (w : World) :
  activeQuestions (installRound p qs s w).1 = qs.
Proof. apply installRound_cleared. Qed.

(** The questions of the round that [startNewQuizRound] installs. *)
Lemma startNewQuizRound_active `{ArraySort} (p : Page) (session : string)
  (s : State) (w : World) :
  (fallbackApplies p session s w = false ∧
   activeQuestions (startNewQuizRound p session s w).1
     = (selectQuestions p session s w).1) ∨
  (fallbackApplies p session s w = true ∧
   ∃ shuffled, shuffled ≡ₚ allQuestions s ∧
     activeQuestions (startNewQuizRound p session s w).1
       = take (numQuestions s `min` 5) shuffled).
Proof.
  unfold fallbackApplies, startNewQuizRound, selectQuestions. destruct p.
  - unfold Home_startNewQuizRound.
    destruct (uuidv4 w) as [newQuizRoundId w0]. cbn [fst snd].
    destruct (Home_selectQuestions session s w0) as [qs w1]. cbn [fst snd].
    destruct (_ && _ && _) eqn:Hfall.
    + right. split; [done|]. unfold getRandomQuestions.
      pose proof (shuffleArray_perm (allQuestions s) w1) as Hperm.
      destruct (shuffleArray (allQuestions s) w1) as [shuffled w2].
      exists shuffled. split; [done|]. by rewrite installRound_active.
    + left. split; [done|]. by rewrite installRound_active.
  - unfold NotesQuizPage_startNewQuizRound. case_decide as Hpool.
    + left. rewrite Hpool. simpl. rewrite andb_false_r. split; [done|].
      pose proof (selectQuestions_length NotesQuizPage session s w) as [_ Hlen].
      simpl in Hlen. unfold filteredPool in Hlen. rewrite Hpool in Hlen.
      symmetry. apply length_zero_iff_nil.
      revert Hlen. case_decide; simpl; lia.
    + destruct (NotesQuizPage_selectQuestions session s w) as [qs w1].
      cbn [fst snd]. destruct (_ && _ && _) eqn:Hfall.
      * right. split; [done|].
        pose proof (sort_random_perm _ (allQuestions s) w1) as Hperm.
        destruct (sort_random (allQuestions s) w1) as [shuffled w2].
        exists shuffled. split; [done|].
        rewrite installRound_active. unfold slice0. simpl in Hperm.
        rewrite <-(Permutation_length Hperm).
        rewrite <-(take_take shuffled), <-(take_take shuffled 5).
        by rewrite (take_ge shuffled (length shuffled)), take_take.
      * left. split; [done|]. by rewrite installRound_active.
Qed.

Lemma fallbackApplies_iff `{ArraySort} (p : Page) (session : string)
  (s : State) (w : World) :
  fallbackApplies p session s w = true ↔
    filteredPool p session (allQuestions s) = [] ∧ allQuestions s ≠ [] ∧
    0 < numQuestions s.
Proof.
  unfold fallbackApplies.
  rewrite !andb_true_iff, Nat.eqb_eq, !Nat.ltb_lt, length_zero_iff_nil.
  split.
  - intros [[Hnil Hpool] Hsize]. rewrite <-selectQuestions_nil by done.
    repeat split; try done. intros Hp. rewrite Hp in Hpool. simpl in Hpool. lia.
  - intros (HF & Hpool & Hsize). rewrite selectQuestions_nil by done.
    repeat split; try done. destruct (allQuestions s); [done|simpl; lia].
Qed.

(** C1, as the code has it: on the notes-quiz page, for every size and
    every pool none of whose topics is named like a member of
    [Object.prototype], [startNewQuizRound("all")] builds the round by
    stratified sampling (partition by topic,
    [perGroup = ceil(size / numGroups)], up to [perGroup] questions of each
    group drawn without replacement, the samples concatenated, rearranged
    and cut to [size]); on the main page it takes, for every pool, the first
    [size] questions of a shuffle of the whole pool. *)
Theorem startNewQuizRound_all_topics `{ArraySort} (s : State) (w : World) :
  (ownTopics (allQuestions s) = true →
   spec_stratified_sample (allQuestions s) (numQuestions s)
     (activeQuestions (startNewQuizRound NotesQuizPage "all" s w).1)) ∧
  ∃ shuffled, shuffled ≡ₚ allQuestions s ∧
    activeQuestions (startNewQuizRound Home "all" s w).1
      = take (numQuestions s) shuffled.
Proof.
  assert (Hno : ∀ p, fallbackApplies p "all" s w = false).
  { intros p. apply not_true_is_false. rewrite fallbackApplies_iff.
    unfold filteredPool. rewrite decide_True by done. by intros (? & ? & _). }
  split.
  - intros _.
    destruct (startNewQuizRound_active NotesQuizPage "all" s w)
      as [(_ & ->)|(Hyes & _)]; [|by rewrite Hno in Hyes].
    apply NotesQuizPage_select_all_stratified.
  - destruct (startNewQuizRound_active Home "all" s w)
      as [(_ & ->)|(Hyes & _)]; [|by rewrite Hno in Hyes].
    destruct (selectQuestions_cases Home "all" s w)
      as [(? & _)|(shuffled & Hperm & ->)]; [done|].
    exists shuffled. split; [|done].
    unfold filteredPool in Hperm. by rewrite decide_True in Hperm.
Qed.

Lemma startNewQuizRound_all_topics_witness :
  let s := setNumQuestions 6 (initialState threeTopicsPool) in
  let w := constant_world 30 in
  spec_stratified_sample (allQuestions s) (numQuestions s)
    (activeQuestions
       (@startNewQuizRound insertion_ArraySort NotesQuizPage "all" s w).1) ∧
  ∃ shuffled, shuffled ≡ₚ allQuestions s ∧
    activeQuestions (@startNewQuizRound insertion_ArraySort Home "all" s w).1
      = take (numQuestions s) shuffled.
Proof.
  intros s w.
  destruct (@startNewQuizRound_all_topics insertion_ArraySort s w)
    as [Hnotes Hhome].
  split; [apply Hnotes; reflexivity|exact Hhome].
Defined.

(** On the main page a round of five questions over all topics can hold
    five questions of one topic out of two, where a stratified sample holds
    at most three. *)
Lemma Home_all_topics_not_stratified :
  ¬ spec_stratified_sample (allQuestions (setNumQuestions 5 (initialState samplePool)))
      (numQuestions (setNumQuestions 5 (initialState samplePool)))
      (activeQuestions homeAllTopics.1).
Proof.
  intros Hspec.
  pose proof (stratified_topic_bound _ _ _ "A.pdf"%string Hspec) as Hbound.
  vm_compute in Hbound. lia.
Qed.

Example homeAllTopics_example :
  number <$> activeQuestions homeAllTopics.1 = ["1"; "2"; "3"; "4"; "5"]%string ∧
  topic_count "A.pdf" (activeQuestions homeAllTopics.1) = 5 ∧
  ceil_div 5 (Set_size (topic <$> samplePool)) = 3.
Proof. by vm_compute. Qed.

(** C7: the round that [startNewQuizRound] installs has at most
    [numQuestions] questions, and at most as many as the filtered pool,
    or as the whole pool when the fallback applies. *)
Theorem round_length_bounds `{ArraySort} (p : Page) (session : string)
  (s : State) (w : World) :
  length (activeQuestions (startNewQuizRound p session s w).1) ≤ numQuestions s ∧
  (if fallbackApplies p session s w
   then length (activeQuestions (startNewQuizRound p session s w).1)
          ≤ length (allQuestions s)
   else length (activeQuestions (startNewQuizRound p session s w).1)
          ≤ length (filteredPool p session (allQuestions s))).
Proof.
  destruct (startNewQuizRound_active p session s w)
    as [(-> & ->)|(-> & shuffled & Hperm & ->)].
  - apply selectQuestions_length.
  - rewrite length_take, Hperm. lia.
Qed.



Example fallback_example :
  let s := absentTopicState in
  let w := constant_world 50 in
  (@selectQuestions insertion_ArraySort NotesQuizPage "C.pdf" s w).1 = [] ∧
  @fallbackApplies insertion_ArraySort NotesQuizPage "C.pdf" s w = true ∧
  length (activeQuestions
            (@startNewQuizRound insertion_ArraySort NotesQuizPage "C.pdf" s w).1)
    = 5.
Proof. by vm_compute. Qed.

(** ** The scenarios of the specification *)

(** Three topics with 4, 4 and 2 questions and a round of 6: two
    questions of each topic. *)
Example scenario_three_topics :
  let s := (@run insertion_ArraySort NotesQuizPage
              [EvNumQuestions 6; EvStart "all"]
              (initialState threeTopicsPool) (constant_world 30)).1 in
  ceil_div 6 (Set_size (topic <$> threeTopicsPool)) = 2 ∧
  length (activeQuestions s) = 6 ∧
  topic_count "A.pdf" (activeQuestions s) = 2 ∧
  topic_count "B.pdf" (activeQuestions s) = 2 ∧
  topic_count "C.pdf" (activeQuestions s) = 2.
Proof. by vm_compute. Qed.

(** A topic with three questions and a round of 10: three questions, and
    the round is finished after three advances. *)
Example scenario_small_topic :
  let start := @run insertion_ArraySort NotesQuizPage [EvStart "A.pdf"]
                 (initialState smallTopicPool) (constant_world 30) in
  let finish := @run insertion_ArraySort NotesQuizPage
                  [EvSkip; EvTimeout true; EvSkip; EvTimeout true; EvSkip;
                   EvTimeout true] start.1 start.2 in
  length (activeQuestions start.1) = 3 ∧
  quizFinished start.1 = false ∧ quizFinished finish.1 = true.
Proof. by vm_compute. Qed.

(** A correct answer, a wrong answer and a skip: the streak ends at 0 with
    one mistake. *)
Example scenario_streak_and_mistakes :
  let s := (@run insertion_ArraySort NotesQuizPage
              [EvStart "A.pdf"; EvAnswer answerB; EvTimeout false;
               EvAnswer answerA; EvTimeout false; EvSkip; EvTimeout true]
              (initialState smallTopicPool) (constant_world 30)).1 in
  streak s = 0 ∧ length (incorrectlyAnsweredQuestions s) = 1 ∧
  quizFinished s = true.
Proof. by vm_compute. Qed.

(** * Further properties of the pages *)

(** ** What the draws return *)

(** X1: [getRandomQuestions] draws without replacement: its result holds no
    question more often than its argument does, and has [count] questions,
    or all of them when there are fewer. *)
Theorem getRandomQuestions_draw (questions : list Question) (count : nat)
  (w : World) :
  (getRandomQuestions questions count w).1 ⊆+ questions ∧
  length (getRandomQuestions questions count w).1
    = count `min` length questions.
Proof.
  unfold getRandomQuestions.
  pose proof (shuffleArray_perm questions w) as Hperm.
  destruct (shuffleArray questions w) as [shuffled w1]. simpl in *.
  unfold slice0. split.
  - rewrite <-Hperm. apply submseteq_take.
  - by rewrite length_take, Hperm.
Qed.

Lemma filter_all_topic (t : string) (l : list Question) :
  Forall (λ q, topic q = t) l → filter (λ q, topic q = t) l = l.
Proof.
  induction 1 as [|q l Hq _ IH]; [done|].
  by rewrite filter_cons_True, IH.
Qed.

Lemma samples_submseteq (f : string → list Question) (n : nat)
  (ts : list string) (samples : list (list Question)) :
  Forall2 (λ t sample, ∃ shuffled, shuffled ≡ₚ f t ∧ sample = take n shuffled)
    ts samples →
  concat samples ⊆+ concat (f <$> ts).
Proof.
  induction 1 as [|t sample ts samples (shuffled & Hperm & ->) _ IH]; [done|].
  rewrite fmap_cons. simpl. apply submseteq_app; [|done].
  rewrite <-Hperm. apply submseteq_take.
Qed.

Lemma samples_total_length (pool : list Question) (n : nat)
  (ts : list string) (samples : list (list Question)) :
  Forall2
    (λ t sample, ∃ shuffled,
        shuffled ≡ₚ filter (λ q, topic q = t) pool ∧ sample = take n shuffled)
    ts samples →
  length (concat samples)
    = sum_list ((λ t, n `min` topic_count t pool) <$> ts).
Proof.
  induction 1 as [|t sample ts samples (shuffled & Hperm & ->) _ IH]; [done|].
  rewrite fmap_cons. simpl. rewrite length_app, length_take, IH, Hperm. done.
Qed.

Lemma samples_topic_count_exact (pool : list Question) (n : nat) (t : string)
  (ts : list string) (samples : list (list Question)) :
  NoDup ts →
  Forall2
    (λ t sample, ∃ shuffled,
        shuffled ≡ₚ filter (λ q, topic q = t) pool ∧ sample = take n shuffled)
    ts samples →
  topic_count t (concat samples)
    = if decide (t ∈ ts) then n `min` topic_count t pool else 0.
Proof.
  intros Hnd Hall. revert Hnd.
  induction Hall as [|k sample ts samples (shuffled & Hsh & ->) _ IH];
    intros Hnd.
  - by rewrite decide_False by apply not_elem_of_nil.
  - apply NoDup_cons in Hnd as [Hk Hnd]. specialize (IH Hnd).
    unfold topic_count in *. simpl. rewrite filter_app, length_app.
    destruct (decide (k = t)) as [->|Hne].
    + rewrite decide_True by left. rewrite decide_False in IH by done.
      rewrite filter_all_topic.
      * rewrite length_take, Hsh. lia.
      * apply Forall_take. rewrite Hsh. apply Forall_forall.
        by intros q [? _]%list_elem_of_filter.
    + pose proof (topic_count_take t n shuffled) as Htake.
      unfold topic_count in Htake.
      assert (length (filter (λ q, topic q = t) shuffled) = 0) as Hzero
        by (by rewrite Hsh, filter_other_topic).
      destruct (decide (t ∈ ts)) as [Hin|Hnot].
      * rewrite decide_True by (by right). lia.
      * rewrite decide_False by (by intros [?|?]%elem_of_cons). lia.
Qed.

Lemma getSampledQuestions_length `{ArraySort} (pool : list Question)
  (n : nat) (w : World) :
  length (getSampledQuestions pool n w).1 = stratifiedSupply pool n.
Proof.
  destruct (getSampledQuestions_samples pool n w) as (samples & Hall & Hperm).
  rewrite Hperm. by apply samples_total_length.
Qed.

(** X2: from a pool none of whose topics is named like a member of
    [Object.prototype], [getSampledQuestions] draws, without replacement,
    exactly [questionsPerSession] questions of every topic of the pool, or
    all the questions of a topic that has fewer. *)
Theorem getSampledQuestions_per_topic `{ArraySort} (pool : list Question)
  (n : nat) (w : World) :
  ownTopics pool = true →
  (getSampledQuestions pool n w).1 ⊆+ pool ∧
  (∀ t, topic_count t (getSampledQuestions pool n w).1
        = n `min` topic_count t pool) ∧
  length (getSampledQuestions pool n w).1 = stratifiedSupply pool n.
Proof.
  intros _.
  destruct (getSampledQuestions_samples pool n w) as (samples & Hall & Hperm).
  assert (Hcover : ∀ q, q ∈ pool → topic q ∈ topics_of pool).
  { intros q Hq. apply elem_of_topics_of. by exists q. }
  split; [|split].
  - rewrite Hperm. apply samples_submseteq in Hall.
    by rewrite (concat_groups_perm (topics_of pool) pool (topics_of_NoDup pool)
                  Hcover) in Hall.
  - intros t. unfold topic_count at 1. rewrite Hperm.
    fold (topic_count t (concat samples)).
    rewrite (samples_topic_count_exact pool n t _ _ (topics_of_NoDup pool) Hall).
    case_decide as Ht; [done|].
    unfold topic_count. rewrite filter_topic_absent; [simpl; lia|].
    intros (q & -> & Hq)%list_elem_of_fmap. apply Ht, Hcover, Hq.
  - apply getSampledQuestions_length.
Qed.

Lemma getSampledQuestions_per_topic_witness :
  let w := constant_world 30 in
  (@getSampledQuestions insertion_ArraySort threeTopicsPool 2 w).1
    ⊆+ threeTopicsPool ∧
  (∀ t, topic_count t
          (@getSampledQuestions insertion_ArraySort threeTopicsPool 2 w).1
        = 2 `min` topic_count t threeTopicsPool) ∧
  length (@getSampledQuestions insertion_ArraySort threeTopicsPool 2 w).1
    = stratifiedSupply threeTopicsPool 2.
Proof.
  intros w.
  apply (@getSampledQuestions_per_topic insertion_ArraySort threeTopicsPool 2 w).
  reflexivity.
Defined.

(** ** The round that a start installs *)

Lemma stratified_submseteq (pool : list Question) (size : nat)
  (ordered : list Question) :
  spec_stratified_sample pool size ordered → ordered ⊆+ pool.
Proof.
  intros (ts & samples & combined & Hnd & Hts & Hall & Hperm & ->).
  etrans; [apply submseteq_take|]. rewrite Hperm.
  apply samples_submseteq in Hall.
  rewrite concat_groups_perm in Hall; [done..|].
  intros q Hq. apply Hts. by exists q.
Qed.

Lemma filteredPool_submseteq (p : Page) (session : string)
  (pool : list Question) :
  filteredPool p session pool ⊆+ pool.
Proof.
  unfold filteredPool. case_decide; [done|].
  destruct p; apply sublist_submseteq, sublist_filter.
Qed.

Lemma selectQuestions_submseteq `{ArraySort} (p : Page) (session : string)
  (s : State) (w : World) :
  (selectQuestions p session s w).1 ⊆+ filteredPool p session (allQuestions s).
Proof.
  destruct (selectQuestions_cases p session s w)
    as [(-> & -> & Hspec)|(shuffled & Hperm & ->)].
  - unfold filteredPool. rewrite decide_True by done.
    by apply stratified_submseteq in Hspec.
  - rewrite <-Hperm. apply submseteq_take.
Qed.

Lemma NoDup_submseteq_inv {A} (l k : list A) : l ⊆+ k → NoDup k → NoDup l.
Proof.
  intros (k' & Hperm)%submseteq_Permutation Hnd. rewrite Hperm in Hnd.
  by apply NoDup_app in Hnd as [? _].
Qed.

(** X3: on both pages and for every session, the round that
    [startNewQuizRound] installs is drawn from the pool without
    replacement: it holds no question more often than the pool does.  So
    when the questions of the pool have distinct numbers, so have the
    questions of the round. *)
Theorem round_drawn_from_pool `{ArraySort} (p : Page) (session : string)
  (s : State) (w : World) :
  activeQuestions (startNewQuizRound p session s w).1 ⊆+ allQuestions s ∧
  (NoDup (number <$> allQuestions s) →
   NoDup (number <$> activeQuestions (startNewQuizRound p session s w).1)).
Proof.
  assert (activeQuestions (startNewQuizRound p session s w).1
            ⊆+ allQuestions s) as Hsub.
  { destruct (startNewQuizRound_active p session s w)
      as [(_ & ->)|(_ & shuffled & Hperm & ->)].
    - etrans; [apply selectQuestions_submseteq|apply filteredPool_submseteq].
    - rewrite <-Hperm. apply submseteq_take. }
  split; [done|]. intros Hnd.
  eapply NoDup_submseteq_inv; [|done]. by apply fmap_submseteq.
Qed.

Lemma fallbackApplies_all `{ArraySort} (p : Page) (s : State) (w : World) :
  fallbackApplies p "all" s w = false.
Proof.
  apply not_true_is_false. rewrite fallbackApplies_iff.
  unfold filteredPool. rewrite decide_True by done. by intros (? & ? & _).
Qed.

Lemma NotesQuizPage_all_length `{ArraySort} (s : State) (w : World) :
  length (activeQuestions (startNewQuizRound NotesQuizPage "all" s w).1)
    = numQuestions s
      `min` stratifiedSupply (allQuestions s)
              (ceil_div (numQuestions s) (Set_size (topic <$> allQuestions s))).
Proof.
  destruct (startNewQuizRound_active NotesQuizPage "all" s w)
    as [(_ & ->)|(Hyes & _)]; [|by rewrite fallbackApplies_all in Hyes].
  unfold selectQuestions, NotesQuizPage_selectQuestions.
  rewrite decide_True by done.
  change (pdf_filename_or "notes_quiz") with topic.
  destruct (Set_size (topic <$> allQuestions s)) as [|g] eqn:Hg.
  - change (0 <? 0) with false. cbv iota.
    pose proof (getSampledQuestions_length (allQuestions s)
                  (ceil_div (numQuestions s) 1) w) as Hlen.
    destruct (getSampledQuestions _ _ w) as [preliminary w1]. cbn [fst] in *.
    unfold slice0. rewrite length_take, Hlen. unfold stratifiedSupply.
    rewrite Set_size_topics in Hg.
    by destruct (topics_of (allQuestions s)).
  - change (0 <? S g) with true. cbv iota.
    pose proof (getSampledQuestions_length (allQuestions s)
                  (ceil_div (numQuestions s) (S g)) w) as Hlen.
    destruct (getSampledQuestions _ _ w) as [preliminary w1]. cbn [fst] in *.
    unfold slice0. by rewrite length_take, Hlen.
Qed.

Lemma sum_list_const_min (pool : list Question) (per : nat) (ts : list string) :
  (∀ t, t ∈ ts → per ≤ topic_count t pool) →
  sum_list ((λ t, per `min` topic_count t pool) <$> ts) = per * length ts.
Proof.
  induction ts as [|t ts IH]; intros Hall; [simpl; lia|].
  pose proof (Hall t (list_elem_of_here _ _)) as Ht.
  specialize (IH (λ t' Ht', Hall t' (list_elem_of_further _ _ _ Ht'))).
  rewrite fmap_cons.
  change (per `min` topic_count t pool
          + sum_list ((λ t, per `min` topic_count t pool) <$> ts)
          = per * S (length ts)).
  rewrite IH. lia.
Qed.

(** X4: for a pool none of whose topics is named like a member of
    [Object.prototype], the length of an "all topics" round on the
    notes-quiz page is the requested size, or what the topics can supply
    at [ceil(size / numTopics)] questions each when that is less (so the
    round can come out short although the pool is large enough); with
    adequate supply, that is when every topic of a non-empty pool has at
    least [ceil(size / numTopics)] questions, it is exactly the requested
    size. *)
Theorem NotesQuizPage_all_topics_length `{ArraySort} (s : State) (w : World) :
  ownTopics (allQuestions s) = true →
  length (activeQuestions (startNewQuizRound NotesQuizPage "all" s w).1)
    = numQuestions s
      `min` stratifiedSupply (allQuestions s)
              (ceil_div (numQuestions s) (Set_size (topic <$> allQuestions s)))
  ∧ (allQuestions s ≠ [] →
     (∀ q, q ∈ allQuestions s →
           ceil_div (numQuestions s) (Set_size (topic <$> allQuestions s))
             ≤ topic_count (topic q) (allQuestions s)) →
     length (activeQuestions (startNewQuizRound NotesQuizPage "all" s w).1)
       = numQuestions s).
Proof.
  intros _. split; [apply NotesQuizPage_all_length|].
  intros Hpool Hsupply. rewrite NotesQuizPage_all_length.
  unfold stratifiedSupply. rewrite sum_list_const_min.
  - rewrite <-Set_size_topics.
    assert (0 < Set_size (topic <$> allQuestions s)) as Hg.
    { rewrite Set_size_topics. destruct (allQuestions s) as [|q pool]; [done|].
      assert (topic q ∈ topics_of (q :: pool)) as Hin
        by (apply elem_of_topics_of; exists q; split; [left|done]).
      destruct (topics_of (q :: pool)); [by apply not_elem_of_nil in Hin|].
      simpl. lia. }
    destruct (ceil_div_spec (numQuestions s) _ Hg) as [Hle _]. lia.
  - intros t (q & Hq & <-)%elem_of_topics_of. by apply Hsupply.
Qed.

Lemma NotesQuizPage_all_topics_length_witness :
  let s := setNumQuestions 6 (initialState threeTopicsPool) in
  let w := constant_world 30 in
  length (activeQuestions
            (@startNewQuizRound insertion_ArraySort NotesQuizPage "all" s w).1)
    = numQuestions s
      `min` stratifiedSupply (allQuestions s)
              (ceil_div (numQuestions s) (Set_size (topic <$> allQuestions s)))
  ∧ (allQuestions s ≠ [] →
     (∀ q, q ∈ allQuestions s →
           ceil_div (numQuestions s) (Set_size (topic <$> allQuestions s))
             ≤ topic_count (topic q) (allQuestions s)) →
     length (activeQuestions
               (@startNewQuizRound insertion_ArraySort NotesQuizPage "all" s w).1)
       = numQuestions s).
Proof.
  intros s w.
  apply (@NotesQuizPage_all_topics_length insertion_ArraySort s w).
  reflexivity.
Defined.

(** ** The topic selector *)

Lemma Set_values_spec {A} `{EqDecision A} (keys : list A) :
  NoDup (Set_values keys) ∧ ∀ k, k ∈ Set_values keys ↔ k ∈ keys.
Proof.
  unfold Set_values.
  assert (Hgen : ∀ (l seen : list A), NoDup seen →
            NoDup (fold_left (λ seen k, if decide (k ∈ seen) then seen
                                        else seen ++ [k]) l seen) ∧
            ∀ k, k ∈ fold_left (λ seen k, if decide (k ∈ seen) then seen
                                          else seen ++ [k]) l seen
                 ↔ k ∈ seen ∨ k ∈ l).
  { induction l as [|x l IH]; intros seen Hnd; simpl.
    - split; [done|]. intros k. split; [by left|].
      intros [?|?%not_elem_of_nil]; done.
    - case_decide as Hx.
      + destruct (IH seen Hnd) as [Hnd' Hin]. split; [done|].
        intros k. rewrite Hin, elem_of_cons. split; [tauto|].
        intros [?|[->|?]]; tauto.
      + assert (NoDup (seen ++ [x])) as Hnd1.
        { apply NoDup_app. split; [done|]. split; [|apply NoDup_singleton].
          by intros y Hy ->%list_elem_of_singleton. }
        destruct (IH _ Hnd1) as [Hnd' Hin]. split; [done|].
        intros k. rewrite Hin, elem_of_app, list_elem_of_singleton, elem_of_cons.
        tauto. }
  destruct (Hgen keys [] (NoDup_nil_2)) as [Hnd Hin]. split; [done|].
  intros k. rewrite Hin. split; [|by right].
  intros [?%not_elem_of_nil|?]; done.
Qed.

Lemma insert_sorted_perm (k : string) (l : list string) :
  insert_sorted k l ≡ₚ k :: l.
Proof.
  induction l as [|k' l IH]; simpl; [done|].
  destruct (String.leb k k'); [done|]. rewrite IH. apply Permutation_swap.
Qed.

Lemma sort_strings_perm (l : list string) : sort_strings l ≡ₚ l.
Proof.
  induction l as [|k l IH]; simpl; [done|].
  by rewrite insert_sorted_perm, IH.
Qed.

Lemma insert_sorted_Sorted (k : string) (l : list string) :
  Sorted (λ a b, String.leb a b = true) l →
  Sorted (λ a b, String.leb a b = true) (insert_sorted k l).
Proof.
  induction 1 as [|k' l Hl IH Hhd]; simpl.
  - by repeat constructor.
  - destruct (String.leb k k') eqn:Hle.
    + constructor; [by constructor|by constructor].
    + constructor; [done|].
      assert (String.leb k' k = true) as Hge
        by (destruct (String.leb_total k k'); congruence).
      destruct Hhd as [|k'' l' Hk'']; simpl; [by constructor|].
      destruct (String.leb k k''); by constructor.
Qed.

Lemma sort_strings_Sorted (l : list string) :
  Sorted (λ a b, String.leb a b = true) (sort_strings l).
Proof.
  induction l as [|k l IH]; simpl; [constructor|].
  by apply insert_sorted_Sorted.
Qed.

Lemma NotesQuizPage_sessions_elem (data : list Question) (k : string) :
  k ∈ NotesQuizPage_sessions data
  ↔ ∃ q, q ∈ data ∧ pdf_filename_or "Unknown Source" q = k.
Proof.
  unfold NotesQuizPage_sessions.
  destruct (Set_values_spec (pdf_filename_or "Unknown Source" <$> data))
    as [_ Hin].
  destruct data as [|q0 data];
    [change (0 <? length (@nil Question)) with false
    |change (0 <? length (q0 :: data)) with true]; cbv iota.
  - split; [by intros ?%not_elem_of_nil|].
    by intros (q & ?%not_elem_of_nil & _).
  - rewrite sort_strings_perm, Hin, list_elem_of_fmap.
    split; intros (q & ? & ?); by exists q.
Qed.

(** X5: the topic selector of the notes-quiz page lists every topic of the
    loaded questions (an absent or empty file name as "Unknown Source")
    exactly once, in ascending order. *)
Theorem NotesQuizPage_sessions_spec (data : list Question) :
  NoDup (NotesQuizPage_sessions data) ∧
  Sorted (λ a b, String.leb a b = true) (NotesQuizPage_sessions data) ∧
  ∀ k, k ∈ NotesQuizPage_sessions data
       ↔ ∃ q, q ∈ data ∧ pdf_filename_or "Unknown Source" q = k.
Proof.
  unfold NotesQuizPage_sessions.
  destruct (Set_values_spec (pdf_filename_or "Unknown Source" <$> data))
    as [Hnd Hin].
  destruct data as [|q0 data];
    [change (0 <? length (@nil Question)) with false
    |change (0 <? length (q0 :: data)) with true]; cbv iota.
  - split; [constructor|]. split; [constructor|].
    apply (NotesQuizPage_sessions_elem []).
  - split; [by rewrite sort_strings_perm|].
    split; [apply sort_strings_Sorted|].
    apply (NotesQuizPage_sessions_elem (q0 :: data)).
Qed.

Lemma offered_filteredPool (p : Page) (session : string)
  (pool : list Question) :
  offered p session pool → session ≠ "all"%string →
  filteredPool p session pool ≠ [].
Proof.
  intros Hoffered Hall. unfold filteredPool. rewrite decide_False by done.
  destruct p; unfold offered, Home_sessions in Hoffered.
  - apply (proj2 (Set_values_spec (pdf_filename <$> pool))) in Hoffered.
    apply list_elem_of_fmap in Hoffered as (q & Hq & Hin).
    intros Hnil.
    by apply (filter_nil_not_elem_of _ _ q Hnil).
  - apply NotesQuizPage_sessions_elem in Hoffered as (q & Hin & Hq).
    intros Hnil.
    by apply (filter_nil_not_elem_of _ _ q Hnil).
Qed.

Lemma selectQuestions_plain `{ArraySort} (p : Page) (session : string)
  (s : State) (w : World) :
  p = Home ∨ session ≠ "all"%string →
  ∃ shuffled, shuffled ≡ₚ filteredPool p session (allQuestions s) ∧
              (selectQuestions p session s w).1
                = take (numQuestions s) shuffled.
Proof.
  intros Hplain.
  destruct (selectQuestions_cases p session s w)
    as [(-> & -> & _)|Hcase]; [|done].
  by destruct Hplain.
Qed.

(** X6: on the main page, and on the notes-quiz page for a single topic, the
    round has exactly [min(size, n)] questions, where [n] is the number of
    questions of the chosen session, or, when the fallback applies,
    exactly [min(size, 5, N)] for a pool of [N] questions. *)
Theorem round_length_exact `{ArraySort} (p : Page) (session : string)
  (s : State) (w : World) :
  p = Home ∨ session ≠ "all"%string →
  length (activeQuestions (startNewQuizRound p session s w).1)
    = if fallbackApplies p session s w
      then (numQuestions s `min` 5) `min` length (allQuestions s)
      else numQuestions s
           `min` length (filteredPool p session (allQuestions s)).
Proof.
  intros Hplain.
  destruct (startNewQuizRound_active p session s w)
    as [(-> & ->)|(-> & shuffled & Hperm & ->)].
  - destruct (selectQuestions_plain p session s w Hplain)
      as (shuffled & Hperm & ->).
    by rewrite length_take, Hperm.
  - by rewrite length_take, Hperm.
Qed.

Lemma round_length_exact_witness :
  length (activeQuestions
            (@startNewQuizRound insertion_ArraySort NotesQuizPage "C.pdf"
               absentTopicState (constant_world 50)).1)
    = if @fallbackApplies insertion_ArraySort NotesQuizPage "C.pdf"
           absentTopicState (constant_world 50)
      then (numQuestions absentTopicState `min` 5)
           `min` length (allQuestions absentTopicState)
      else numQuestions absentTopicState
           `min` length (filteredPool NotesQuizPage "C.pdf"
                           (allQuestions absentTopicState)).
Proof.
  apply (@round_length_exact insertion_ArraySort NotesQuizPage "C.pdf"
           absentTopicState (constant_world 50)).
  right. discriminate.
Defined.

(** X7: a session chosen from the page's topic selector never needs the
    fallback: with a positive size the round is not empty, holds only
    questions of that session, none more often than the pool, and
    [min(size, n)] of them when the session has [n] questions. *)
Theorem offered_session_round `{ArraySort} (p : Page) (session : string)
  (s : State) (w : World) :
  offered p session (allQuestions s) → session ≠ "all"%string →
  0 < numQuestions s →
  fallbackApplies p session s w = false ∧
  activeQuestions (startNewQuizRound p session s w).1
    ⊆+ filteredPool p session (allQuestions s) ∧
  (∀ q, q ∈ activeQuestions (startNewQuizRound p session s w).1 →
        match p with
        | NotesQuizPage => pdf_filename_or "Unknown Source" q = session
        | Home => pdf_filename q = Some session
        end) ∧
  length (activeQuestions (startNewQuizRound p session s w).1)
    = numQuestions s `min` length (filteredPool p session (allQuestions s)) ∧
  activeQuestions (startNewQuizRound p session s w).1 ≠ [].
Proof.
  intros Hoffered Hall Hsize.
  pose proof (offered_filteredPool p session _ Hoffered Hall) as HF.
  assert (fallbackApplies p session s w = false) as Hno.
  { apply not_true_is_false. rewrite fallbackApplies_iff. by intros (? & _). }
  destruct (startNewQuizRound_active p session s w)
    as [(_ & ->)|(Hyes & _)]; [|congruence].
  destruct (selectQuestions_plain p session s w (or_intror Hall))
    as (shuffled & Hperm & Hsel).
  split; [done|]. split; [apply selectQuestions_submseteq|].
  split; [|split].
  - intros q Hq.
    pose proof (elem_of_submseteq _ _ _ Hq
                  (selectQuestions_submseteq p session s w)) as HqF.
    unfold filteredPool in HqF. rewrite decide_False in HqF by done.
    by destruct p; apply list_elem_of_filter in HqF as [? _].
  - by rewrite Hsel, length_take, Hperm.
  - rewrite Hsel, take_nil_iff, (perm_nil_iff _ _ Hperm).
    intros [?|?]; [lia|done].
Qed.

Lemma offered_session_round_witness :
  let s := initialState smallTopicPool in
  let w := constant_world 30 in
  @fallbackApplies insertion_ArraySort NotesQuizPage "A.pdf" s w = false ∧
  activeQuestions (@startNewQuizRound insertion_ArraySort NotesQuizPage "A.pdf" s w).1
    ⊆+ filteredPool NotesQuizPage "A.pdf" (allQuestions s) ∧
  (∀ q, q ∈ activeQuestions
              (@startNewQuizRound insertion_ArraySort NotesQuizPage "A.pdf" s w).1 →
        pdf_filename_or "Unknown Source" q = "A.pdf"%string) ∧
  length (activeQuestions
            (@startNewQuizRound insertion_ArraySort NotesQuizPage "A.pdf" s w).1)
    = numQuestions s
      `min` length (filteredPool NotesQuizPage "A.pdf" (allQuestions s)) ∧
  activeQuestions (@startNewQuizRound insertion_ArraySort NotesQuizPage "A.pdf" s w).1
    ≠ [].
Proof.
  intros s w.
  apply (@offered_session_round insertion_ArraySort NotesQuizPage "A.pdf" s w).
  - change ("A.pdf"%string ∈ NotesQuizPage_sessions smallTopicPool).
    apply (bool_decide_unpack _). by vm_compute.
  - discriminate.
  - vm_compute. lia.
Defined.

(** ** What every reachable state satisfies *)

Lemma present_None (p : Page) (w : World) : present p None w = (None, w).
Proof. by destruct p. Qed.

Lemma present_lookup (p : Page) (l : list Question) (i : nat) (w : World)
  (cq : Question) :
  (present p (l !! i) w).1 = Some cq →
  ∃ q, l !! i = Some q ∧ same_choices q cq.
Proof.
  destruct (l !! i) as [q|]; [|by rewrite present_None].
  destruct (present_same_choices p q w) as (q' & -> & Hsame).
  intros [= <-]. by exists q.
Qed.

Lemma installRound_current (p : Page) (qs : list Question) (s : State)
  (w : World) :
  currentQuestion (installRound p qs s w).1 = (present p (qs !! 0) w).1 ∧
  showQuizSetup (installRound p qs s w).1 = (length qs =? 0) ∧
  answerHistory (installRound p qs s w).1 = [] ∧
  questionToReview (installRound p qs s w).1 = None.
Proof.
  unfold installRound. destruct qs as [|q qs].
  - change (@nil Question !! 0) with (@None Question). rewrite present_None.
    simpl. by destruct (feedbackTimeoutId s) eqn:Ht.
  - change (0 <? length (q :: qs)) with true.
    change (length (q :: qs) =? 0) with false. cbv iota.
    destruct (present p _ w) as [r w1].
    simpl. by destruct (feedbackTimeoutId s) eqn:Ht.
Qed.

Lemma handleGoBack_current (p : Page) (s : State) (w : World) :
  0 < currentQuestionIndex s →
  currentQuestion (handleGoBack p s w).1
    = (present p (activeQuestions s !! (currentQuestionIndex s - 1)) w).1.
Proof.
  intros Hpos. unfold handleGoBack. apply Nat.ltb_lt in Hpos. rewrite Hpos.
  destruct (present p _ w) as [q w1]. by destruct p.
Qed.

(** The cells after [loadNextQuestion]. *)
Lemma loadNextQuestion_fields (p : Page) (skipped : bool) (s : State)
  (w : World) :
  allQuestions (loadNextQuestion p skipped s w).1 = allQuestions s ∧
  activeQuestions (loadNextQuestion p skipped s w).1 = activeQuestions s ∧
  showQuizSetup (loadNextQuestion p skipped s w).1 = showQuizSetup s ∧
  streak (loadNextQuestion p skipped s w).1 = streak s ∧
  answerHistory (loadNextQuestion p skipped s w).1 = answerHistory s ∧
  (currentQuestionIndex s + 1 < length (activeQuestions s) →
     currentQuestionIndex (loadNextQuestion p skipped s w).1
       = currentQuestionIndex s + 1 ∧
     currentQuestion (loadNextQuestion p skipped s w).1
       = (present p (activeQuestions s !! (currentQuestionIndex s + 1)) w).1) ∧
  (¬ currentQuestionIndex s + 1 < length (activeQuestions s) →
     currentQuestionIndex (loadNextQuestion p skipped s w).1
       = currentQuestionIndex s ∧
     currentQuestion (loadNextQuestion p skipped s w).1 = None).
Proof.
  unfold loadNextQuestion. rewrite clearFeedbackAndTimeout_fields.
  destruct (decide (currentQuestionIndex s + 1 < length (activeQuestions s)))
    as [Hin|Hout].
  - assert (((0 <? length (activeQuestions s))
         && (currentQuestionIndex s <? length (activeQuestions s) - 1)) = true)
      as -> by (apply andb_true_iff; split; apply Nat.ltb_lt; lia).
    destruct (present p _ w) as [q w1].
    by destruct p, skipped.
  - assert (((0 <? length (activeQuestions s))
         && (currentQuestionIndex s <? length (activeQuestions s) - 1)) = false)
      as ->.
    { apply andb_false_iff. destruct (activeQuestions s); [by left|].
      right. apply Nat.ltb_ge. simpl in *. lia. }
    done.
Qed.

(** The invariant reads seven cells only. *)
Lemma roundInvariant_ext (s s' : State) :
  allQuestions s' = allQuestions s →
  activeQuestions s' = activeQuestions s →
  currentQuestionIndex s' = currentQuestionIndex s →
  currentQuestion s' = currentQuestion s →
  answerStatus s' = answerStatus s →
  feedbackTimeoutId s' = feedbackTimeoutId s →
  incorrectlyAnsweredQuestions s' = incorrectlyAnsweredQuestions s →
  roundInvariant s → roundInvariant s'.
Proof.
  unfold roundInvariant. by intros -> -> -> -> -> -> ->.
Qed.

Lemma startNewQuizRound_submseteq `{ArraySort} (p : Page) (session : string)
  (s : State) (w : World) :
  activeQuestions (startNewQuizRound p session s w).1 ⊆+ allQuestions s.
Proof.
  destruct (startNewQuizRound_active p session s w)
    as [(_ & ->)|(_ & shuffled & Hperm & ->)].
  - etrans; [apply selectQuestions_submseteq|apply filteredPool_submseteq].
  - rewrite <-Hperm. apply submseteq_take.
Qed.

Lemma roundInvariant_no_round (s : State) :
  roundInvariant s → activeQuestions s = [] →
  currentQuestion s = None ∧ answerStatus s = None.
Proof.
  intros (_ & _ & Hcur & Hst & _) Hnil.
  assert (currentQuestion s = None) as Hnone.
  { destruct (currentQuestion s) as [cq|] eqn:Hcq; [|done].
    destruct (Hcur cq eq_refl) as (q & Hq & _). by rewrite Hnil in Hq. }
  split; [done|]. destruct (answerStatus s) eqn:Hs; [|done].
  by destruct Hst as [? _].
Qed.

Lemma step_roundInvariant `{ArraySort} (p : Page) (e : Event) (s : State)
  (w : World) :
  roundInvariant s → roundInvariant (step p e s w).1.
Proof.
  intros Hinv. pose proof Hinv as (Hsub & Hidx & Hcur & Hst & Hmis).
  destruct e; simpl.
  - (* start *)
    pose proof (startNewQuizRound_submseteq p session s w) as Hsub'.
    destruct (startNewQuizRound_cases p session s w)
      as [(qs & s0 & w0 & Heq & Hpool & _)|(_ & Hpool & Heq)];
      rewrite Heq in *.
    + destruct (installRound_cleared p qs s0 w0)
        as (Hst' & _ & _ & Hmis' & _ & Hidx' & Hact' & Hpool' & _).
      destruct (installRound_current p qs s0 w0) as (Hcur' & _).
      unfold roundInvariant.
      rewrite Hst', Hmis', Hidx', Hact', Hpool', Hcur', Hpool.
      rewrite Hact' in Hsub'.
      split; [done|]. split; [destruct qs; [by left|right; simpl; lia]|].
      split; [apply present_lookup|]. split; [done|].
      by intros _ m ?%not_elem_of_nil.
    + assert (activeQuestions s = []) as Hnil.
      { rewrite Hpool in Hsub. by apply submseteq_nil_r in Hsub. }
      destruct (roundInvariant_no_round s Hinv Hnil) as [_ Hnone].
      unfold roundInvariant. simpl. rewrite Hnone.
      split; [apply submseteq_nil_l|]. split; [by left|]. by repeat split.
  - (* answer *)
    unfold handleAnswer.
    destruct (currentQuestion s) as [cq|] eqn:Hcq; [|done].
    destruct (answerStatus s) eqn:Hs; [by rewrite <-Hs in *|].
    destruct (Hcur cq eq_refl) as (q & Hq & Hsame).
    unfold roundInvariant.
    destruct (isCorrectAnswer alternative cq); simpl; rewrite Hcq.
    + split; [done|]. split; [done|]. split; [done|]. split; [done|done].
    + split; [done|]. split; [done|]. split; [done|]. split; [done|].
      intros Hne m Hm.
      destruct (recordMistake_cases cq (incorrectlyAnsweredQuestions s))
        as [[_ Heq]|[_ Heq]]; rewrite Heq in Hm; [by apply Hmis|].
      apply elem_of_app in Hm as [Hm|Hm]; [by apply Hmis|].
      apply list_elem_of_singleton in Hm as ->.
      exists q. split; [by eapply list_elem_of_lookup_2|done].
  - (* skip *)
    unfold handleSkip.
    destruct (currentQuestion s) as [cq|] eqn:Hcq; [|done].
    destruct (answerStatus s) eqn:Hs; [by rewrite <-Hs in *|].
    rewrite clearFeedbackAndTimeout_fields.
    unfold roundInvariant. simpl. rewrite Hcq.
    split; [done|]. split; [done|]. split; [done|]. by split.
  - (* back *)
    destruct (decide (currentQuestionIndex s = 0)) as [H0|Hpos].
    + by rewrite (handleGoBack_at_zero p s w H0).
    + destruct (handleGoBack_fields p s w)
        as (Hidx' & Hst' & _ & _ & _ & Hmis' & _ & Hact' & Hpool'); [lia|].
      pose proof (handleGoBack_current p s w) as Hcur'.
      unfold roundInvariant.
      rewrite Hidx', Hst', Hmis', Hact', Hpool', Hcur' by lia.
      split; [done|]. split; [destruct Hidx; [by left|right; lia]|].
      split; [apply present_lookup|]. by split.
  - (* the deferred advance *)
    unfold feedbackTimeout.
    destruct (loadNextQuestion_fields p skipped s w)
      as (Hpool' & Hact' & _ & _ & _ & Hnext & Hlast).
    destruct (loadNextQuestion_cleared p skipped s w)
      as (Hst' & _ & _ & Hmis').
    destruct (loadNextQuestion p skipped s w) as [s1 w1]. simpl in *.
    unfold roundInvariant. simpl. rewrite Hpool', Hact', Hst', Hmis'.
    split; [done|].
    destruct (decide (currentQuestionIndex s + 1 < length (activeQuestions s)))
      as [Hin|Hout].
    + destruct (Hnext Hin) as [-> ->].
      split; [by right|]. split; [apply present_lookup|]. by split.
    + destruct (Hlast Hout) as [-> ->]. by repeat split.
  - (* review *)
    destruct (incorrectlyAnsweredQuestions s !! i) as [q|]; [|done].
    destruct (alternatives q) as [alts| |raw];
      [destruct (shuffleArray alts w)|..]; exact Hinv.
  - exact Hinv.
  - exact Hinv.
  - exact Hinv.
  - destruct p; [|done]. unfold roundInvariant. simpl.
    split; [apply submseteq_nil_l|]. split; [by left|]. by repeat split.
Qed.

Lemma reachable_roundInvariant `{ArraySort} (p : Page) (s : State) :
  reachable p s → roundInvariant s.
Proof.
  induction 1 as [pool|s w e _ IH]; [|by apply step_roundInvariant].
  unfold roundInvariant. simpl.
  split; [apply submseteq_nil_l|]. split; [by left|]. by repeat split.
Qed.

(** X8: in every state that a page can reach, the round is drawn from the
    pool without replacement, the cursor is inside the round unless the
    round is empty, and a question on display is the question of the round
    at the cursor, with the same alternatives up to their order. *)
Theorem reachable_round_display `{ArraySort} (p : Page) (s : State) :
  reachable p s →
  activeQuestions s ⊆+ allQuestions s ∧
  (activeQuestions s = [] ∨
   currentQuestionIndex s < length (activeQuestions s)) ∧
  (∀ cq, currentQuestion s = Some cq →
         ∃ q, activeQuestions s !! currentQuestionIndex s = Some q ∧
              same_choices q cq).
Proof.
  intros Hreach.
  by destruct (reachable_roundInvariant p s Hreach) as (? & ? & ? & _).
Qed.

Lemma reachable_round_display_witness :
  let s := stateWithPendingOutcome.1 in
  activeQuestions s ⊆+ allQuestions s ∧
  (activeQuestions s = [] ∨
   currentQuestionIndex s < length (activeQuestions s)) ∧
  (∀ cq, currentQuestion s = Some cq →
         ∃ q, activeQuestions s !! currentQuestionIndex s = Some q ∧
              same_choices q cq).
Proof.
  intros s.
  apply (@reachable_round_display insertion_ArraySort NotesQuizPage s).
  apply reachable_run, reachable_init.
Defined.

(** X9: in every state that a page can reach, an outcome (correct,
    incorrect or skipped) is on display only over a question and with the
    deferred advance scheduled; the answer and Skip controls are then
    disabled. *)
Theorem reachable_outcome_pending `{ArraySort} (p : Page) (s : State) :
  reachable p s → answerStatus s ≠ None →
  currentQuestion s ≠ None ∧ feedbackTimeoutId s ≠ None ∧
  answerDisabled s = true ∧ skipDisabled s = true ∧ quizFinished s = false.
Proof.
  intros Hreach Hst.
  destruct (reachable_roundInvariant p s Hreach) as (_ & _ & _ & Hout & _).
  destruct (Hout Hst) as [Hcq Htime].
  unfold answerDisabled, skipDisabled, quizFinished.
  rewrite (bool_decide_eq_true_2 _ Hst), (bool_decide_eq_false_2 _ Hcq).
  done.
Qed.

Lemma reachable_outcome_pending_witness :
  let s := stateWithPendingOutcome.1 in
  currentQuestion s ≠ None ∧ feedbackTimeoutId s ≠ None ∧
  answerDisabled s = true ∧ skipDisabled s = true ∧ quizFinished s = false.
Proof.
  intros s.
  apply (@reachable_outcome_pending insertion_ArraySort NotesQuizPage s).
  - apply reachable_run, reachable_init.
  - by vm_compute.
Defined.

(** X10: in every state that a page can reach with a round installed, every
    listed mistake is a question of the round (with the alternatives as
    they were on display), and there are no more mistakes than the round
    has questions. *)
Theorem reachable_mistakes_of_round `{ArraySort} (p : Page) (s : State) :
  reachable p s → activeQuestions s ≠ [] →
  (∀ m, m ∈ incorrectlyAnsweredQuestions s →
        ∃ q, q ∈ activeQuestions s ∧ same_choices q m) ∧
  length (incorrectlyAnsweredQuestions s) ≤ length (activeQuestions s).
Proof.
  intros Hreach Hround.
  destruct (reachable_roundInvariant p s Hreach) as (_ & _ & _ & _ & Hmis).
  specialize (Hmis Hround). split; [done|].
  rewrite <-(length_fmap number (incorrectlyAnsweredQuestions s)).
  rewrite <-(length_fmap number (activeQuestions s)).
  apply submseteq_length, NoDup_submseteq;
    [by apply (reachable_mistakes_NoDup p)|].
  intros n (m & -> & Hm)%list_elem_of_fmap.
  destruct (Hmis m Hm) as (q & Hq & Hnum & _).
  apply list_elem_of_fmap. by exists q.
Qed.

Lemma reachable_mistakes_of_round_witness :
  let s := stateWithPendingOutcome.1 in
  (∀ m, m ∈ incorrectlyAnsweredQuestions s →
        ∃ q, q ∈ activeQuestions s ∧ same_choices q m) ∧
  length (incorrectlyAnsweredQuestions s) ≤ length (activeQuestions s).
Proof.
  intros s.
  apply (@reachable_mistakes_of_round insertion_ArraySort NotesQuizPage s).
  - apply reachable_run, reachable_init.
  - by vm_compute.
Defined.

(** ** The guards of the handlers *)

(** X11: each handler returns without any effect exactly when its guard
    fails: an answer when no question is on display or an outcome is, a
    skip exactly when the Skip button is disabled, and a step back exactly
    at cursor zero.  So an accepted call always changes the state. *)
Theorem handlers_refuse_iff (p : Page) (s : State) (w : World) :
  (∀ alternative,
      handleAnswer alternative s w = (s, w)
      ↔ currentQuestion s = None ∨ answerStatus s ≠ None) ∧
  (handleSkip s w = (s, w) ↔ skipDisabled s = true) ∧
  (handleGoBack p s w = (s, w) ↔ currentQuestionIndex s = 0).
Proof.
  split; [|split].
  - intros alternative. unfold handleAnswer.
    destruct (currentQuestion s) as [cq|]; [|by split; [left|]].
    destruct (answerStatus s) eqn:Hst; [by split; [right|]|].
    split; [|by intros [|]].
    intros Heq. apply (f_equal (λ r, answerStatus r.1)) in Heq.
    simpl in Heq. rewrite Hst in Heq.
    by destruct (isCorrectAnswer alternative cq).
  - unfold handleSkip, skipDisabled.
    destruct (currentQuestion s) as [cq|];
      [|by rewrite (bool_decide_eq_true_2 (None = None)), orb_true_r].
    rewrite (bool_decide_eq_false_2 (Some cq = None)), orb_false_r by done.
    destruct (answerStatus s) eqn:Hst; [by rewrite bool_decide_eq_true_2|].
    rewrite bool_decide_eq_false_2 by (by intros []).
    split; [|done]. intros Heq.
    apply (f_equal (λ r, answerStatus r.1)) in Heq. simpl in Heq.
    by rewrite Hst in Heq.
  - split; [|apply handleGoBack_at_zero].
    intros Heq. destruct (decide (currentQuestionIndex s = 0)) as [|Hpos]; [done|].
    destruct (handleGoBack_fields p s w) as (Hidx & _); [lia|].
    rewrite Heq in Hidx. simpl in Hidx. lia.
Qed.

(** ** The random numbers that a shuffle draws *)

Lemma shuffle_loop_world {A} (i : nat) (l : list A) (w : World) :
  random_source (shuffle_loop i l w).2 = random_source w ∧
  random_calls (shuffle_loop i l w).2 = random_calls w + i ∧
  clock (shuffle_loop i l w).2 = clock w ∧
  uuid_calls (shuffle_loop i l w).2 = uuid_calls w ∧
  timer_calls (shuffle_loop i l w).2 = timer_calls w.
Proof.
  revert l w. induction i as [|i IH]; intros l w; simpl.
  - by rewrite Nat.add_0_r.
  - match goal with
    | |- context [shuffle_loop i ?l' ?w'] =>
        destruct (IH l' w') as (-> & -> & -> & -> & ->)
    end.
    simpl. repeat split. lia.
Qed.

Lemma shuffle_loop_random {A} (i : nat) (l : list A) (w w' : World) :
  random_source w' = random_source w → random_calls w' = random_calls w →
  (shuffle_loop i l w').1 = (shuffle_loop i l w).1.
Proof.
  revert l w w'. induction i as [|i IH]; intros l w w' Hsrc Hcalls; [done|].
  simpl. rewrite Hsrc, Hcalls. apply IH; simpl; by f_equal.
Qed.

(** X12: [shuffleArray] draws one random number for each position but the
    first, so none for an array of at most one element, which it returns
    as it is; it reads nothing else of the world and changes nothing else
    in it. *)
Theorem shuffleArray_draws {A} (array : list A) (w : World) :
  random_calls (shuffleArray array w).2 = random_calls w + (length array - 1) ∧
  clock (shuffleArray array w).2 = clock w ∧
  uuid_calls (shuffleArray array w).2 = uuid_calls w ∧
  timer_calls (shuffleArray array w).2 = timer_calls w ∧
  (length array ≤ 1 → shuffleArray array w = (array, w)) ∧
  (∀ w', random_source w' = random_source w →
         random_calls w' = random_calls w →
         (shuffleArray array w').1 = (shuffleArray array w).1).
Proof.
  unfold shuffleArray.
  destruct (shuffle_loop_world (length array - 1) array w)
    as (_ & Hcalls & Hclock & Huuid & Htimer).
  repeat split; try done.
  - intros Hlen. by replace (length array - 1) with 0 by lia.
  - intros w'. apply shuffle_loop_random.
Qed.

Lemma present_random (p : Page) (q : option Question) (w w' : World) :
  random_source w' = random_source w → random_calls w' = random_calls w →
  (present p q w').1 = (present p q w).1.
Proof.
  intros Hsrc Hcalls. destruct p; [done|]. simpl.
  destruct q as [q|]; [|done]. simpl.
  destruct (alternatives q) as [alts| |raw]; [|done..].
  pose proof (shuffle_loop_random (length alts - 1) alts w w' Hsrc Hcalls)
    as Heq.
  unfold shuffleArray.
  destruct (shuffle_loop _ alts w') as [l' w1'].
  destruct (shuffle_loop _ alts w) as [l w1]. simpl in *. by subst.
Qed.

Lemma present_clock (p : Page) (q : option Question) (w : World) :
  clock (present p q w).2 = clock w.
Proof.
  destruct p; [done|]. simpl. destruct q as [q|]; [|done]. simpl.
  destruct (alternatives q) as [alts| |raw]; [|done..].
  destruct (shuffle_loop_world (length alts - 1) alts w) as (_ & _ & Hclock & _).
  fold (shuffleArray alts w) in Hclock.
  by destruct (shuffleArray alts w).
Qed.

(** ** Skipping *)

(** X13: a skip leaves no trace: after a skip and its deferred advance the
    state is the one that the advance alone leads to, so the mistakes, the
    answer history and the streak are as before the skip. *)
Theorem skip_then_advance `{ArraySort} (p : Page) (s : State) (w : World) :
  (run p [EvSkip; EvTimeout true] s w).1 = (feedbackTimeout p true s w).1.
Proof.
  simpl. unfold handleSkip.
  destruct (currentQuestion s) as [cq|] eqn:Hcq;
    [|by destruct (feedbackTimeout p true s w)].
  destruct (answerStatus s) eqn:Hst;
    [by destruct (feedbackTimeout p true s w)|].
  simpl. unfold feedbackTimeout, loadNextQuestion.
  rewrite !clearFeedbackAndTimeout_fields. simpl.
  destruct ((0 <? length (activeQuestions s))
            && (currentQuestionIndex s <? length (activeQuestions s) - 1)).
  - pose proof (present_random p
                  (activeQuestions s !! (currentQuestionIndex s + 1)) w
                  (setTimeout w).2 eq_refl eq_refl) as Heq.
    destruct (present p _ (setTimeout w).2) as [q1 w1] eqn:H1.
    destruct (present p _ w) as [q2 w2] eqn:H2.
    simpl in Heq. subst q2.
    assert (clock w1 = clock w2) as Hclock.
    { pose proof (present_clock p
                    (activeQuestions s !! (currentQuestionIndex s + 1)) w) as Hc.
      pose proof (present_clock p
                    (activeQuestions s !! (currentQuestionIndex s + 1))
                    (setTimeout w).2) as Hc'.
      rewrite H1 in Hc'. rewrite H2 in Hc. simpl in *. congruence. }
    unfold setTimeout in H1. cbn [snd] in H1. rewrite H1.
    destruct p; simpl; unfold Date_now; rewrite ?Hclock; by destruct s.
  - done.
Qed.


(** ** The answer history *)

Lemma handleAnswer_history (alternative : Alternative) (cq : Question)
  (s : State) (w : World) :
  currentQuestion s = Some cq → answerStatus s = None →
  answerHistory (handleAnswer alternative s w).1
    = obj_set (number cq) (label alternative, isCorrectAnswer alternative cq)
        (answerHistory s).
Proof.
  intros Hcq Hst. unfold handleAnswer. rewrite Hcq, Hst. simpl.
  by destruct (isCorrectAnswer alternative cq).
Qed.

(** X14: an accepted answer is recorded under the number of the question on
    display, together with whether it was correct, replacing an earlier
    answer to the same question; the records of the other questions are
    kept, and no question gets a second record. *)
Theorem answerHistory_records (alternative : Alternative) (cq : Question)
  (s : State) (w : World) :
  currentQuestion s = Some cq → answerStatus s = None →
  let s' := (handleAnswer alternative s w).1 in
  obj_get (number cq) (answerHistory s')
    = Some (label alternative, isCorrectAnswer alternative cq) ∧
  (∀ k, k ≠ number cq →
        obj_get k (answerHistory s') = obj_get k (answerHistory s)) ∧
  (NoDup (answerHistory s).*1 → NoDup (answerHistory s').*1).
Proof.
  intros Hcq Hst. cbv zeta. rewrite (handleAnswer_history _ _ _ _ Hcq Hst).
  split; [apply obj_get_set_eq|]. split.
  - intros k Hk. by apply obj_get_set_ne.
  - apply obj_set_NoDup.
Qed.

Lemma answerHistory_records_witness :
  let s := startedState.1 in
  let w := startedState.2 in
  let cq := default (sampleQuestion "0" "A.pdf") (currentQuestion s) in
  let s' := (handleAnswer answerA s w).1 in
  obj_get (number cq) (answerHistory s')
    = Some (label answerA, isCorrectAnswer answerA cq) ∧
  (∀ k, k ≠ number cq →
        obj_get k (answerHistory s') = obj_get k (answerHistory s)) ∧
  (NoDup (answerHistory s).*1 → NoDup (answerHistory s').*1).
Proof.
  intros s w cq.
  apply (answerHistory_records answerA cq s w); by vm_compute.
Defined.

(** ** Advancing through a round *)

Lemma feedbackTimeout_fields (p : Page) (skipped : bool) (s : State)
  (w : World) :
  activeQuestions (feedbackTimeout p skipped s w).1 = activeQuestions s ∧
  showQuizSetup (feedbackTimeout p skipped s w).1 = showQuizSetup s ∧
  (currentQuestionIndex s + 1 < length (activeQuestions s) →
     currentQuestionIndex (feedbackTimeout p skipped s w).1
       = currentQuestionIndex s + 1 ∧
     currentQuestion (feedbackTimeout p skipped s w).1
       = (present p (activeQuestions s !! (currentQuestionIndex s + 1)) w).1) ∧
  (¬ currentQuestionIndex s + 1 < length (activeQuestions s) →
     currentQuestionIndex (feedbackTimeout p skipped s w).1
       = currentQuestionIndex s ∧
     currentQuestion (feedbackTimeout p skipped s w).1 = None).
Proof.
  unfold feedbackTimeout.
  destruct (loadNextQuestion_fields p skipped s w)
    as (_ & Hact & Hsetup & _ & _ & Hnext & Hlast).
  by destruct (loadNextQuestion p skipped s w) as [s1 w1].
Qed.

Lemma timeouts_after_last `{ArraySort} (p : Page) (flags : list bool)
  (s : State) (w : World) :
  ¬ currentQuestionIndex s + 1 < length (activeQuestions s) →
  currentQuestion s = None →
  activeQuestions (run p (EvTimeout <$> flags) s w).1 = activeQuestions s ∧
  showQuizSetup (run p (EvTimeout <$> flags) s w).1 = showQuizSetup s ∧
  currentQuestionIndex (run p (EvTimeout <$> flags) s w).1
    = currentQuestionIndex s ∧
  currentQuestion (run p (EvTimeout <$> flags) s w).1 = None.
Proof.
  revert s w. induction flags as [|f flags IH]; intros s w Hlast Hcq; [done|].
  change (EvTimeout <$> f :: flags) with (EvTimeout f :: (EvTimeout <$> flags)).
  cbn [run step].
  destruct (feedbackTimeout_fields p f s w) as (Hact & Hsetup & _ & Hstay).
  destruct (Hstay Hlast) as [Hidx Hnone].
  destruct (feedbackTimeout p f s w) as [s1 w1]. cbn [fst snd] in *.
  destruct (IH s1 w1) as (-> & -> & -> & ->); [by rewrite Hidx, Hact|done|].
  by rewrite Hact, Hsetup, Hidx.
Qed.

(** X15: from a question on display at cursor [i] of a round of [n]
    questions, [k] deferred advances (after answers or skips alike) lead
    to cursor [i + k] with that question of the round on display as long
    as [i + k < n], and to the finished round, the cursor left on the last
    question, from then on. *)
Theorem advances_through_round `{ArraySort} (p : Page) (flags : list bool)
  (s : State) (w : World) :
  activeRound s → showQuizSetup s = false →
  let s' := (run p (EvTimeout <$> flags) s w).1 in
  activeQuestions s' = activeQuestions s ∧
  currentQuestionIndex s'
    = (currentQuestionIndex s + length flags)
      `min` (length (activeQuestions s) - 1) ∧
  (currentQuestionIndex s + length flags < length (activeQuestions s) →
     activeRound s' ∧ quizFinished s' = false) ∧
  (length (activeQuestions s) ≤ currentQuestionIndex s + length flags →
     currentQuestion s' = None ∧ quizFinished s' = true).
Proof.
  revert s w. induction flags as [|f flags IH]; intros s w Hround Hsetup.
  - pose proof Hround as (q & cq & Hq & Hcq & _).
    pose proof (lookup_lt_Some _ _ _ Hq) as Hlt. simpl.
    split; [done|]. split; [lia|]. split; [|lia].
    intros _. split; [done|]. unfold quizFinished. by rewrite Hcq.
  - pose proof Hround as (q & cq & Hq & Hcq & _).
    pose proof (lookup_lt_Some _ _ _ Hq) as Hlt.
    change (EvTimeout <$> f :: flags) with (EvTimeout f :: (EvTimeout <$> flags)).
    cbn [run step length].
    destruct (feedbackTimeout_fields p f s w) as (Hact & Hset & Hnext & Hstay).
    destruct (decide (currentQuestionIndex s + 1 < length (activeQuestions s)))
      as [Hin|Hout].
    + destruct (Hnext Hin) as [Hidx Hcur].
      destruct (lookup_lt_is_Some_2 (activeQuestions s)
                  (currentQuestionIndex s + 1) Hin) as [q1 Hq1].
      rewrite Hq1 in Hcur.
      destruct (present_same_choices p q1 w) as (cq1 & Hcq1 & Hsame).
      rewrite Hcq1 in Hcur.
      destruct (feedbackTimeout p f s w) as [s1 w1]. cbn [fst snd] in *.
      destruct (IH s1 w1) as (Ha & Hi & Hbefore & Hafter).
      { exists q1, cq1. by rewrite Hact, Hidx. }
      { by rewrite Hset. }
      rewrite Hact, Hidx in *.
      split; [done|]. split; [by rewrite Hi; f_equal; lia|].
      split; intros ?; [apply Hbefore|apply Hafter]; lia.
    + destruct (Hstay Hout) as [Hidx Hnone].
      destruct (feedbackTimeout p f s w) as [s1 w1]. cbn [fst snd] in *.
      destruct (timeouts_after_last p flags s1 w1) as (Ha & Hs & Hi & Hc);
        [by rewrite Hidx, Hact|done|].
      rewrite Ha, Hi, Hidx, Hact. split; [done|]. split; [lia|].
      split; [lia|]. intros _. split; [done|].
      unfold quizFinished. rewrite Hc, Ha, Hs, Hi, Hact, Hset, Hsetup, Hidx.
      rewrite bool_decide_eq_true_2 by done.
      rewrite !andb_true_iff, Nat.ltb_lt, Nat.leb_le. repeat split; lia.
Qed.

Lemma advances_through_round_witness :
  let s := startedState.1 in
  let w := startedState.2 in
  let flags := [false; true; false] in
  let s' := (@run insertion_ArraySort NotesQuizPage (EvTimeout <$> flags) s w).1 in
  activeQuestions s' = activeQuestions s ∧
  currentQuestionIndex s'
    = (currentQuestionIndex s + length flags)
      `min` (length (activeQuestions s) - 1) ∧
  (currentQuestionIndex s + length flags < length (activeQuestions s) →
     activeRound s' ∧ quizFinished s' = false) ∧
  (length (activeQuestions s) ≤ currentQuestionIndex s + length flags →
     currentQuestion s' = None ∧ quizFinished s' = true).
Proof.
  intros s w flags.
  apply (@advances_through_round insertion_ArraySort NotesQuizPage flags s w).
  - eexists _, _. split; [by vm_compute|]. split; [by vm_compute|].
    repeat split. apply (bool_decide_unpack _). by vm_compute.
  - reflexivity.
Defined.

(** ** Starting a round *)

Lemma startNewQuizRound_length `{ArraySort} (p : Page) (session : string)
  (s : State) (w : World) :
  length (activeQuestions (startNewQuizRound p session s w).1) ≤ numQuestions s.
Proof.
  destruct (startNewQuizRound_active p session s w)
    as [(_ & ->)|(_ & shuffled & Hperm & ->)].
  - apply selectQuestions_length.
  - rewrite length_take. lia.
Qed.

Lemma startNewQuizRound_nonempty `{ArraySort} (p : Page) (session : string)
  (s : State) (w : World) :
  allQuestions s ≠ [] → 0 < numQuestions s →
  activeQuestions (startNewQuizRound p session s w).1 ≠ [].
Proof.
  intros Hpool Hsize.
  pose proof (fallbackApplies_iff p session s w) as Hfall.
  pose proof (selectQuestions_nil p session s w Hsize) as Hnil.
  destruct (startNewQuizRound_active p session s w)
    as [(Hno & ->)|(Hyes & shuffled & Hperm & ->)].
  - intros Hempty. rewrite Hno in Hfall.
    assert (false = true) by (apply Hfall; by rewrite <-Hnil). done.
  - rewrite take_nil_iff, (perm_nil_iff _ _ Hperm). intros [?|?]; [lia|done].
Qed.

(** X16: when it reaches its setters (on the notes-quiz page with "all":
    when no topic of the pool is named like a member of
    [Object.prototype]), [startNewQuizRound] leaves the setup screen
    exactly when the pool is not empty and the requested size is positive;
    it then shows the
    first question of a fresh round: cursor and streak zero, no mistakes,
    no answers recorded, no outcome and no review on display.  Otherwise
    it shows the setup screen, with no round and no question. *)
Theorem start_installs_round `{ArraySort} (p : Page) (session : string)
  (s : State) (w : World) :
  startCompletes p session (allQuestions s) = true →
  let s' := (startNewQuizRound p session s w).1 in
  (showQuizSetup s' = false ↔ allQuestions s ≠ [] ∧ 0 < numQuestions s) ∧
  (showQuizSetup s' = false →
     activeRound s' ∧ currentQuestionIndex s' = 0 ∧ streak s' = 0 ∧
     incorrectlyAnsweredQuestions s' = [] ∧ answerHistory s' = [] ∧
     answerStatus s' = None ∧ questionToReview s' = None ∧
     quizFinished s' = false) ∧
  (showQuizSetup s' = true →
     activeQuestions s' = [] ∧ currentQuestion s' = None).
Proof.
  intros _. cbv zeta.
  pose proof (startNewQuizRound_submseteq p session s w) as Hsub.
  pose proof (startNewQuizRound_length p session s w) as Hlen.
  pose proof (startNewQuizRound_nonempty p session s w) as Hne.
  destruct (startNewQuizRound_cases p session s w)
    as [(qs & s0 & w0 & Heq & Hpool & _)|(_ & Hpool & Heq)];
    rewrite Heq in *; clear Heq.
  - destruct (installRound_cleared p qs s0 w0)
      as (Hst & _ & _ & Hmis & Hstreak & Hidx & Hact & _).
    destruct (installRound_current p qs s0 w0) as (Hcur & Hset & Hhist & Hrev).
    rewrite Hact in *. rewrite Hset, Hst, Hmis, Hstreak, Hidx, Hhist, Hrev.
    split; [|split].
    + rewrite Nat.eqb_neq. split.
      * intros Hqs. split; [|lia].
        intros Hnil. rewrite Hnil in Hsub.
        apply submseteq_nil_r in Hsub. by subst qs.
      * intros [? ?] Hqs. apply Hne; [done..|]. by destruct qs.
    + rewrite Nat.eqb_neq. intros Hqs.
      assert (qs ≠ []) as Hqs' by (by intros ->).
      pose proof (installRound_activeRound p qs s0 w0 Hqs') as Hround.
      split; [done|]. repeat (split; [done|]).
      destruct Hround as (_ & cq & _ & Hcq & _).
      unfold quizFinished. by rewrite Hcq.
    + rewrite Nat.eqb_eq. intros ->%length_zero_iff_nil.
      split; [done|]. rewrite Hcur. change (@nil Question !! 0) with (@None Question).
      by rewrite present_None.
  - simpl. rewrite Hpool. split; [|split]; [|done|done].
    split; [done|]. by intros [? _].
Qed.

Lemma start_installs_round_witness :
  let s := setNumQuestions 6 (initialState threeTopicsPool) in
  let w := constant_world 30 in
  let s' := (@startNewQuizRound insertion_ArraySort NotesQuizPage "all" s w).1 in
  (showQuizSetup s' = false ↔ allQuestions s ≠ [] ∧ 0 < numQuestions s) ∧
  (showQuizSetup s' = false →
     activeRound s' ∧ currentQuestionIndex s' = 0 ∧ streak s' = 0 ∧
     incorrectlyAnsweredQuestions s' = [] ∧ answerHistory s' = [] ∧
     answerStatus s' = None ∧ questionToReview s' = None ∧
     quizFinished s' = false) ∧
  (showQuizSetup s' = true →
     activeQuestions s' = [] ∧ currentQuestion s' = None).
Proof.
  intros s w.
  apply (@start_installs_round insertion_ArraySort NotesQuizPage "all" s w).
  reflexivity.
Defined.

(** ** Reviewing a mistake *)

(** X17: the button of a listed mistake puts on review a copy of that
    question with the same number, text, topic and correct answer, and the
    same alternatives up to their order; the list of mistakes and the
    round are untouched, and closing the review leads back to the state
    before it, if none was open. *)
Theorem review_shows_copy `{ArraySort} (p : Page) (i : nat) (m : Question)
  (s : State) (w : World) :
  incorrectlyAnsweredQuestions s !! i = Some m →
  let s' := (step p (EvReview i) s w).1 in
  (∃ r, questionToReview s' = Some r ∧ same_choices m r) ∧
  incorrectlyAnsweredQuestions s' = incorrectlyAnsweredQuestions s ∧
  activeQuestions s' = activeQuestions s ∧
  currentQuestionIndex s' = currentQuestionIndex s ∧
  currentQuestion s' = currentQuestion s ∧
  streak s' = streak s ∧
  (questionToReview s = None →
   (run p [EvReview i; EvCloseReview] s w).1 = s).
Proof.
  intros Hm. cbn [run step]. rewrite Hm.
  destruct (shuffleAlternatives_same_choices m w) as (r & Hr & Hsame).
  destruct (shuffleAlternatives (Some m) w) as [r' w1]. simpl in Hr. subst r'.
  cbn [fst snd]. split; [by exists r|]. repeat (split; [done|]).
  intros Hnone. destruct s; simpl in *; by subst.
Qed.

Lemma review_shows_copy_witness :
  let s := stateWithPendingOutcome.1 in
  let w := stateWithPendingOutcome.2 in
  let m := default (sampleQuestion "0" "A.pdf")
             (incorrectlyAnsweredQuestions s !! 0) in
  let s' := (@step insertion_ArraySort NotesQuizPage (EvReview 0) s w).1 in
  (∃ r, questionToReview s' = Some r ∧ same_choices m r) ∧
  incorrectlyAnsweredQuestions s' = incorrectlyAnsweredQuestions s ∧
  activeQuestions s' = activeQuestions s ∧
  currentQuestionIndex s' = currentQuestionIndex s ∧
  currentQuestion s' = currentQuestion s ∧
  streak s' = streak s ∧
  (questionToReview s = None →
   (@run insertion_ArraySort NotesQuizPage [EvReview 0; EvCloseReview] s w).1
     = s).
Proof.
  intros s w m.
  apply (@review_shows_copy insertion_ArraySort NotesQuizPage 0 m s w).
  by vm_compute.
Defined.

(** ** The alternatives of a question on display *)

(** X18: [shuffleAlternatives] on a question whose alternatives are an
    array returns a copy with the same number, text, topic and correct
    answer and with the same alternatives in some order, so that the same
    answers are correct before and after; it draws one random number for
    each alternative but the first. *)
Theorem shuffleAlternatives_keeps_answer (q : Question)
  (alts : list Alternative) (w : World) :
  alternatives q = AltsArray alts →
  ∃ q' alts',
    shuffleAlternatives (Some q) w
      = (Some q', (shuffleArray alts w).2) ∧
    alternatives q' = AltsArray alts' ∧ alts' ≡ₚ alts ∧
    number q' = number q ∧ question_text q' = question_text q ∧
    pdf_filename q' = pdf_filename q ∧ correct_answer q' = correct_answer q ∧
    (∀ alternative,
        isCorrectAnswer alternative q' = isCorrectAnswer alternative q) ∧
    random_calls (shuffleAlternatives (Some q) w).2
      = random_calls w + (length alts - 1).
Proof.
  intros Halts. unfold shuffleAlternatives. rewrite Halts.
  pose proof (shuffleArray_perm alts w) as Hperm.
  destruct (shuffle_loop_world (length alts - 1) alts w) as (_ & Hcalls & _).
  fold (shuffleArray alts w) in Hcalls.
  destruct (shuffleArray alts w) as [shuffledAlts w1]. simpl in *.
  by exists (withAlternatives q (AltsArray shuffledAlts)), shuffledAlts.
Qed.

Lemma shuffleAlternatives_keeps_answer_witness :
  let q := sampleQuestion "1" "A.pdf" in
  let w := constant_world 50 in
  ∃ q' alts',
    shuffleAlternatives (Some q) w
      = (Some q', (shuffleArray sampleAlternatives w).2) ∧
    alternatives q' = AltsArray alts' ∧ alts' ≡ₚ sampleAlternatives ∧
    number q' = number q ∧ question_text q' = question_text q ∧
    pdf_filename q' = pdf_filename q ∧ correct_answer q' = correct_answer q ∧
    (∀ alternative,
        isCorrectAnswer alternative q' = isCorrectAnswer alternative q) ∧
    random_calls (shuffleAlternatives (Some q) w).2
      = random_calls w + (length sampleAlternatives - 1).
Proof.
  intros q w.
  apply (shuffleAlternatives_keeps_answer q sampleAlternatives w).
  reflexivity.
Defined.

(** ** Advancing and going back *)

(** X19: with a question on display that is not the last of the round, an
    advance followed by a step back leads to the same cursor, and the
    question then on display is the one that was on display before, with
    the same alternatives up to their order; the outcome on display, if
    any, is cleared. *)
Theorem advance_then_goBack (p : Page) (skipped : bool) (s : State)
  (w : World) :
  activeRound s →
  currentQuestionIndex s + 1 < length (activeQuestions s) →
  let next := loadNextQuestion p skipped s w in
  let back := handleGoBack p next.1 next.2 in
  currentQuestionIndex next.1 = currentQuestionIndex s + 1 ∧
  currentQuestionIndex back.1 = currentQuestionIndex s ∧
  activeQuestions back.1 = activeQuestions s ∧
  answerStatus back.1 = None ∧
  ∃ cq cq', currentQuestion s = Some cq ∧
            currentQuestion back.1 = Some cq' ∧
            same_choices cq cq'.
Proof.
  intros (q & cq & Hq & Hcq & Hsame) Hin. cbv zeta.
  destruct (loadNextQuestion_fields p skipped s w)
    as (_ & Hact & _ & _ & _ & Hnext & _).
  destruct (Hnext Hin) as [Hidx _].
  destruct (loadNextQuestion p skipped s w) as [s1 w1]. cbn [fst snd] in *.
  destruct (handleGoBack_fields p s1 w1)
    as (Hidx' & Hst' & _ & _ & _ & _ & _ & Hact' & _); [lia|].
  assert (currentQuestion (handleGoBack p s1 w1).1 = (present p (Some q) w1).1)
    as Hprev.
  { apply handleGoBack_previous; [lia|]. rewrite Hact, Hidx.
    by replace (currentQuestionIndex s + 1 - 1) with (currentQuestionIndex s)
      by lia. }
  rewrite Hidx', Hact', Hact, Hidx, Hst', Hprev.
  replace (currentQuestionIndex s + 1 - 1) with (currentQuestionIndex s)
    by lia.
  split; [done|]. split; [done|]. split; [done|]. split; [done|].
  destruct (present_same_choices p q w1) as (cq' & -> & Hsame').
  exists cq, cq'. split; [done|]. split; [done|].
  by apply (same_choices_common q).
Qed.

Lemma advance_then_goBack_witness :
  let s := startedState.1 in
  let w := startedState.2 in
  let next := loadNextQuestion NotesQuizPage false s w in
  let back := handleGoBack NotesQuizPage next.1 next.2 in
  currentQuestionIndex next.1 = currentQuestionIndex s + 1 ∧
  currentQuestionIndex back.1 = currentQuestionIndex s ∧
  activeQuestions back.1 = activeQuestions s ∧
  answerStatus back.1 = None ∧
  ∃ cq cq', currentQuestion s = Some cq ∧
            currentQuestion back.1 = Some cq' ∧
            same_choices cq cq'.
Proof.
  intros s w.
  apply (advance_then_goBack NotesQuizPage false s w).
  - eexists _, _. split; [by vm_compute|]. split; [by vm_compute|].
    repeat split. apply (bool_decide_unpack _). by vm_compute.
  - vm_compute. lia.
Defined.

(** ** The older copy of the main page *)

Lemma Legacy_selectQuestions_plain `{ArraySort} (session : string) (s : State)
  (w : World) :
  ∃ shuffled, shuffled ≡ₚ filteredPool Home session (allQuestions s) ∧
              (Legacy_selectQuestions session s w).1
                = take (numQuestions s) shuffled.
Proof.
  unfold Legacy_selectQuestions, filteredPool. case_decide.
  - pose proof (sort_random_perm _ (allQuestions s) w) as Hperm.
    destruct (sort_random (allQuestions s) w) as [sorted w']. by exists sorted.
  - pose proof (sort_random_perm _
                  (filter (λ q, pdf_filename q = Some session) (allQuestions s))
                  w) as Hperm.
    destruct (sort_random _ w) as [sorted w']. by exists sorted.
Qed.

Lemma Legacy_startNewQuizRound_active `{ArraySort} (session : string)
  (s : State) (w : World) :
  ∃ shuffled,
    (shuffled ≡ₚ filteredPool Home session (allQuestions s) ∧
     ¬ (filteredPool Home session (allQuestions s) = [] ∧
        allQuestions s ≠ [] ∧ 0 < numQuestions s) ∧
     activeQuestions (Legacy_startNewQuizRound session s w).1
       = take (numQuestions s) shuffled) ∨
    (shuffled ≡ₚ allQuestions s ∧
     (filteredPool Home session (allQuestions s) = [] ∧
      allQuestions s ≠ [] ∧ 0 < numQuestions s) ∧
     activeQuestions (Legacy_startNewQuizRound session s w).1
       = take (numQuestions s `min` 5) shuffled).
Proof.
  unfold Legacy_startNewQuizRound.
  destruct (Legacy_selectQuestions_plain session s w)
    as (shuffled & Hperm & Hsel).
  destruct (Legacy_selectQuestions session s w) as [qs w1]. simpl in Hsel.
  destruct ((length qs =? 0) && (0 <? length (allQuestions s))
            && (0 <? numQuestions s)) eqn:Hfall.
  - apply andb_true_iff in Hfall as [[Hqs Hpool]%andb_true_iff Hsize].
    apply Nat.eqb_eq, length_zero_iff_nil in Hqs.
    apply Nat.ltb_lt in Hpool, Hsize.
    pose proof (sort_random_perm _ (allQuestions s) w1) as Hperm'.
    destruct (sort_random (allQuestions s) w1) as [sorted w2].
    exists sorted. right. split; [done|]. rewrite installRound_active.
    split; [|done]. split; [|split; [|done]].
    + rewrite Hsel in Hqs. apply take_nil_iff in Hqs as [?|Hs]; [lia|].
      by apply (perm_nil_iff _ _ Hperm).
    + intros Hnil. rewrite Hnil in Hpool. simpl in Hpool. lia.
  - exists shuffled. left. split; [done|]. rewrite installRound_active.
    split; [|done]. intros (Hnil & Hpool & Hsize).
    apply not_true_iff_false in Hfall. apply Hfall.
    rewrite !andb_true_iff, Nat.eqb_eq, !Nat.ltb_lt, length_zero_iff_nil.
    split; [split|done].
    + rewrite Hsel. apply take_nil_iff. right.
      by apply (perm_nil_iff _ _ Hperm).
    + destruct (allQuestions s); [done|simpl; lia].
Qed.

(** X20: the older copy of the main page, which rearranges with
    [sort(() => 0.5 - Math.random())] instead of [shuffleArray], starts
    rounds with the same guarantees as the current one: the round is drawn
    from the pool without replacement, it has as many questions as a round
    of the current page for the same request, it is empty only when the
    pool is empty or the requested size is zero, and its first question is
    displayed with its alternatives in their stored order. *)
Theorem Legacy_startNewQuizRound_round `{ArraySort} (session : string)
  (s : State) (w : World) :
  let s' := (Legacy_startNewQuizRound session s w).1 in
  activeQuestions s' ⊆+ allQuestions s ∧
  (∀ w', length (activeQuestions s')
         = length (activeQuestions (startNewQuizRound Home session s w').1)) ∧
  (activeQuestions s' = [] ↔ allQuestions s = [] ∨ numQuestions s = 0) ∧
  currentQuestionIndex s' = 0 ∧
  currentQuestion s' = activeQuestions s' !! 0.
Proof.
  cbv zeta.
  assert (currentQuestionIndex (Legacy_startNewQuizRound session s w).1 = 0 ∧
          currentQuestion (Legacy_startNewQuizRound session s w).1
            = activeQuestions (Legacy_startNewQuizRound session s w).1 !! 0)
    as Hfirst.
  { unfold Legacy_startNewQuizRound.
    destruct (Legacy_selectQuestions session s w) as [qs w1].
    destruct (_ && _); [destruct (sort_random _ _) as [sorted w2]|];
      (split; [apply installRound_cleared|]);
      match goal with
      | |- context [installRound Home ?qs s ?w0] =>
          destruct (installRound_current Home qs s w0) as (-> & _)
      end;
      by rewrite installRound_active. }
  pose proof (fallbackApplies_iff Home session s) as Hfall.
  destruct (Legacy_startNewQuizRound_active session s w)
    as (shuffled & [(Hperm & Hno & Hact)|(Hperm & Hyes & Hact)]);
    rewrite Hact in Hfirst |- *.
  - split; [|split; [|split; [|done]]].
    + etrans; [|apply (filteredPool_submseteq Home session)].
      rewrite <-Hperm. apply submseteq_take.
    + intros w'.
      destruct (startNewQuizRound_active Home session s w')
        as [(_ & ->)|(Hyes & _)]; [|by apply Hfall in Hyes].
      destruct (selectQuestions_plain Home session s w' (or_introl eq_refl))
        as (shuffled' & Hperm' & ->).
      by rewrite !length_take, Hperm, Hperm'.
    + rewrite take_nil_iff, (perm_nil_iff _ _ Hperm). split.
      * intros [?|Hnil]; [by right|].
        destruct (decide (allQuestions s = [])) as [|Hpool]; [by left|].
        destruct (decide (numQuestions s = 0)) as [|Hsize]; [by right|].
        destruct Hno. split; [done|]. split; [done|lia].
      * intros [Hnil|?]; [|by left]. right.
        unfold filteredPool. rewrite Hnil. by case_decide.
  - split; [|split; [|split; [|done]]].
    + rewrite <-Hperm. apply submseteq_take.
    + intros w'.
      destruct (startNewQuizRound_active Home session s w')
        as [(Hno & _)|(_ & shuffled' & Hperm' & ->)].
      * apply (Hfall w') in Hyes. congruence.
      * by rewrite !length_take, Hperm, Hperm'.
    + destruct Hyes as (_ & Hpool & Hsize).
      rewrite take_nil_iff, (perm_nil_iff _ _ Hperm). split.
      * intros [?|?]; [lia|done].
      * intros [?|?]; [done|lia].
Qed.

(** ** The topics that the main page offers *)

Lemma Set_values_seen {A} `{EqDecision A} (keys seen : list A) :
  fold_left (λ seen k, if decide (k ∈ seen) then seen else seen ++ [k])
    keys seen
  = seen ++ filter (λ x, x ∉ seen) (Set_values keys).
Proof.
  unfold Set_values. revert seen.
  induction keys as [|k keys IH]; intros seen; simpl.
  - by rewrite app_nil_r.
  - rewrite (IH [k]). simpl.
    destruct (decide (k ∈ seen)) as [Hin|Hout].
    + rewrite IH. f_equal. rewrite filter_cons_False by (by intros []).
      rewrite list_filter_filter. apply list_filter_iff. intros x.
      rewrite list_elem_of_singleton. split; [|tauto].
      intros Hx. split; [done|]. by intros ->.
    + rewrite IH, <-app_assoc. f_equal. simpl.
      rewrite filter_cons_True by done. f_equal.
      rewrite list_filter_filter. apply list_filter_iff. intros x.
      rewrite elem_of_app, list_elem_of_singleton. tauto.
Qed.

(** X21: the topic selector of the main page lists the file names of the
    loaded questions (an absent one included, as such) once each and in
    the order of their first occurrence: the name of the first question
    comes first, followed by the other names in the order in which the
    rest of the questions brings them. *)
Theorem Home_sessions_spec (data : list Question) :
  NoDup (Home_sessions data) ∧
  (∀ t, t ∈ Home_sessions data ↔ ∃ q, q ∈ data ∧ pdf_filename q = t) ∧
  (∀ q rest, data = q :: rest →
     Home_sessions data
       = pdf_filename q
         :: filter (λ t, t ≠ pdf_filename q) (Home_sessions rest)).
Proof.
  unfold Home_sessions.
  destruct (Set_values_spec (pdf_filename <$> data)) as [Hnd Hin].
  split; [done|]. split.
  - intros t. rewrite Hin, list_elem_of_fmap.
    split; intros (q & ? & ?); by exists q.
  - intros q rest ->. rewrite fmap_cons. unfold Set_values at 1. simpl.
    rewrite (Set_values_seen (pdf_filename <$> rest) [pdf_filename q]).
    simpl. f_equal. apply list_filter_iff. intros x.
    rewrite list_elem_of_singleton. tauto.
Qed.

(** ** Playing a round through *)

(** An accepted answer and its deferred advance. *)
Lemma answer_turn `{ArraySort} (p : Page) (alternative : Alternative)
  (s : State) (w : World) (q : Question) :
  activeRound s → answerStatus s = None →
  activeQuestions s !! currentQuestionIndex s = Some q →
  let s' := (run p [EvAnswer alternative; EvTimeout false] s w).1 in
  activeQuestions s' = activeQuestions s ∧
  showQuizSetup s' = showQuizSetup s ∧
  answerStatus s' = None ∧
  answerHistory s'
    = obj_set (number q) (label alternative, isCorrectAnswer alternative q)
        (answerHistory s) ∧
  (isCorrectAnswer alternative q = true →
     streak s' = streak s + 1 ∧
     incorrectlyAnsweredQuestions s' = incorrectlyAnsweredQuestions s) ∧
  (currentQuestionIndex s + 1 < length (activeQuestions s) →
     currentQuestionIndex s' = currentQuestionIndex s + 1 ∧ activeRound s') ∧
  (¬ currentQuestionIndex s + 1 < length (activeQuestions s) →
     currentQuestionIndex s' = currentQuestionIndex s ∧
     currentQuestion s' = None).
Proof.
  intros (q0 & cq & Hq0 & Hcq & Hsame) Hst Hq. rewrite Hq in Hq0.
  injection Hq0 as <-. destruct Hsame as (Hnum & _ & _ & Hans & _).
  assert (∀ a, isCorrectAnswer a cq = isCorrectAnswer a q) as Hverdict
    by (intros a; unfold isCorrectAnswer; by rewrite Hans).
  cbn [run step].
  pose proof (handleAnswer_history alternative cq s w Hcq Hst) as Hhist.
  assert (activeQuestions (handleAnswer alternative s w).1 = activeQuestions s ∧
          showQuizSetup (handleAnswer alternative s w).1 = showQuizSetup s ∧
          currentQuestionIndex (handleAnswer alternative s w).1
            = currentQuestionIndex s ∧
          (isCorrectAnswer alternative cq = true →
             streak (handleAnswer alternative s w).1 = streak s + 1 ∧
             incorrectlyAnsweredQuestions (handleAnswer alternative s w).1
               = incorrectlyAnsweredQuestions s))
    as (Hact & Hset & Hidx & Hok).
  { unfold handleAnswer. rewrite Hcq, Hst. simpl.
    by destruct (isCorrectAnswer alternative cq). }
  destruct (handleAnswer alternative s w) as [s1 w1]. cbn [fst snd] in *.
  destruct (feedbackTimeout_fields p false s1 w1)
    as (Hact' & Hset' & Hnext & Hstay).
  destruct (loadNextQuestion_cleared p false s1 w1) as (Hst' & _ & _ & Hmis').
  destruct (loadNextQuestion_fields p false s1 w1)
    as (_ & _ & _ & Hstreak' & Hhist' & _).
  unfold feedbackTimeout in *.
  destruct (loadNextQuestion p false s1 w1) as [s2 w2]. simpl in *.
  rewrite Hact, Hidx in *.
  split; [by rewrite Hact'|]. split; [by rewrite Hset', Hset|].
  split; [done|]. split; [by rewrite Hhist', Hhist, Hnum, Hverdict|].
  split; [|split].
  - rewrite <-Hverdict. intros Hyes. destruct (Hok Hyes) as [<- <-].
    by rewrite Hstreak', Hmis'.
  - intros Hin. destruct (Hnext Hin) as [Hidx2 Hcur2]. split; [done|].
    destruct (lookup_lt_is_Some_2 (activeQuestions s)
                (currentQuestionIndex s + 1) Hin) as [q1 Hq1].
    rewrite Hq1 in Hcur2.
    destruct (present_same_choices p q1 w1) as (cq1 & Hcq1 & Hsame1).
    exists q1, cq1. simpl in *. by rewrite Hact', Hidx2, Hcur2.
  - intros Hout. by destruct (Hstay Hout).
Qed.

(** X22: a player who, from the question on display, answers the remaining
    questions of the round one after the other finishes the round; the
    answer history then holds, for each of these questions, the answer
    given and whether it was correct (when their numbers are distinct),
    and keeps the records of the other questions; if all the answers were
    correct, the streak has grown by their number and no mistake was
    added. *)
Theorem answers_in_turn `{ArraySort} (p : Page) (answers : list Alternative)
  (s : State) (w : World) :
  activeRound s → answerStatus s = None → showQuizSetup s = false →
  currentQuestionIndex s + length answers = length (activeQuestions s) →
  let s' := (run p (answerInTurn answers) s w).1 in
  activeQuestions s' = activeQuestions s ∧
  quizFinished s' = true ∧
  (∀ k, k ∉ number <$> drop (currentQuestionIndex s) (activeQuestions s) →
        obj_get k (answerHistory s') = obj_get k (answerHistory s)) ∧
  (NoDup (number <$> drop (currentQuestionIndex s) (activeQuestions s)) →
   ∀ j a q, answers !! j = Some a →
            activeQuestions s !! (currentQuestionIndex s + j) = Some q →
            obj_get (number q) (answerHistory s')
              = Some (label a, isCorrectAnswer a q)) ∧
  ((∀ j a q, answers !! j = Some a →
             activeQuestions s !! (currentQuestionIndex s + j) = Some q →
             isCorrectAnswer a q = true) →
   streak s' = streak s + length answers ∧
   incorrectlyAnsweredQuestions s' = incorrectlyAnsweredQuestions s).
Proof.
  revert s w. induction answers as [|a answers IH];
    intros s w Hround Hst Hsetup Hlen.
  { destruct Hround as (q & _ & Hq%lookup_lt_Some & _). simpl in Hlen. lia. }
  pose proof Hround as (q & _ & Hq & _).
  change (answerInTurn (a :: answers))
    with ([EvAnswer a; EvTimeout false] ++ answerInTurn answers).
  change (run p ([EvAnswer a; EvTimeout false] ++ answerInTurn answers) s w)
    with (let '(s1, w1) := step p (EvAnswer a) s w in
          let '(s2, w2) := step p (EvTimeout false) s1 w1 in
          run p (answerInTurn answers) s2 w2).
  destruct (answer_turn p a s w q Hround Hst Hq)
    as (Hact & Hset & Hst2 & Hhist & Hok & Hnext & Hlast).
  cbn [run] in Hact, Hset, Hst2, Hhist, Hok, Hnext, Hlast.
  destruct (step p (EvAnswer a) s w) as [s1 w1].
  destruct (step p (EvTimeout false) s1 w1) as [s2 w2].
  cbn [fst snd length] in *.
  rewrite (drop_S _ _ _ Hq), fmap_cons.
  destruct (decide (currentQuestionIndex s + 1 < length (activeQuestions s)))
    as [Hin|Hout].
  - destruct (Hnext Hin) as [Hidx Hround2].
    destruct (IH s2 w2 Hround2 Hst2) as (Ha & Hfin & Hother & Hrec & Hall);
      [congruence|rewrite Hact, Hidx; lia|].
    rewrite Hact, Hidx, Hhist in *.
    replace (currentQuestionIndex s + 1) with (S (currentQuestionIndex s))
      in * by lia.
    split; [done|]. split; [done|]. split; [|split].
    + intros k [Hk Hrest]%not_elem_of_cons.
      rewrite (Hother k Hrest). by apply obj_get_set_ne.
    + intros [Hfresh Hnd]%NoDup_cons [|j] a' q' Ha' Hq'.
      * rewrite Nat.add_0_r, Hq in Hq'. injection Hq' as <-.
        injection Ha' as <-. rewrite (Hother _ Hfresh).
        apply obj_get_set_eq.
      * apply (Hrec Hnd j); [done|]. rewrite <-Hq'. f_equal. lia.
    + intros Hcorrect.
      destruct Hall as [-> ->].
      { intros j a' q' Ha' Hq'. apply (Hcorrect (S j)); [done|].
        rewrite <-Hq'. f_equal. lia. }
      destruct Hok as [-> ->];
        [apply (Hcorrect 0); [done|by rewrite Nat.add_0_r]|].
      split; [lia|done].
  - destruct (Hlast Hout) as [Hidx Hnone].
    destruct answers as [|a' answers]; [|simpl in Hlen; lia].
    cbn [run answerInTurn mbind list_bind fst snd length].
    change (run p (answerInTurn []) s2 w2) with (s2, w2). cbn [fst].
    split; [done|]. split; [|split; [|split]].
    + unfold quizFinished.
      rewrite Hnone, Hact, Hset, Hsetup, Hidx, bool_decide_eq_true_2 by done.
      rewrite !andb_true_iff, Nat.ltb_lt, Nat.leb_le. repeat split; lia.
    + intros k [Hk _]%not_elem_of_cons. rewrite Hhist.
      by apply obj_get_set_ne.
    + intros _ [|j] a' q' Ha' Hq'; [|done].
      rewrite Nat.add_0_r, Hq in Hq'. injection Hq' as <-.
      injection Ha' as <-. rewrite Hhist. apply obj_get_set_eq.
    + intros Hcorrect.
      destruct Hok as [-> ->];
        [apply (Hcorrect 0); [done|by rewrite Nat.add_0_r]|done].
Qed.

Lemma answers_in_turn_witness :
  let s := startedState.1 in
  let w := startedState.2 in
  let answers := [answerB; answerB; answerA; answerB] in
  let s' := (@run insertion_ArraySort NotesQuizPage (answerInTurn answers) s w).1 in
  activeQuestions s' = activeQuestions s ∧
  quizFinished s' = true ∧
  (∀ k, k ∉ number <$> drop (currentQuestionIndex s) (activeQuestions s) →
        obj_get k (answerHistory s') = obj_get k (answerHistory s)) ∧
  (NoDup (number <$> drop (currentQuestionIndex s) (activeQuestions s)) →
   ∀ j a q, answers !! j = Some a →
            activeQuestions s !! (currentQuestionIndex s + j) = Some q →
            obj_get (number q) (answerHistory s')
              = Some (label a, isCorrectAnswer a q)) ∧
  ((∀ j a q, answers !! j = Some a →
             activeQuestions s !! (currentQuestionIndex s + j) = Some q →
             isCorrectAnswer a q = true) →
   streak s' = streak s + length answers ∧
   incorrectlyAnsweredQuestions s' = incorrectlyAnsweredQuestions s).
Proof.
  intros s w answers.
  apply (@answers_in_turn insertion_ArraySort NotesQuizPage answers s w).
  - eexists _, _. split; [by vm_compute|]. split; [by vm_compute|].
    repeat split. apply (bool_decide_unpack _). by vm_compute.
  - by vm_compute.
  - by vm_compute.
  - by vm_compute.
Defined.
